(** * Orangered-Parser: a shallow embedding of the command parser

    The repository holds two generations of the parser, each in a file
    named index.js:
    - the single-file parser, module [Legacy] below: the argument classes
      ([Argument], [StringArgument], [UserArgument], [SubredditArgument],
      [argTypes]), [Command], [register] and [parse];
    - the split-up parser, one directory further down, module [Parser]
      below: [registerSingle], [register], [parse] with the permission
      gate, [clear] and [deregister].  Its argument classes and [Command]
      live in modules that are not part of the sources at hand, so it is
      run on the classes of the single-file parser.

    JavaScript strings are modelled as [string] read as Latin-1 code units;
    JavaScript numbers that arise here are integers and are modelled as [Z]
    (exact below 2^53).  Objects that are mutated through several references
    (the caller's specification object and its alias arrays) live in an
    explicit heap; records that are never mutated after construction
    ([Command], [InvalidArgumentError]) are carried by value together with
    the identity they were allocated at. *)

From Stdlib Require Import ZArith Lia Ascii String.
From stdpp Require Import base option list strings pretty gmap fin_maps.

Open Scope string_scope.
Open Scope nat_scope.

(** ** JavaScript strings *)

Module Js.

(** [\s] of a regular expression and the characters removed by
    [String.prototype.trim], within Latin-1. *)
Definition isSpace (c : ascii) : bool :=
  let n := nat_of_ascii c in
  ((9 <=? n) && (n <=? 13)) || (n =? 32) || (n =? 160).

(** The characters the regular-expression dot refuses. *)
Definition isLineTerminator (c : ascii) : bool :=
  let n := nat_of_ascii c in (n =? 10) || (n =? 13).

Definition isDigit (c : ascii) : bool :=
  let n := nat_of_ascii c in (48 <=? n) && (n <=? 57).

Definition isAlpha (c : ascii) : bool :=
  let n := nat_of_ascii c in
  ((65 <=? n) && (n <=? 90)) || ((97 <=? n) && (n <=? 122)).

(** [[A-Za-z0-9]] *)
Definition isAlnum (c : ascii) : bool := isAlpha c || isDigit c.

(** [\w] *)
Definition isWord (c : ascii) : bool := isAlnum c || (nat_of_ascii c =? 95).

Definition isQuote (c : ascii) : bool := nat_of_ascii c =? 34.

Definition isEmpty (s : string) : bool :=
  match s with EmptyString => true | _ => false end.

Fixpoint trimStart (s : string) : string :=
  match s with
  | String c r => if isSpace c then trimStart r else s
  | EmptyString => EmptyString
  end.

Fixpoint trimEnd (s : string) : string :=
  match s with
  | String c r =>
      let r' := trimEnd r in
      if isSpace c && isEmpty r' then EmptyString else String c r'
  | EmptyString => EmptyString
  end.

(** [s.trim()] *)
Definition trim (s : string) : string := trimEnd (trimStart s).

Fixpoint forallb (p : ascii -> bool) (s : string) : bool :=
  match s with
  | String c r => p c && forallb p r
  | EmptyString => true
  end.

Fixpoint existsb (p : ascii -> bool) (s : string) : bool :=
  match s with
  | String c r => p c || existsb p r
  | EmptyString => false
  end.

Fixpoint takeWhile (p : ascii -> bool) (s : string) : string :=
  match s with
  | String c r => if p c then String c (takeWhile p r) else EmptyString
  | EmptyString => EmptyString
  end.

Fixpoint dropWhile (p : ascii -> bool) (s : string) : string :=
  match s with
  | String c r => if p c then dropWhile p r else s
  | EmptyString => EmptyString
  end.

(** [s.substr(0, n)] and [s.substr(n)] for [0 <= n]. *)
Fixpoint take (n : nat) (s : string) : string :=
  match n, s with
  | S k, String c r => String c (take k r)
  | _, _ => EmptyString
  end.

Fixpoint drop (n : nat) (s : string) : string :=
  match n, s with
  | S k, String _ r => drop k r
  | _, _ => s
  end.

(** [s.indexOf(" ")], [None] standing for [-1]. *)
Fixpoint indexOfSpace (s : string) : option nat :=
  match s with
  | String c r =>
      if nat_of_ascii c =? 32 then Some 0 else S <$> indexOfSpace r
  | EmptyString => None
  end.

(** Truthiness of a string: only the empty string is falsy. *)
Definition truthy (s : string) : bool := negb (isEmpty s).

(** [a || b] on values that are a string or [undefined]. *)
Definition or (a b : option string) : option string :=
  match a with
  | Some s => if truthy s then a else b
  | None => b
  end.

(** [a || ""] *)
Definition orEmpty (a : option string) : string :=
  match a with
  | Some s => s
  | None => EmptyString
  end.

(** *** [parseInt(s)] without a radix

    Leading white space is skipped, one sign is read, a [0x]/[0X] prefix
    selects base sixteen, and the longest run of digits of the base is the
    value; no digit at all gives [NaN], here [None]. *)

Definition digitValue (c : ascii) : option Z :=
  let n := nat_of_ascii c in
  if (48 <=? n) && (n <=? 57) then Some (Z.of_nat (n - 48))
  else if (97 <=? n) && (n <=? 102) then Some (Z.of_nat (n - 87))
  else if (65 <=? n) && (n <=? 70) then Some (Z.of_nat (n - 55))
  else None.

Fixpoint digits (radix : Z) (acc : option Z) (s : string) : option Z :=
  match s with
  | String c r =>
      match digitValue c with
      | Some d =>
          if (d <? radix)%Z
          then digits radix (Some (default 0%Z acc * radix + d)%Z) r
          else acc
      | None => acc
      end
  | EmptyString => acc
  end.

Definition parseUnsigned (s : string) : option Z :=
  match s with
  | String "0" (String "x" r) | String "0" (String "X" r) =>
      digits 16 None r
  | _ => digits 10 None s
  end.

(** [s.toUpperCase()] on the ASCII letters; the failure codes it is applied
    to are ASCII literals of the source. *)
Definition upperChar (c : ascii) : ascii :=
  let n := nat_of_ascii c in
  if (97 <=? n) && (n <=? 122) then ascii_of_nat (n - 32) else c.

Fixpoint toUpperCase (s : string) : string :=
  match s with
  | String c r => String (upperChar c) (toUpperCase r)
  | EmptyString => EmptyString
  end.

(** Group 2 of the match of [exec] for the pattern made of an optional
    group (the letter [p], in either case, and a slash) followed by a
    group of any number of dots: the match always succeeds at index 0, the
    optional group takes the prefix when it is there, and the dots stop at
    the first line terminator. *)
Definition execAfterPrefix (p : ascii) (s : string) : string :=
  let rest :=
    match s with
    | String c (String "/" r) =>
        if Ascii.eqb (upperChar c) (upperChar p) then r else s
    | _ => s
    end in
  takeWhile (fun c => negb (isLineTerminator c)) rest.

(** The test of [UserArgument]: one or more word characters or hyphens,
    anchored at both ends. *)
Definition testUserName (s : string) : bool :=
  negb (isEmpty s) && forallb (fun c => isWord c || (nat_of_ascii c =? 45)) s.

(** The test of [SubredditArgument]: a letter or digit, then one or more
    word characters, anchored at both ends. *)
Definition testSubredditName (s : string) : bool :=
  match s with
  | String c r => isAlnum c && negb (isEmpty r) && forallb isWord r
  | EmptyString => false
  end.

Definition parseInt (s : string) : option Z :=
  match trimStart s with
  | String "-" r => Z.opp <$> parseUnsigned r
  | String "+" r => parseUnsigned r
  | t => parseUnsigned t
  end.

End Js.

(** ** Values, argument descriptors and command records *)

(** Primitive values and references to objects whose content plays no
    role.  These are what a specification can carry as [default] and in
    [choices]. *)
Inductive prim :=
  | PUndefined
  | PNull
  | PBool (b : bool)
  | PNum (n : Z)
  | PNaN
  | PStr (s : string)
  | PObj (id : nat).

Definition primTruthy (p : prim) : bool :=
  match p with
  | PUndefined | PNull | PNaN => false
  | PBool b => b
  | PNum n => negb (n =? 0)%Z
  | PStr s => Js.truthy s
  | PObj _ => true
  end.

(** [SameValueZero] on primitives and references. *)
Definition primEq (a b : prim) : bool :=
  match a, b with
  | PUndefined, PUndefined | PNull, PNull | PNaN, PNaN => true
  | PBool x, PBool y => Bool.eqb x y
  | PNum x, PNum y => (x =? y)%Z
  | PStr x, PStr y => String.eqb x y
  | PObj x, PObj y => x =? y
  | _, _ => false
  end.

(** [-Infinity], a finite number, [Infinity]. *)
Inductive bound := NegInfinity | Finite (z : Z) | Infinity.

(** [n >= b] and [n <= b] for a finite [n]. *)
Definition geBound (n : Z) (b : bound) : bool :=
  match b with
  | NegInfinity => true
  | Finite z => (z <=? n)%Z
  | Infinity => false
  end.

Definition leBound (n : Z) (b : bound) : bool :=
  match b with
  | NegInfinity => false
  | Finite z => (n <=? z)%Z
  | Infinity => true
  end.

(** [x || fallback] for an optional number: [undefined] and [0] are falsy. *)
Definition numberOr (x : option Z) (fallback : bound) : bound :=
  match x with
  | Some z => if (z =? 0)%Z then fallback else Finite z
  | None => fallback
  end.

(** The classes of [argTypes]. *)
Inductive ArgClass :=
  | ClsArgument
  | ClsStringArgument
  | ClsUserArgument
  | ClsSubredditArgument
  | ClsCommand
  | ClsCustom
  | ClsDuration
  | ClsInteger.

(** The plain object an argument is specified by.  Functions are named by
    an identity: [as_custom] is the caller's function. *)
Record ArgumentSpec := {
  as_key : string;
  as_type : option string;
  as_default : prim;
  as_required : bool;
  as_choices : option (list prim);
  as_description : option string;
  as_minLength : option Z;
  as_maxLength : option Z;
  as_matches : option (string -> bool);
  as_min : option Z;
  as_max : option Z;
  as_allowAlias : option bool;
  as_custom : option nat;
}.

(** An instance of one of the argument classes.  A field that a class does
    not declare is never read by that class. *)
Record Argument := {
  arg_class : ArgClass;
  arg_type : string;
  arg_key : string;
  arg_default : prim;
  arg_required : bool;
  arg_choices : option (list prim);
  arg_description : option string;
  arg_min : bound;
  arg_max : bound;
  arg_matches : string -> bool;
  arg_allowAlias : bool;
  arg_custom : option nat;
}.

(** [check]: absent, one predicate, or an array of predicates. *)
Inductive Check :=
  | NoCheck
  | CheckFn (f : nat)
  | CheckArray (fs : list nat).

(** A [Command] instance.  [cmd_aliases] refers to an array of the heap. *)
Record Command := {
  cmd_id : nat;
  cmd_name : option string;
  cmd_originalName : option string;
  cmd_description : string;
  cmd_longDescription : string;
  cmd_arguments : list Argument;
  cmd_aliases : nat;
  cmd_check : Check;
  cmd_handler : option nat;
  cmd_category : option string;
  cmd_permissionless : bool;
}.

Record InvalidArgumentError := {
  err_id : nat;
  err_message : option string;
  err_code : string;
  err_sourceArg : ArgClass;
}.

(** What an argument evaluates to. *)
Inductive jsval :=
  | VPrim (p : prim)
  | VCommand (c : Command)
  | VError (e : InvalidArgumentError).

Abbreviation undefined := (VPrim PUndefined).

(** [v === undefined] *)
Definition isUndefined (v : jsval) : bool :=
  match v with VPrim PUndefined => true | _ => false end.

Definition isError (v : jsval) : bool :=
  match v with VError _ => true | _ => false end.

(** [Array.prototype.includes]: [SameValueZero], objects by identity. *)
Definition sameValueZero (v : jsval) (p : prim) : bool :=
  match v with
  | VPrim a => primEq a p
  | VCommand c => primEq (PObj (cmd_id c)) p
  | VError e => primEq (PObj (err_id e)) p
  end.

Definition includes (l : list prim) (v : jsval) : bool :=
  List.existsb (sameValueZero v) l.

(** [Error.prototype.toString] for an error whose [name] is ["Error"]. *)
Definition errorToString (e : InvalidArgumentError) : string :=
  match err_message e with
  | Some m => if Js.isEmpty m then "Error" else "Error: " ++ m
  | None => "Error"
  end.

(** The string a regular expression sees when [exec] is handed what
    [StringArgument.getValue] returned. *)
Definition execInput (v : jsval) : string :=
  match v with
  | VPrim (PStr s) => s
  | VPrim PUndefined => "undefined"
  | VPrim PNull => "null"
  | VPrim (PBool b) => if b then "true" else "false"
  | VPrim (PNum n) => pretty n
  | VPrim PNaN => "NaN"
  | VPrim (PObj _) | VCommand _ => "[object Object]"
  | VError e => errorToString e
  end.

(** ** The caller's context, the heap and the effects *)

(** The host's localization function: it receives the code and, except
    for one-argument calls, the argument, the raw token and the localized
    type name, and returns a message or [undefined]. *)
Definition Localize : Type :=
  string -> option (Argument * option string * option string) -> option string.

(** [pass]: the object handed to [parse].  [send] is an effect: the field
    tells whether the function is there, the calls are recorded in the
    trace. *)
Record Context := {
  localize : option Localize;
  send : bool;
  testPermission : option (string -> bool);
  extras : gmap string prim;
}.

(** The object assembled by [parse]: a copy of [pass] and the properties
    assigned afterwards, which shadow those of the copy. *)
Record ArgsObj := {
  passed : Context;
  assigned : gmap string jsval;
}.

(** An element of [arguments] in a specification: a plain object or an
    instance of [Argument]. *)
Inductive ArgumentInput :=
  | Plain (a : ArgumentSpec)
  | Instance (a : Argument).

(** The caller's specification object, mutated by [register]. *)
Record CommandSpec := {
  spec_name : option string;
  spec_command : option string;
  spec_originalName : option string;
  spec_description : option string;
  spec_describe : option string;
  spec_longDescription : option string;
  spec_arguments : option (list ArgumentInput);
  spec_aliases : option nat;
  spec_check : Check;
  spec_handler : option nat;
  spec_category : option string;
  spec_permissionless : bool;
}.

Inductive Event :=
  | Sent (message : option string)
  | Ran (handler : nat) (args : ArgsObj)
  | CalledCustom (fn : nat) (token : option string).

Inductive Exception :=
  | TypeError (what : string)
  | Error (message : string)
  | CommandError (message code : string).

(** The state of the process: the allocation counter that gives objects
    their identity, the arrays and specification objects of the heap, the
    module-level [cmdRegistry], and the effects observed so far (newest
    first). *)
Record World := {
  nextId : nat;
  arrays : gmap nat (list string);
  specs : gmap nat CommandSpec;
  cmdRegistry : gmap string Command;
  trace : list Event;
}.

(** Functions of the packages the parser requires ([parse-duration],
    [smart-splitter], [camelcase]) and the meaning of the predicates that
    commands name in [check].  [dur] gives [None] when the package throws. *)
Class Environment := {
  dur : string -> option prim;
  split : string -> nat -> list string;
  camelCase : string -> string;
  predicate : nat -> ArgsObj -> bool;
}.

(** *** State and exceptions *)

Inductive outcome (A : Type) :=
  | Ret (a : A)
  | Throw (e : Exception).
Arguments Ret {A} a.
Arguments Throw {A} e.

Definition M (A : Type) : Type := World -> outcome A * World.

#[global] Instance M_ret : MRet M := fun A a w => (Ret a, w).

#[global] Instance M_bind : MBind M := fun A B f m w =>
  match m w with
  | (Ret a, w') => f a w'
  | (Throw e, w') => (Throw e, w')
  end.

Definition throw {A} (e : Exception) : M A := fun w => (Throw e, w).

Definition setNextId (n : nat) (w : World) : World :=
  {| nextId := n; arrays := arrays w; specs := specs w;
     cmdRegistry := cmdRegistry w; trace := trace w |}.

Definition setArrays (a : gmap nat (list string)) (w : World) : World :=
  {| nextId := nextId w; arrays := a; specs := specs w;
     cmdRegistry := cmdRegistry w; trace := trace w |}.

Definition setSpecs (s : gmap nat CommandSpec) (w : World) : World :=
  {| nextId := nextId w; arrays := arrays w; specs := s;
     cmdRegistry := cmdRegistry w; trace := trace w |}.

Definition setRegistry (r : gmap string Command) (w : World) : World :=
  {| nextId := nextId w; arrays := arrays w; specs := specs w;
     cmdRegistry := r; trace := trace w |}.

Definition setTrace (t : list Event) (w : World) : World :=
  {| nextId := nextId w; arrays := arrays w; specs := specs w;
     cmdRegistry := cmdRegistry w; trace := t |}.

(** A fresh object identity. *)
Definition alloc : M nat := fun w => (Ret (nextId w), setNextId (S (nextId w)) w).

(** A fresh array. *)
Definition allocArray (l : list string) : M nat := fun w =>
  (Ret (nextId w), setArrays (<[nextId w := l]> (arrays w)) (setNextId (S (nextId w)) w)).

Definition emit (e : Event) : M unit := fun w => (Ret tt, setTrace (e :: trace w) w).

(** Heap accesses.  Reading through a reference that is not in the heap
    is reading a property of [undefined]. *)
Definition readSpec (l : nat) : M CommandSpec := fun w =>
  match specs w !! l with
  | Some s => (Ret s, w)
  | None => (Throw (TypeError "command specification is undefined"), w)
  end.

Definition modifySpec (l : nat) (f : CommandSpec -> CommandSpec) : M unit := fun w =>
  match specs w !! l with
  | Some s => (Ret tt, setSpecs (<[l := f s]> (specs w)) w)
  | None => (Throw (TypeError "command specification is undefined"), w)
  end.

Definition readArray (l : nat) : M (list string) := fun w =>
  match arrays w !! l with
  | Some a => (Ret a, w)
  | None => (Throw (TypeError "array is undefined"), w)
  end.

(** [array.push(x)] *)
Definition push (l : nat) (x : string) : M unit := fun w =>
  match arrays w !! l with
  | Some a => (Ret tt, setArrays (<[l := (a ++ [x])%list]> (arrays w)) w)
  | None => (Throw (TypeError "array is undefined"), w)
  end.

Definition getRegistry : M (gmap string Command) := fun w => (Ret (cmdRegistry w), w).

Definition modifyRegistry (f : gmap string Command -> gmap string Command) : M unit :=
  fun w => (Ret tt, setRegistry (f (cmdRegistry w)) w).

Definition withName (n : option string) (s : CommandSpec) : CommandSpec :=
  {| spec_name := n; spec_command := spec_command s;
     spec_originalName := spec_originalName s;
     spec_description := spec_description s; spec_describe := spec_describe s;
     spec_longDescription := spec_longDescription s;
     spec_arguments := spec_arguments s; spec_aliases := spec_aliases s;
     spec_check := spec_check s; spec_handler := spec_handler s;
     spec_category := spec_category s;
     spec_permissionless := spec_permissionless s |}.

Definition withOriginalName (n : option string) (s : CommandSpec) : CommandSpec :=
  {| spec_name := spec_name s; spec_command := spec_command s;
     spec_originalName := n;
     spec_description := spec_description s; spec_describe := spec_describe s;
     spec_longDescription := spec_longDescription s;
     spec_arguments := spec_arguments s; spec_aliases := spec_aliases s;
     spec_check := spec_check s; spec_handler := spec_handler s;
     spec_category := spec_category s;
     spec_permissionless := spec_permissionless s |}.

Definition withAliases (a : option nat) (s : CommandSpec) : CommandSpec :=
  {| spec_name := spec_name s; spec_command := spec_command s;
     spec_originalName := spec_originalName s;
     spec_description := spec_description s; spec_describe := spec_describe s;
     spec_longDescription := spec_longDescription s;
     spec_arguments := spec_arguments s; spec_aliases := a;
     spec_check := spec_check s; spec_handler := spec_handler s;
     spec_category := spec_category s;
     spec_permissionless := spec_permissionless s |}.

(** What [argument.get] returns: [value] is [undefined] on failure. *)
Record GetResult := {
  success : bool;
  value : jsval;
}.

(** [argsObj[key] = v] *)
Definition assign (key : string) (v : jsval) (o : ArgsObj) : ArgsObj :=
  {| passed := passed o; assigned := <[key := v]> (assigned o) |}.

(** ** The single-file parser *)

Module Legacy.
Section WithEnvironment.
Context `{Environment}.

(** [defaulter(val, defaultTo)]: a falsy default is no default. *)
Definition defaulter (val : jsval) (defaultTo : prim) : jsval :=
  if negb (primTruthy defaultTo) then val
  else
    match val with
    | VPrim PUndefined | VError _ => VPrim defaultTo
    | _ => val
    end.

(** [new InvalidArgumentError(sourceArg, args, localizationCode, argument, value)] *)
Definition newInvalidArgumentError (sourceArg : ArgClass) (args : Context)
    (localizationCode : string) (argument : Argument) (value : option string)
    : M InvalidArgumentError :=
  id ← alloc;
  match localize args with
  | None => throw (TypeError "args.localize is not a function")
  | Some localize =>
      let typeName := localize ("argument_type_" ++ arg_type argument) None in
      let localized := localize localizationCode (Some (argument, value, typeName)) in
      let message :=
        match localized with
        | Some m =>
            if Js.truthy m then localized
            else localize "argument_invalid" (Some (argument, value, typeName))
        | None => localize "argument_invalid" (Some (argument, value, typeName))
        end in
      mret {| err_id := id; err_message := message;
              err_code := Js.toUpperCase localizationCode;
              err_sourceArg := sourceArg |}
  end.

(** [return new InvalidArgumentError(this.constructor, args, code, this, value)] *)
Definition invalid (this : Argument) (args : Context) (code : string)
    (value : option string) : M jsval :=
  e ← newInvalidArgumentError (arg_class this) args code this value;
  mret (VError e).

(** *** Constructors *)

(** [new Argument(argument)], the class behind [argTypes.generic]. *)
Definition newArgument (argument : ArgumentSpec) : Argument :=
  {| arg_class := ClsArgument;
     arg_type := "generic";
     arg_key := as_key argument;
     arg_default := as_default argument;
     arg_required := as_required argument || false;
     arg_choices := as_choices argument;
     arg_description := as_description argument;
     arg_min := NegInfinity;
     arg_max := Infinity;
     arg_matches := fun _ => true;
     arg_allowAlias := false;
     arg_custom := None |}.

(** [new StringArgument(argument)]: a length of 0 or none falls back to
    the default bound; no pattern matches everything. *)
Definition newStringArgument (argument : ArgumentSpec) : Argument :=
  let super := newArgument argument in
  {| arg_class := ClsStringArgument;
     arg_type := "string";
     arg_key := arg_key super;
     arg_default := arg_default super;
     arg_required := arg_required super;
     arg_choices := arg_choices super;
     arg_description := arg_description super;
     arg_min := numberOr (as_minLength argument) (Finite 0);
     arg_max := numberOr (as_maxLength argument) Infinity;
     arg_matches := default (fun _ => true) (as_matches argument);
     arg_allowAlias := arg_allowAlias super;
     arg_custom := arg_custom super |}.

(** A subclass whose constructor only calls [super]. *)
Definition withClass (c : ArgClass) (a : Argument) : Argument :=
  {| arg_class := c; arg_type := arg_type a; arg_key := arg_key a;
     arg_default := arg_default a; arg_required := arg_required a;
     arg_choices := arg_choices a; arg_description := arg_description a;
     arg_min := arg_min a; arg_max := arg_max a; arg_matches := arg_matches a;
     arg_allowAlias := arg_allowAlias a; arg_custom := arg_custom a |}.

Definition newUserArgument (argument : ArgumentSpec) : Argument :=
  withClass ClsUserArgument (newStringArgument argument).

Definition newSubredditArgument (argument : ArgumentSpec) : Argument :=
  withClass ClsSubredditArgument (newStringArgument argument).

(** [new argTypes.command(argument)]: [allowAlias] is
    [argument.allowAlias || true]. *)
Definition newCommandArgument (argument : ArgumentSpec) : Argument :=
  let super := newArgument argument in
  {| arg_class := ClsCommand;
     arg_type := "command";
     arg_key := arg_key super;
     arg_default := arg_default super;
     arg_required := arg_required super;
     arg_choices := arg_choices super;
     arg_description := arg_description super;
     arg_min := arg_min super;
     arg_max := arg_max super;
     arg_matches := arg_matches super;
     arg_allowAlias := default false (as_allowAlias argument) || true;
     arg_custom := arg_custom super |}.

Definition newCustomArgument (argument : ArgumentSpec) : Argument :=
  let super := newArgument argument in
  {| arg_class := ClsCustom;
     arg_type := "custom";
     arg_key := arg_key super;
     arg_default := arg_default super;
     arg_required := arg_required super;
     arg_choices := arg_choices super;
     arg_description := arg_description super;
     arg_min := arg_min super;
     arg_max := arg_max super;
     arg_matches := arg_matches super;
     arg_allowAlias := arg_allowAlias super;
     arg_custom := as_custom argument |}.

Definition newDurationArgument (argument : ArgumentSpec) : Argument :=
  let super := newArgument argument in
  {| arg_class := ClsDuration;
     arg_type := "duration";
     arg_key := arg_key super;
     arg_default := arg_default super;
     arg_required := arg_required super;
     arg_choices := arg_choices super;
     arg_description := arg_description super;
     arg_min := arg_min super;
     arg_max := arg_max super;
     arg_matches := arg_matches super;
     arg_allowAlias := arg_allowAlias super;
     arg_custom := arg_custom super |}.

(** [new argTypes.integer(argument)]: a bound of 0 or none falls back to
    the infinite one. *)
Definition newIntegerArgument (argument : ArgumentSpec) : Argument :=
  let super := newArgument argument in
  {| arg_class := ClsInteger;
     arg_type := "integer";
     arg_key := arg_key super;
     arg_default := arg_default super;
     arg_required := arg_required super;
     arg_choices := arg_choices super;
     arg_description := arg_description super;
     arg_min := numberOr (as_min argument) NegInfinity;
     arg_max := numberOr (as_max argument) Infinity;
     arg_matches := arg_matches super;
     arg_allowAlias := arg_allowAlias super;
     arg_custom := arg_custom super |}.

(** [argTypes[type]] *)
Definition argTypes (type : string) : option (ArgumentSpec -> Argument) :=
  if String.eqb type "command" then Some newCommandArgument
  else if String.eqb type "custom" then Some newCustomArgument
  else if String.eqb type "duration" then Some newDurationArgument
  else if String.eqb type "generic" then Some newArgument
  else if String.eqb type "integer" then Some newIntegerArgument
  else if String.eqb type "string" then Some newStringArgument
  else if String.eqb type "subreddit" then Some newSubredditArgument
  else if String.eqb type "user" then Some newUserArgument
  else None.

(** *** [getValue], class by class *)

Definition Argument_getValue (value : option string) : M jsval :=
  mret (from_option (fun s => VPrim (PStr s)) undefined value).

Definition StringArgument_getValue (this : Argument) (value : option string)
    (args : Context) : M jsval :=
  match value with
  | None => mret undefined
  | Some str =>
      if negb (arg_matches this str) then
        invalid this args "string_argument_regexp_fail" value
      else if geBound (Z.of_nat (String.length str)) (arg_max this) then
        invalid this args "string_argument_too_long" value
      else if leBound (Z.of_nat (String.length str)) (arg_min this) then
        invalid this args "string_argument_too_short" value
      else mret (VPrim (PStr str))
  end.

Definition UserArgument_getValue (this : Argument) (value : option string)
    (args : Context) : M jsval :=
  string ← StringArgument_getValue this value args;
  let noU := Js.execAfterPrefix "u" (execInput string) in
  if Js.testUserName noU then
    if String.length noU <? 3 then
      invalid this args "user_argument_too_short" value
    else if 20 <? String.length noU then
      invalid this args "user_argument_too_long" value
    else mret (VPrim (PStr noU))
  else invalid this args "user_argument_invalid" value.

Definition SubredditArgument_getValue (this : Argument) (value : option string)
    (args : Context) : M jsval :=
  string ← StringArgument_getValue this value args;
  let noR := Js.execAfterPrefix "r" (execInput string) in
  if Js.testSubredditName noR then
    if String.length noR <? 3 then
      invalid this args "subreddit_argument_too_short" value
    else if 20 <? String.length noR then
      invalid this args "subreddit_argument_too_long" value
    else mret (VPrim (PStr noR))
  else invalid this args "subreddit_argument_invalid" value.

Definition command_getValue (this : Argument) (value : option string)
    (args : Context) : M jsval :=
  match value with
  | None => mret undefined
  | Some key =>
      registry ← getRegistry;
      match registry !! key with
      | Some cmd =>
          if negb (arg_allowAlias this)
             && negb (bool_decide (cmd_name cmd = cmd_originalName cmd))
          then invalid this args "command_argument_not_original" value
          else mret (VCommand cmd)
      | None => invalid this args "command_argument_nonexistent" value
      end
  end.

(** The body calls [this.custom] and returns nothing. *)
Definition custom_getValue (this : Argument) (value : option string)
    : M jsval :=
  match arg_custom this with
  | Some f => emit (CalledCustom f value);; mret undefined
  | None => throw (TypeError "this.custom is not a function")
  end.

Definition duration_getValue (this : Argument) (value : option string)
    (args : Context) : M jsval :=
  match value with
  | None => mret undefined
  | Some v =>
      match dur v with
      | Some d => mret (VPrim d)
      | None => invalid this args "duration_argument_invalid" value
      end
  end.

Definition integer_getValue (this : Argument) (value : option string)
    (args : Context) : M jsval :=
  match value with
  | None => mret undefined
  | Some v =>
      match Js.parseInt v with
      | None => invalid this args "integer_argument_invalid" value
      | Some int =>
          if geBound int (arg_max this) then
            invalid this args "integer_argument_too_high" value
          else if leBound int (arg_min this) then
            invalid this args "integer_argument_too_low" value
          else mret (VPrim (PNum int))
      end
  end.

(** [this.getValue(value, args)]: dispatch on the class of [this]. *)
Definition getValue (this : Argument) (value : option string) (args : Context)
    : M jsval :=
  match arg_class this with
  | ClsArgument => Argument_getValue value
  | ClsStringArgument => StringArgument_getValue this value args
  | ClsUserArgument => UserArgument_getValue this value args
  | ClsSubredditArgument => SubredditArgument_getValue this value args
  | ClsCommand => command_getValue this value args
  | ClsCustom => custom_getValue this value
  | ClsDuration => duration_getValue this value args
  | ClsInteger => integer_getValue this value args
  end.

Definition getWithDefault (this : Argument) (value : option string)
    (args : Context) : M jsval :=
  val ← getValue this value args;
  if arg_required this && isUndefined val then
    invalid this args "argument_required" value
  else
    let defaulted := defaulter val (arg_default this) in
    match arg_choices this with
    | Some choices =>
        if includes choices defaulted then mret defaulted
        else invalid this args "argument_unavailable_choice" value
    | None => mret defaulted
    end.

Definition get (this : Argument) (value : option string) (args : Context)
    : M GetResult :=
  val ← getWithDefault this value args;
  match val with
  | VError e =>
      if send args then
        emit (Sent (err_message e));;
        mret {| success := false; value := undefined |}
      else throw (TypeError "args.send is not a function")
  | _ => mret {| success := true; value := val |}
  end.

(** *** [Command] *)

Definition findName (obj : CommandSpec) : option string :=
  Js.or (spec_name obj) (spec_command obj).

(** The callback of [command.arguments.map] in the constructor. *)
Definition toArgument (arg : ArgumentInput) : Argument :=
  match arg with
  | Instance a => a
  | Plain a =>
      match as_type a ≫= argTypes with
      | Some construct => construct a
      | None => newStringArgument a
      end
  end.

(** [new Command(command)].  The class declares neither [category] nor
    [permissionless]: reading them from an instance gives [undefined]. *)
Definition newCommand (command : CommandSpec) : M Command :=
  id ← alloc;
  let name := findName command in
  let originalName := Js.or (spec_originalName command) name in
  let description :=
    default "" (Js.or (Js.or (spec_description command) (spec_describe command)) (Some "")) in
  let longDescription :=
    default "" (Js.or (Js.or (spec_longDescription command) (Some description)) (Some "")) in
  let arguments :=
    match spec_arguments command with
    | Some l => toArgument <$> l
    | None => []
    end in
  aliases ← match spec_aliases command with
            | Some a => mret a
            | None => allocArray []
            end;
  mret {| cmd_id := id; cmd_name := name; cmd_originalName := originalName;
          cmd_description := description;
          cmd_longDescription := longDescription;
          cmd_arguments := arguments; cmd_aliases := aliases;
          cmd_check := spec_check command;
          cmd_handler := spec_handler command;
          cmd_category := None; cmd_permissionless := false |}.

(** [this.run(args)] *)
Definition run (this : Command) (args : ArgsObj) : M unit :=
  match cmd_handler this with
  | Some handler => emit (Ran handler args)
  | None => mret tt
  end.

(** *** [register] *)

(** [array.forEach(callback)]: the length is read once, the elements as
    the loop reaches them. *)
Fixpoint forEachFrom (array : nat) (k n : nat) (callback : string -> M unit)
    : M unit :=
  match n with
  | 0 => mret tt
  | S n' =>
      elements ← readArray array;
      match elements !! k with
      | Some x => callback x
      | None => mret tt
      end;;
      forEachFrom array (S k) n' callback
  end.

Definition forEach (array : nat) (callback : string -> M unit) : M unit :=
  elements ← readArray array;
  forEachFrom array 0 (length elements) callback.

(** The callback of [alias.forEach] in [register], given how a
    specification is made into a [Command]. *)
Definition registerAlias (resolve : CommandSpec -> M Command)
    (cmd : nat) (name : string) (alias : nat) (aname : string) : M unit :=
  modifySpec cmd (withName (Some aname));;
  modifySpec cmd (withOriginalName (Some name));;
  elements ← readArray alias;
  filtered ← allocArray (filter (fun name2 => name2 ≠ aname) elements);
  modifySpec cmd (withAliases (Some filtered));;
  spec ← readSpec cmd;
  cmdFixed ← resolve spec;
  modifyRegistry (insert aname cmdFixed).

(** [register(cmd)], [cmd] being a reference to the caller's object.  An
    object always passes the [typeof] test, and is always copied into a new
    [Command]. *)
Definition register (cmd : nat) : M (gmap string Command) :=
  spec ← readSpec cmd;
  match findName spec with
  | None => throw (Error "A command must have a name.")
  | Some name =>
      if negb (Js.truthy name) then throw (Error "A command must have a name.")
      else
        alias ← match spec_aliases spec with
                | Some a => mret a
                | None => allocArray []
                end;
        push alias name;;
        forEach alias (registerAlias newCommand cmd name alias);;
        getRegistry
  end.

(** *** [parse] *)

(** [cmd.match(re)] for the global pattern of [parse]: one or more of
    either a run of characters that are neither white space nor a double
    quote, or a double-quoted span.  [scan] walks the string once: [cur] is
    the match under construction, [inQuote] tells that a quoted span is
    open; a double quote opens a span only when a closing one follows, and
    otherwise ends the match before it and is skipped. *)
Definition flush (cur : option string) : list string :=
  match cur with
  | Some t => [t]
  | None => []
  end.

Definition extend (cur : option string) (c : ascii) : option string :=
  Some (default "" cur ++ String c "").

Fixpoint scan (s : string) (cur : option string) (inQuote : bool)
    : list string :=
  match s with
  | String c r =>
      if inQuote then scan r (extend cur c) (negb (Js.isQuote c))
      else if Js.isQuote c then
        if Js.existsb Js.isQuote r then scan r (extend cur c) true
        else (flush cur ++ scan r None false)%list
      else if Js.isSpace c then (flush cur ++ scan r None false)%list
      else scan r (extend cur c) false
  | EmptyString => flush cur
  end.

(** [null] when nothing matches, the array of matches otherwise. *)
Definition matchParts (cmd : string) : option (list string) :=
  match scan cmd None false with
  | [] => None
  | parts => Some parts
  end.

(** The callback of [cmdSource.arguments.forEach], folded over the
    arguments from [index] on; the pair is [argsObj] and [success]. *)
Fixpoint validate (arguments : list Argument) (index : nat)
    (args : list string) (pass : Context) (acc : ArgsObj * bool)
    : M (ArgsObj * bool) :=
  match arguments with
  | argument :: rest =>
      got ← get argument (args !! index) pass;
      let argsObj := assign (arg_key argument) (value got) acc.1 in
      let ok := if negb (success got) then false else acc.2 in
      validate rest (S index) args pass (argsObj, ok)
  | [] => mret acc
  end.

(** The three-way test on [cmdSource.check] around [cmdSource.run]. *)
Definition checkAndRun (cmdSource : Command) (argsObj : ArgsObj) : M unit :=
  match cmd_check cmdSource with
  | CheckArray checks =>
      if List.forallb (fun check => predicate check argsObj) checks
      then run cmdSource argsObj else mret tt
  | CheckFn check =>
      if predicate check argsObj then run cmdSource argsObj else mret tt
  | NoCheck => run cmdSource argsObj
  end.

(** [parse(command, pass)]; [None] is [undefined]. *)
Definition parse (command : string) (pass : Context) : M (option ArgsObj) :=
  let cmd := Js.trim command in
  match matchParts cmd with
  | None => throw (TypeError "Cannot read property 'length' of null")
  | Some parts =>
      if 0 <? length parts then
        registry ← getRegistry;
        match head parts ≫= (registry !!.) with
        | Some cmdSource =>
            let args := tail parts in
            let argsObj := {| passed := pass; assigned := ∅ |} in
            '(argsObj, ok) ← validate (cmd_arguments cmdSource) 0 args pass (argsObj, true);
            if ok : bool then
              checkAndRun cmdSource argsObj;;
              mret (Some argsObj)
            else mret None
        | None => mret None
        end
      else mret None
  end.

End WithEnvironment.
End Legacy.

(** ** The split-up parser *)

Module Parser.
Section WithEnvironment.
Context `{Environment}.

(** Modelled from the spec: [util/resolve-command.js] and [command.js] are
    not among the sources.  A specification becomes a Command Record as in
    the constructor of the single-file parser; the record also carries
    [category] and [permissionless], which the spec lists among its
    attributes and which [parse] reads. *)
Definition resolveCommand (cmd : CommandSpec) : M Command :=
  c ← Legacy.newCommand cmd;
  mret {| cmd_id := cmd_id c; cmd_name := cmd_name c;
          cmd_originalName := cmd_originalName c;
          cmd_description := cmd_description c;
          cmd_longDescription := cmd_longDescription c;
          cmd_arguments := cmd_arguments c; cmd_aliases := cmd_aliases c;
          cmd_check := cmd_check c; cmd_handler := cmd_handler c;
          cmd_category := spec_category cmd;
          cmd_permissionless := spec_permissionless cmd |}.

Definition registerSingle (cmd : nat) : M (gmap string Command) :=
  spec ← readSpec cmd;
  match Js.or (spec_name spec) (spec_command spec) with
  | None => throw (CommandError "Commands must have names." "MISSING_COMMAND_NAME")
  | Some name =>
      if negb (Js.truthy name) then
        throw (CommandError "Commands must have names." "MISSING_COMMAND_NAME")
      else
        alias ← match spec_aliases spec with
                | Some a => mret a
                | None => allocArray []
                end;
        push alias name;;
        Legacy.forEach alias (Legacy.registerAlias resolveCommand cmd name alias);;
        getRegistry
  end.

(** [cmdOrCmds.forEach(registerSingle)] *)
Fixpoint registerEach (cmds : list nat) : M unit :=
  match cmds with
  | cmd :: rest => registerSingle cmd;; registerEach rest
  | [] => mret tt
  end.

(** [register(cmdOrCmds)]: an array ([inr]) or a single command ([inl]). *)
Definition register (cmdOrCmds : nat + list nat) : M (gmap string Command) :=
  match cmdOrCmds with
  | inr cmds => registerEach cmds;; getRegistry
  | inl cmd => registerSingle cmd
  end.

(** The permission gate of [parse]; the result is the value of [success]
    after it. *)
Definition permissionGate (cmdSource : Command) (argsObj : ArgsObj) : M bool :=
  match testPermission (passed argsObj) with
  | Some test =>
      if negb (cmd_permissionless cmdSource) then
        let cmdPerm :=
          "commands."
          ++ match cmd_category cmdSource with
             | Some category => if Js.truthy category then category ++ "." else ""
             | None => ""
             end
          ++ from_option id "undefined" (cmd_originalName cmdSource) in
        if negb (test cmdPerm) then
          match localize (passed argsObj) with
          | Some localize =>
              if send (passed argsObj)
              then emit (Sent (localize "no_permission" None));; mret false
              else mret false
          | None => mret false
          end
        else mret true
      else mret true
  | None => mret true
  end.

(** The callback of [cmdSource.arguments.forEach]: the value is filed under
    the camel-cased key and under the key itself. *)
Fixpoint validate (arguments : list Argument) (index : nat)
    (args : list string) (pass : Context) (acc : ArgsObj * bool)
    : M (ArgsObj * bool) :=
  match arguments with
  | argument :: rest =>
      got ← Legacy.get argument (args !! index) pass;
      let argsObj :=
        assign (arg_key argument) (value got)
          (assign (camelCase (arg_key argument)) (value got) acc.1) in
      let ok := if negb (success got) then false else acc.2 in
      validate rest (S index) args pass (argsObj, ok)
  | [] => mret acc
  end.

(** [parse(command, pass)]; [None] is [undefined]. *)
Definition parse (command : string) (pass : Context) : M (option ArgsObj) :=
  let cmd := Js.trim command in
  let firstSpace :=
    match Js.indexOfSpace cmd with
    | Some i => i
    | None => String.length cmd
    end in
  let cmdStr := Js.take firstSpace cmd in
  if Js.truthy cmdStr then
    registry ← getRegistry;
    match registry !! cmdStr with
    | Some cmdSource =>
        let args := split (Js.drop (firstSpace + 1) cmd) (length (cmd_arguments cmdSource)) in
        let argsObj := {| passed := pass; assigned := ∅ |} in
        permitted ← permissionGate cmdSource argsObj;
        '(argsObj, ok) ← validate (cmd_arguments cmdSource) 0 args pass (argsObj, permitted);
        if ok : bool then
          Legacy.checkAndRun cmdSource argsObj;;
          mret (Some argsObj)
        else mret None
    | None => mret None
    end
  else mret None.

(** [clear()] *)
Definition clear : M unit := modifyRegistry (fun _ => ∅).

(** [deregister(name, includeAlternatives)] *)
Definition deregister (name : string) (includeAlternatives : bool)
    : M (gmap string Command) :=
  (if includeAlternatives then
     modifyRegistry (filter (fun entry => cmd_originalName entry.2 ≠ Some name))
   else
     modifyRegistry (filter (fun entry => cmd_name entry.2 ≠ Some name)));;
  getRegistry.

Definition getCommandRegistry : M (gmap string Command) := getRegistry.

End WithEnvironment.
End Parser.

(** ** Definitions for the statements and their proofs *)

(** The message an [InvalidArgumentError] is given, and the error allocated
    at [id]: what [new InvalidArgumentError] computes when [localize] is
    there. *)
Definition messageFor (localize : Localize) (code : string) (this : Argument)
    (value : option string) : option string :=
  let typeName := localize ("argument_type_" ++ arg_type this) None in
  match localize code (Some (this, value, typeName)) with
  | Some m =>
      if Js.truthy m then Some m
      else localize "argument_invalid" (Some (this, value, typeName))
  | None => localize "argument_invalid" (Some (this, value, typeName))
  end.

Definition errorAt (id : nat) (localize : Localize) (code : string)
    (this : Argument) (value : option string) : InvalidArgumentError :=
  {| err_id := id; err_message := messageFor localize code this value;
     err_code := Js.toUpperCase code; err_sourceArg := arg_class this |}.

(** The specification object after one round of the loop of [register]:
    the three assignments to [cmd]. *)
Definition specAfter (s : CommandSpec) (aname name : string) (aliases : nat) : CommandSpec :=
  withAliases (Some aliases) (withOriginalName (Some name) (withName (Some aname) s)).

(** The record [new Command(command)] builds at identity [id] when
    [command.aliases] is the array [aliases]; [gatedCommand] is what
    [Parser.resolveCommand] makes of it. *)
Definition builtCommand (command : CommandSpec) (id aliases : nat) : Command :=
  {| cmd_id := id;
     cmd_name := Legacy.findName command;
     cmd_originalName := Js.or (spec_originalName command) (Legacy.findName command);
     cmd_description :=
       default "" (Js.or (Js.or (spec_description command) (spec_describe command)) (Some ""));
     cmd_longDescription :=
       default "" (Js.or (Js.or (spec_longDescription command)
         (Some (default ""
                  (Js.or (Js.or (spec_description command) (spec_describe command))
                     (Some "")))))
         (Some ""));
     cmd_arguments :=
       match spec_arguments command with
       | Some l => Legacy.toArgument <$> l
       | None => []
       end;
     cmd_aliases := aliases;
     cmd_check := spec_check command;
     cmd_handler := spec_handler command;
     cmd_category := None; cmd_permissionless := false |}.

Definition gatedCommand (command : CommandSpec) (id aliases : nat) : Command :=
  let c := builtCommand command id aliases in
  {| cmd_id := cmd_id c; cmd_name := cmd_name c;
     cmd_originalName := cmd_originalName c;
     cmd_description := cmd_description c;
     cmd_longDescription := cmd_longDescription c;
     cmd_arguments := cmd_arguments c; cmd_aliases := cmd_aliases c;
     cmd_check := cmd_check c; cmd_handler := cmd_handler c;
     cmd_category := spec_category command;
     cmd_permissionless := spec_permissionless command |}.

(** The world after one round of the loop of [register] for the alias
    [aname]: the filtered array and the record are allocated, the
    specification is rewritten and the record is filed. *)
Definition fileAlias (mk : CommandSpec -> nat -> nat -> Command) (cmd : nat)
    (name : string) (s0 : CommandSpec) (elements : list string)
    (w : World) (aname : string) : World :=
  let n := nextId w in
  let s := specAfter s0 aname name n in
  {| nextId := S (S n);
     arrays := <[n := filter (fun name2 => name2 ≠ aname) elements]> (arrays w);
     specs := <[cmd := s]> (specs w);
     cmdRegistry := <[aname := mk s (S n) n]> (cmdRegistry w);
     trace := trace w |}.

(** [resolve] allocates the record [mk] describes. *)
Definition builds (resolve : CommandSpec -> M Command)
    (mk : CommandSpec -> nat -> nat -> Command) : Prop :=
  forall s a w, spec_aliases s = Some a ->
    resolve s w = (Ret (mk s (nextId w) a), setNextId (S (nextId w)) w).

(** Two specifications that differ at most in the fields the loop
    assigns. *)
Definition sameRest (s s0 : CommandSpec) : Prop :=
  forall aname name n, specAfter s aname name n = specAfter s0 aname name n.

(** [mk] names its records as the constructor of [Command] does. *)
Definition namesAsCommand (mk : CommandSpec -> nat -> nat -> Command) : Prop :=
  forall s i a,
    cmd_id (mk s i a) = i
    /\ cmd_name (mk s i a) = Legacy.findName s
    /\ cmd_originalName (mk s i a)
        = Js.or (spec_originalName s) (Legacy.findName s)
    /\ cmd_aliases (mk s i a) = a.

(** The aliases a specification declares: the content of its array, or
    none when the field is absent; the reference [register] iterates on
    (the caller's array or a new one); the world after [alias.push(name)];
    and the world when [register] returns. *)
Definition declaredAliases (w : World) (spec : CommandSpec) : option (list string) :=
  match spec_aliases spec with
  | Some a => arrays w !! a
  | None => Some []
  end.

Definition aliasRef (w : World) (spec : CommandSpec) : nat :=
  match spec_aliases spec with
  | Some a => a
  | None => nextId w
  end.

Definition pushed (w : World) (spec : CommandSpec) (name : string)
    (declared : list string) : World :=
  match spec_aliases spec with
  | Some a => setArrays (<[a := (declared ++ [name])%list]> (arrays w)) w
  | None =>
      setArrays (<[nextId w := [name]]> (arrays w)) (setNextId (S (nextId w)) w)
  end.

Definition registered (mk : CommandSpec -> nat -> nat -> Command) (cmd : nat)
    (name : string) (spec : CommandSpec) (declared : list string) (w : World)
    : World :=
  foldl (fileAlias mk cmd name spec (declared ++ [name])%list)
    (pushed w spec name declared) (declared ++ [name])%list.

(** Arrays were allocated below the counter. *)
Definition heapFresh (w : World) : Prop :=
  forall a, is_Some (arrays w !! a) -> a < nextId w.

(** The body [Legacy.register] and [Parser.registerSingle] share, given how
    a record is built and what is thrown for a missing name. *)
Definition registerWith (resolve : CommandSpec -> M Command) (noName : Exception)
    (cmd : nat) : M (gmap string Command) :=
  spec ← readSpec cmd;
  match Js.or (spec_name spec) (spec_command spec) with
  | None => throw noName
  | Some name =>
      if negb (Js.truthy name) then throw noName
      else
        alias ← match spec_aliases spec with
                | Some a => mret a
                | None => allocArray []
                end;
        push alias name;;
        Legacy.forEach alias (Legacy.registerAlias resolve cmd name alias);;
        getRegistry
  end.

(** Every key of the registry yields a record named by that key. *)
Definition registryNamed (registry : gmap string Command) : Prop :=
  forall key c, registry !! key = Some c -> cmd_name c = Some key.

(** A heap of valid specifications: arrays were allocated below the
    counter and hold no empty string, and every specification has a name
    and an [aliases] field that is absent or refers to an array. *)
Definition heapValid (w : World) : Prop :=
  heapFresh w
  /\ (forall a arr, arrays w !! a = Some arr -> Forall (fun x => x ≠ "") arr)
  /\ (forall c s, specs w !! c = Some s ->
        (exists name, Legacy.findName s = Some name /\ Js.truthy name = true)
        /\ (forall a, spec_aliases s = Some a -> is_Some (arrays w !! a))).

(** What one call of [register] leaves behind. *)
Definition filedUnder (name : string) (declared : list string) (w' : World) : Prop :=
  forall key, key ∈ name :: declared ->
    exists c, cmdRegistry w' !! key = Some c
      /\ cmd_name c = Some key
      /\ cmd_originalName c = Some name.


(** The command token and the argument tokens of [Parser.parse]. *)
Definition firstSpace (command : string) : nat :=
  match Js.indexOfSpace (Js.trim command) with
  | Some i => i
  | None => String.length (Js.trim command)
  end.

Definition commandToken (command : string) : string :=
  Js.take (firstSpace command) (Js.trim command).

Definition argumentTokens `{Environment} (command : string) (cmdSource : Command)
    : list string :=
  split (Js.drop (firstSpace command + 1) (Js.trim command))
    (length (cmd_arguments cmdSource)).

(** The permission gate lets the command through. *)
Definition permitted (pass : Context) (cmdSource : Command) : bool :=
  match testPermission pass with
  | Some test =>
      if negb (cmd_permissionless cmdSource) then
        test ("commands."
              ++ match cmd_category cmdSource with
                 | Some category =>
                     if Js.truthy category then category ++ "." else ""
                 | None => ""
                 end
              ++ from_option id "undefined" (cmd_originalName cmdSource))
      else true
  | None => true
  end.

(** [argument.get] succeeds on the token. *)
Definition accepts `{Environment} (w : World) (argument : Argument)
    (token : option string) (pass : Context) : bool :=
  match (Legacy.get argument token pass w).1 with
  | Ret got => success got
  | Throw _ => false
  end.

(** Every argument from [index] on accepts the token at its position. *)
Fixpoint allAccepted `{Environment} (w : World) (arguments : list Argument)
    (index : nat) (args : list string) (pass : Context) : bool :=
  match arguments with
  | argument :: rest =>
      accepts w argument (args !! index) pass
      && allAccepted w rest (S index) args pass
  | [] => true
  end.

(** A value up to the identity of an error. *)
Definition eraseId (v : jsval) : jsval :=
  match v with
  | VError e =>
      VError {| err_id := 0; err_message := err_message e;
                err_code := err_code e; err_sourceArg := err_sourceArg e |}
  | _ => v
  end.

Definition eraseOutcome (o : outcome jsval) : outcome jsval :=
  match o with
  | Ret v => Ret (eraseId v)
  | Throw e => Throw e
  end.

(** Whether an outcome is a value, a failure, or an exception. *)
Definition verdict (o : outcome jsval) : option bool :=
  match o with
  | Ret v => Some (negb (isError v))
  | Throw _ => None
  end.

(** The three properties of computations the proofs compose: an error
    that is returned was allocated by the call ([fresh]); the outcome
    depends on the world only through the registry, up to the identity of
    an error ([stable]), and the registry is left as it was
    ([keepsRegistry]); the computation returns ([total]). *)
Definition fresh (pass : Context) (m : M jsval) : Prop :=
  forall w v w', m w = (Ret v, w') ->
    nextId w <= nextId w'
    /\ forall e, v = VError e -> is_Some (localize pass) /\ nextId w <= err_id e.

Definition stable (m : M jsval) : Prop :=
  forall w w', cmdRegistry w = cmdRegistry w' ->
    eraseOutcome (m w).1 = eraseOutcome (m w').1.

Definition keepsRegistry {A} (m : M A) : Prop :=
  forall w, cmdRegistry (m w).2 = cmdRegistry w.

Definition total {A} (m : M A) : Prop :=
  forall w, exists a w', m w = (Ret a, w').

(** The number of handler invocations in a trace, and the computations
    that add none. *)
Fixpoint handlerCalls (t : list Event) : nat :=
  match t with
  | Ran _ _ :: rest => S (handlerCalls rest)
  | _ :: rest => handlerCalls rest
  | [] => 0
  end.

Definition silent {A} (m : M A) : Prop :=
  forall w, handlerCalls (trace (m w).2) = handlerCalls (trace w).

(** The predicates of [check] accept the assembled object, and the number
    of handler invocations [cmdSource.run] then makes. *)
Definition checksAccept `{Environment} (cmdSource : Command) (argsObj : ArgsObj)
    : bool :=
  match cmd_check cmdSource with
  | CheckArray checks =>
      List.forallb (fun check => predicate check argsObj) checks
  | CheckFn check => predicate check argsObj
  | NoCheck => true
  end.

Definition runsOf `{Environment} (cmdSource : Command) (argsObj : ArgsObj) : nat :=
  if checksAccept cmdSource argsObj then
    match cmd_handler cmdSource with
    | Some _ => 1
    | None => 0
    end
  else 0.

(** Every custom argument has its function. *)
Definition customsCallable (arguments : list Argument) : Prop :=
  Forall (fun a => arg_class a = ClsCustom -> is_Some (arg_custom a)) arguments.


(** ** A small world to run the parser in *)

Module Sample.

Definition emptyWorld : World :=
  {| nextId := 0; arrays := ∅; specs := ∅; cmdRegistry := ∅; trace := [] |}.

(** The runs of characters between white space. *)
Fixpoint words (s : string) (cur : string) : list string :=
  match s with
  | String c r =>
      if Js.isSpace c
      then (if Js.isEmpty cur then words r "" else cur :: words r "")
      else words r (cur ++ String c "")
  | EmptyString => if Js.isEmpty cur then [] else [cur]
  end.

(** An environment whose packages do the least: [split] cuts at white
    space without regard to quotes or to the count, [camelCase] is the
    identity, every duration is refused and every predicate accepts. *)
#[local] Instance environment : Environment :=
  {| dur := fun _ => None;
     split := fun s _ => words s "";
     camelCase := fun s => s;
     predicate := fun _ _ => true |}.

(** The localization function of [host]. *)
Definition echo (code : string)
    (_ : option (Argument * option string * option string)) : option string :=
  Some code.

(** A host that localizes every code to itself and can send. *)
Definition host : Context :=
  {| localize := Some echo;
     send := true;
     testPermission := None;
     extras := ∅ |}.

Definition requiredArgument (key : string) (type : string) : ArgumentSpec :=
  {| as_key := key; as_type := Some type; as_default := PUndefined;
     as_required := true; as_choices := None; as_description := None;
     as_minLength := None; as_maxLength := None; as_matches := None;
     as_min := None; as_max := None; as_allowAlias := None;
     as_custom := None |}.

Definition plainCommand (name : string) (aliases : option nat)
    (arguments : list ArgumentSpec) : CommandSpec :=
  {| spec_name := Some name; spec_command := None; spec_originalName := None;
     spec_description := None; spec_describe := None;
     spec_longDescription := None;
     spec_arguments := Some (Plain <$> arguments);
     spec_aliases := aliases; spec_check := NoCheck; spec_handler := Some 0;
     spec_category := None; spec_permissionless := false |}.

(** A world whose heap holds the specification [{name: "a", aliases:
    ["b"]}] at reference 1, its array at reference 0. *)
Definition worldAB (arguments : list ArgumentSpec) : World :=
  {| nextId := 2;
     arrays := {[ 0 := ["b"] ]};
     specs := {[ 1 := plainCommand "a" (Some 0) arguments ]};
     cmdRegistry := ∅; trace := [] |}.

(** A world whose heap holds the specification [{name: "a", aliases:
    [""]}], with an empty string for alias. *)
Definition worldBlank : World :=
  {| nextId := 2;
     arrays := {[ 0 := [""] ]};
     specs := {[ 1 := plainCommand "a" (Some 0) [] ]};
     cmdRegistry := ∅; trace := [] |}.

(** A record filed by hand: the command [greet] with one required
    argument of the given type, and a world whose registry holds it. *)
Definition greet (type : string) : Command :=
  {| cmd_id := 1; cmd_name := Some "greet"; cmd_originalName := Some "greet";
     cmd_description := ""; cmd_longDescription := "";
     cmd_arguments := [Legacy.toArgument (Plain (requiredArgument "who" type))];
     cmd_aliases := 0; cmd_check := NoCheck; cmd_handler := Some 7;
     cmd_category := None; cmd_permissionless := false |}.

Definition greetWorld (type : string) : World :=
  {| nextId := 2; arrays := {[ 0 := [] ]}; specs := ∅;
     cmdRegistry := {[ "greet" := greet type ]}; trace := [] |}.

(** [{type: "command", allowAlias: false}] *)
Definition noAliasArgument : ArgumentSpec :=
  {| as_key := "target"; as_type := Some "command"; as_default := PUndefined;
     as_required := false; as_choices := None; as_description := None;
     as_minLength := None; as_maxLength := None; as_matches := None;
     as_min := None; as_max := None; as_allowAlias := Some false;
     as_custom := None |}.

(** [{type: "integer", choices: [1, 2]}] *)
Definition choiceArgument : ArgumentSpec :=
  {| as_key := "level"; as_type := Some "integer"; as_default := PUndefined;
     as_required := false; as_choices := Some [PNum 1; PNum 2];
     as_description := None;
     as_minLength := None; as_maxLength := None; as_matches := None;
     as_min := None; as_max := None; as_allowAlias := None;
     as_custom := None |}.

(** [{type: "string", minLength: 3}] and [{type: "integer", max: 10}] in
    one specification. *)
Definition boundedArgument : ArgumentSpec :=
  {| as_key := "text"; as_type := None; as_default := PUndefined;
     as_required := false; as_choices := None; as_description := None;
     as_minLength := Some 3%Z; as_maxLength := None; as_matches := None;
     as_min := None; as_max := Some 10%Z; as_allowAlias := None;
     as_custom := None |}.

(** The world after [register({name: "a", aliases: ["b"]})]. *)
Definition registeredAB : World := (Legacy.register 1 (worldAB [])).2.

(** [new argTypes.integer({type: "integer", choices: [1, 2]})] and the
    error its [getValue] allocates for a token that is no number. *)
Definition levelArgument : Argument := Legacy.newIntegerArgument choiceArgument.

Definition levelError : InvalidArgumentError :=
  errorAt 0 echo "integer_argument_invalid" levelArgument (Some "abc").

End Sample.

(** ** Definitions for further properties *)

(** The default is one of the choices, when there are choices. *)
Definition defaultAllowed (this : Argument) : Prop :=
  match arg_choices this with
  | Some choices => includes choices (VPrim (arg_default this)) = true
  | None => True
  end.

(** A name [UserArgument] accepts: word characters and hyphens, three to
    twenty of them; and one [SubredditArgument] accepts. *)
Definition userName (s : string) : Prop :=
  Js.testUserName s = true /\ 3 <= String.length s <= 20.

Definition subredditName (s : string) : Prop :=
  Js.testSubredditName s = true /\ 3 <= String.length s <= 20.

(** A specification that leaves the string rules at their defaults. *)
Definition freeText (spec : ArgumentSpec) : Prop :=
  as_minLength spec = None /\ as_maxLength spec = None /\ as_matches spec = None.

(** A specification without a usable name: none, or the empty string. *)
Definition nameless (spec : CommandSpec) : Prop :=
  forall name, Legacy.findName spec = Some name -> name = "".




(** Everything of the world but the registry. *)
Definition sameHeap (w w' : World) : Prop :=
  nextId w' = nextId w /\ arrays w' = arrays w /\ specs w' = specs w
  /\ trace w' = trace w.

(** The events a computation adds to the trace, all of them of one kind. *)
Definition adds {A} (P : Event -> Prop) (m : M A) : Prop :=
  forall w, exists t, trace (m w).2 = (t ++ trace w)%list /\ Forall P t.

Definition isCustomCall (e : Event) : Prop :=
  match e with CalledCustom _ _ => True | _ => False end.

Definition isNoRun (e : Event) : Prop :=
  match e with Ran _ _ => False | _ => True end.

(** The number of messages sent in a trace. *)
Fixpoint sentCalls (t : list Event) : nat :=
  match t with
  | Sent _ :: rest => S (sentCalls rest)
  | _ :: rest => sentCalls rest
  | [] => 0
  end.

(** The number of arguments from [index] on that refuse their token. *)
Fixpoint refusals `{Environment} (w : World) (arguments : list Argument)
    (index : nat) (args : list string) (pass : Context) : nat :=
  match arguments with
  | argument :: rest =>
      (if accepts w argument (args !! index) pass then 0 else 1)
      + refusals w rest (S index) args pass
  | [] => 0
  end.

(** The assembled object holds no error, and holds a property for the key
    of each argument and for its camel-cased form, and no other. *)
Definition holdsNoError (o : ArgsObj) : Prop :=
  forall k v, assigned o !! k = Some v -> isError v = false.

Definition keyed `{Environment} (arguments : list Argument) (k : string) : Prop :=
  exists a, a ∈ arguments /\ (k = arg_key a \/ k = camelCase (arg_key a)).

Definition holdsTheKeys `{Environment} (arguments : list Argument) (o : ArgsObj)
    : Prop :=
  forall k, is_Some (assigned o !! k) <-> keyed arguments k.



(** [Command.prototype.usage]: the name and the keys in angle brackets,
    joined by spaces; a template literal prints an absent name as
    [undefined]. *)
Definition wrap (arg : Argument) : string := "<" ++ arg_key arg ++ ">".

Definition usage (this : Command) : string :=
  let wrapped := wrap <$> cmd_arguments this in
  from_option id "undefined" (cmd_name this) ++ " " ++ String.concat " " wrapped.

(** The double quote, and the tokens of a command line: a run of characters
    that are neither white space nor a double quote, or a span between two
    double quotes. *)
Definition quote : ascii := ascii_of_nat 34.

Definition isBare (c : ascii) : bool := negb (Js.isSpace c) && negb (Js.isQuote c).

Definition bareWord (s : string) : Prop :=
  s ≠ "" /\ Js.forallb isBare s = true.

Definition quotedSpan (s : string) : Prop :=
  exists body, Js.forallb (fun c => negb (Js.isQuote c)) body = true
    /\ s = String quote (body ++ String quote "").

Definition lineToken (s : string) : Prop := bareWord s \/ quotedSpan s.

(** ** More sample data *)

Module Cases.
Import Sample.

(** [{key: "level", type: "integer", default: 5}] and the error its
    [getValue] allocates for a token that is no number. *)
Definition defaultedArgument : ArgumentSpec :=
  {| as_key := "level"; as_type := Some "integer"; as_default := PNum 5;
     as_required := false; as_choices := None; as_description := None;
     as_minLength := None; as_maxLength := None; as_matches := None;
     as_min := None; as_max := None; as_allowAlias := None;
     as_custom := None |}.

Definition defaultedError : InvalidArgumentError :=
  errorAt 0 echo "integer_argument_invalid"
    (Legacy.newIntegerArgument defaultedArgument) (Some "abc").

(** [{minLength: 3, maxLength: 6}] and [{min: 1, max: 10}] in one
    specification. *)
Definition rangeArgument : ArgumentSpec :=
  {| as_key := "text"; as_type := None; as_default := PUndefined;
     as_required := false; as_choices := None; as_description := None;
     as_minLength := Some 3%Z; as_maxLength := Some 6%Z; as_matches := None;
     as_min := Some 1%Z; as_max := Some 10%Z; as_allowAlias := None;
     as_custom := None |}.


(** [{type: "user"}], and the error of its [getValue] for a token that is
    no name. *)
Definition whoArgument : Argument :=
  Legacy.newUserArgument (requiredArgument "who" "user").

Definition whoError : InvalidArgumentError :=
  errorAt 0 echo "user_argument_invalid" whoArgument (Some "a!").

(** [{type: "custom", required: true, custom: fn}], [fn] being the
    function 3. *)
Definition customArgument : ArgumentSpec :=
  {| as_key := "thing"; as_type := Some "custom"; as_default := PUndefined;
     as_required := true; as_choices := None; as_description := None;
     as_minLength := None; as_maxLength := None; as_matches := None;
     as_min := None; as_max := None; as_allowAlias := None;
     as_custom := Some 3 |}.

(** A world whose heap holds, at reference 1, a specification whose only
    name is the empty string: [{command: ""}]. *)
Definition namelessCommand : CommandSpec :=
  {| spec_name := None; spec_command := Some ""; spec_originalName := None;
     spec_description := None; spec_describe := None;
     spec_longDescription := None; spec_arguments := None;
     spec_aliases := None; spec_check := NoCheck; spec_handler := None;
     spec_category := None; spec_permissionless := false |}.

Definition worldNameless : World :=
  {| nextId := 2; arrays := ∅; specs := {[ 1 := namelessCommand ]};
     cmdRegistry := ∅; trace := [] |}.

(** A host whose permission test rejects everything, and a host that
    cannot localize. *)
Definition guardedHost : Context :=
  {| localize := Some echo; send := true;
     testPermission := Some (fun _ => false); extras := ∅ |}.

Definition muteHost : Context :=
  {| localize := None; send := true; testPermission := None; extras := ∅ |}.

(** The object [parse] assembles for the line [greet bob]. *)
Definition bobObject : ArgsObj :=
  assign "who" (VPrim (PStr "bob"))
    (assign "who" (VPrim (PStr "bob")) {| passed := host; assigned := ∅ |}).

End Cases.


(** * Properties *)

Ltac monad_unfold :=
  unfold mbind, M_bind, mret, M_ret, throw, emit, alloc, allocArray,
    getRegistry, modifyRegistry, readSpec, modifySpec, readArray, push in *.

Section Proofs.
Context `{Environment}.

(** ** Argument types *)

Lemma invalid_eq this pass loc code value w :
  localize pass = Some loc ->
  Legacy.invalid this pass code value w =
    (Ret (VError (errorAt (nextId w) loc code this value)), setNextId (S (nextId w)) w).
Proof.
  intros Hl. unfold Legacy.invalid, Legacy.newInvalidArgumentError.
  monad_unfold. rewrite Hl. unfold errorAt, messageFor.
  destruct (loc code _) as [m|]; [destruct (Js.truthy m)|]; reflexivity.
Qed.

Lemma invalid_throw this pass code value w :
  localize pass = None ->
  Legacy.invalid this pass code value w =
    (Throw (TypeError "args.localize is not a function"), setNextId (S (nextId w)) w).
Proof.
  intros Hl. unfold Legacy.invalid, Legacy.newInvalidArgumentError.
  monad_unfold. rewrite Hl. reflexivity.
Qed.

(** *** Errors are allocated by the call that returns them *)

Lemma fresh_ret pass v : isError v = false -> fresh pass (mret v).
Proof.
  intros Hv w v' w' Hr. injection Hr as <- <-. split; [done|].
  intros e ->. discriminate.
Qed.

Lemma fresh_invalid this pass code value :
  fresh pass (Legacy.invalid this pass code value).
Proof.
  intros w v w'. destruct (localize pass) as [loc|] eqn:Hl.
  - rewrite (invalid_eq _ _ loc) by done. intros Hr. injection Hr as <- <-.
    simpl. split; [lia|]. intros e He. injection He as <-. split; [eauto|done].
  - by rewrite invalid_throw.
Qed.

Lemma fresh_if pass (b : bool) (m1 m2 : M jsval) :
  fresh pass m1 -> fresh pass m2 -> fresh pass (if b then m1 else m2).
Proof. by destruct b. Qed.

Lemma fresh_bind pass (m : M jsval) (k : jsval -> M jsval) :
  fresh pass m -> (forall v, fresh pass (k v)) -> fresh pass (m ≫= k).
Proof.
  intros Hm Hk w v w'. unfold mbind, M_bind.
  destruct (m w) as [[v1|e1] w1] eqn:Hrun; [|done].
  intros Hr. destruct (Hm w v1 w1 Hrun) as [Hle _].
  destruct (Hk v1 w1 v w' Hr) as [Hle' He]. split; [lia|].
  intros e Hv. destruct (He e Hv) as [Hloc Hid]. split; [done|lia].
Qed.

Ltac fresh_step :=
  first [ apply fresh_invalid | apply fresh_if | by apply fresh_ret ].

Lemma getValue_fresh this token pass :
  fresh pass (Legacy.getValue this token pass).
Proof.
  assert (fresh pass (Legacy.StringArgument_getValue this token pass)) as Hstr.
  { unfold Legacy.StringArgument_getValue. destruct token; repeat fresh_step. }
  unfold Legacy.getValue. destruct (arg_class this).
  - unfold Legacy.Argument_getValue. destruct token; by apply fresh_ret.
  - done.
  - unfold Legacy.UserArgument_getValue. apply fresh_bind; [done|].
    intros v. repeat fresh_step.
  - unfold Legacy.SubredditArgument_getValue. apply fresh_bind; [done|].
    intros v. repeat fresh_step.
  - unfold Legacy.command_getValue. destruct token; [|by apply fresh_ret].
    intros w v w'. unfold mbind, M_bind, getRegistry.
    destruct (cmdRegistry w !! s) as [c|]; [|apply fresh_invalid].
    destruct (negb (arg_allowAlias this) && _); [apply fresh_invalid|].
    by apply fresh_ret.
  - unfold Legacy.custom_getValue. destruct (arg_custom this); [|done].
    intros w v w' Hr. injection Hr as <- <-. split; [done|]. discriminate.
  - unfold Legacy.duration_getValue. destruct token; [|by apply fresh_ret].
    destruct (dur s); repeat fresh_step.
  - unfold Legacy.integer_getValue. destruct token; [|by apply fresh_ret].
    destruct (Js.parseInt s); repeat fresh_step.
Qed.

Lemma getValue_error_fresh this token pass w e w' :
  Legacy.getValue this token pass w = (Ret (VError e), w') ->
  is_Some (localize pass) /\ nextId w <= err_id e.
Proof.
  intros Hr. destruct (getValue_fresh this token pass w _ w' Hr) as [_ He].
  by apply He.
Qed.

Lemma includes_fresh (choices : list prim) e n :
  (forall id, PObj id ∈ choices -> id < n) ->
  n <= err_id e ->
  includes choices (VError e) = false.
Proof.
  intros Hold Hfresh. unfold includes.
  apply not_true_is_false. intros [p [Hin Heq]]%List.existsb_exists.
  apply list_elem_of_In in Hin. destruct p; simpl in Heq; try discriminate.
  apply Nat.eqb_eq in Heq. subst. apply Hold in Hin. lia.
Qed.

(** C10.  When an argument has choices and no truthy default, a token that
    fails the type-specific parse is reported with code
    ARGUMENT_UNAVAILABLE_CHOICE: the error returned by [getValue] is itself
    tested for membership in the choices, it cannot be among them because it
    was allocated by this very call, and the error that [getWithDefault]
    returns, whose message [get] sends, is a new one with that code instead
    of the code the parser produced. *)
Theorem choices_mask_parse_failure this token pass choices e0 w w0 :
  arg_choices this = Some choices ->
  primTruthy (arg_default this) = false ->
  (forall id, PObj id ∈ choices -> id < nextId w) ->
  Legacy.getValue this token pass w = (Ret (VError e0), w0) ->
  exists e w',
    Legacy.getWithDefault this token pass w = (Ret (VError e), w')
    /\ err_code e = "ARGUMENT_UNAVAILABLE_CHOICE"
    /\ (send pass = true ->
        exists w'',
          Legacy.get this token pass w
            = (Ret {| success := false; value := undefined |}, w'')
          /\ trace w'' = Sent (err_message e) :: trace w0).
Proof.
  intros Hc Hd Hold Hg.
  destruct (getValue_error_fresh _ _ _ _ _ _ Hg) as [[loc Hl] Hfresh].
  unfold Legacy.get, Legacy.getWithDefault. monad_unfold. rewrite Hg. simpl.
  rewrite andb_false_r, Hc. unfold Legacy.defaulter. rewrite Hd. simpl.
  rewrite (includes_fresh _ _ (nextId w)) by done.
  rewrite (invalid_eq _ _ loc) by done.
  eexists _, _. split; [reflexivity|]. split; [reflexivity|].
  intros ->. eexists. simpl. done.
Qed.

(** The value or the failure code of [getWithDefault] for a token that is
    there, when neither a default nor choices are configured. *)
Lemma getWithDefault_plain this token pass w :
  primTruthy (arg_default this) = false ->
  arg_choices this = None ->
  Legacy.getWithDefault this (Some token) pass w =
    match Legacy.getValue this (Some token) pass w with
    | (Ret v, w') =>
        if arg_required this && isUndefined v
        then Legacy.invalid this pass "argument_required" (Some token) w'
        else (Ret v, w')
    | (Throw e, w') => (Throw e, w')
    end.
Proof.
  intros Hd Hc. unfold Legacy.getWithDefault. monad_unfold.
  destruct (Legacy.getValue _ _ _ _) as [[v|e] w']; [|done].
  rewrite Hc. unfold Legacy.defaulter. rewrite Hd. simpl.
  by destruct (arg_required this && isUndefined v).
Qed.

(** C5.  Bounds are exclusive.  A string argument with minLength 3 (no
    maxLength, no pattern) refuses every token of length 3 with
    STRING_ARGUMENT_TOO_SHORT and returns every token of length 4; an
    integer argument with max 10 (no min) refuses the token 10 with
    INTEGER_ARGUMENT_TOO_HIGH and returns 9 for the token 9. *)
Theorem bounds_are_exclusive (spec : ArgumentSpec) pass loc w :
  localize pass = Some loc ->
  primTruthy (as_default spec) = false ->
  as_choices spec = None ->
  (as_minLength spec = Some 3%Z -> as_maxLength spec = None ->
   as_matches spec = None ->
   forall token,
     (String.length token = 3 ->
      exists e w',
        Legacy.getWithDefault (Legacy.newStringArgument spec) (Some token) pass w
          = (Ret (VError e), w')
        /\ err_code e = "STRING_ARGUMENT_TOO_SHORT")
     /\ (String.length token = 4 ->
         Legacy.getWithDefault (Legacy.newStringArgument spec) (Some token) pass w
           = (Ret (VPrim (PStr token)), w)))
  /\ (as_max spec = Some 10%Z -> as_min spec = None ->
      (exists e w',
         Legacy.getWithDefault (Legacy.newIntegerArgument spec) (Some "10") pass w
           = (Ret (VError e), w')
         /\ err_code e = "INTEGER_ARGUMENT_TOO_HIGH")
      /\ Legacy.getWithDefault (Legacy.newIntegerArgument spec) (Some "9") pass w
           = (Ret (VPrim (PNum 9)), w)).
Proof.
  intros Hl Hd Hc. split.
  - intros Hmin Hmax Hm token. split; intros Hlen.
    + rewrite getWithDefault_plain by done.
      unfold Legacy.getValue, Legacy.StringArgument_getValue. simpl.
      rewrite Hmin, Hmax, Hm, Hlen. simpl.
      rewrite (invalid_eq _ _ loc) by done. rewrite andb_false_r.
      eexists _, _. split; reflexivity.
    + rewrite getWithDefault_plain by done.
      unfold Legacy.getValue, Legacy.StringArgument_getValue. simpl.
      rewrite Hmin, Hmax, Hm, Hlen. simpl.
      by rewrite andb_false_r.
  - intros Hmax Hmin. split.
    + rewrite getWithDefault_plain by done.
      unfold Legacy.getValue, Legacy.integer_getValue. simpl.
      rewrite Hmax, Hmin. simpl.
      rewrite (invalid_eq _ _ loc) by done. rewrite andb_false_r.
      eexists _, _. split; reflexivity.
    + rewrite getWithDefault_plain by done.
      unfold Legacy.getValue, Legacy.integer_getValue. simpl.
      rewrite Hmax, Hmin. simpl.
      by rewrite andb_false_r.
Qed.

(** C2, at the input where the code departs from it.  Handed an absent
    token, [getValue] of a user argument and of a subreddit argument does
    not return [undefined]: the inherited string parse returns [undefined],
    the regular expression is executed on it as the text "undefined", and
    that text passes the name test, so the call returns the string
    "undefined".  [absent_token_other_classes] below shows the six other
    classes returning [undefined]. *)
Theorem absent_token_for_user_and_subreddit (spec : ArgumentSpec) pass w :
  Legacy.getValue (Legacy.newUserArgument spec) None pass w
    = (Ret (VPrim (PStr "undefined")), w)
  /\ Legacy.getValue (Legacy.newSubredditArgument spec) None pass w
    = (Ret (VPrim (PStr "undefined")), w).
Proof. split; reflexivity. Qed.

Lemma absent_token_other_classes this pass w :
  arg_class this <> ClsUserArgument ->
  arg_class this <> ClsSubredditArgument ->
  (arg_class this = ClsCustom -> is_Some (arg_custom this)) ->
  exists w', Legacy.getValue this None pass w = (Ret undefined, w')
             /\ nextId w' = nextId w.
Proof.
  intros Hu Hs Hc. unfold Legacy.getValue.
  destruct (arg_class this) eqn:Hcls; try done; try (by eexists).
  destruct Hc as [f Hf]; [done|].
  unfold Legacy.custom_getValue. rewrite Hf. by eexists.
Qed.

Lemma command_getValue_absent_key this key pass loc w :
  arg_class this = ClsCommand ->
  localize pass = Some loc ->
  cmdRegistry w !! key = None ->
  exists e w',
    Legacy.getValue this (Some key) pass w = (Ret (VError e), w')
    /\ err_code e = "COMMAND_ARGUMENT_NONEXISTENT".
Proof.
  intros Hcls Hl Hk. unfold Legacy.getValue, Legacy.command_getValue.
  rewrite Hcls. monad_unfold. rewrite Hk, (invalid_eq _ _ loc) by done.
  by eexists _, _.
Qed.

Lemma allowAlias_always_true (spec : ArgumentSpec) :
  arg_allowAlias (Legacy.newCommandArgument spec) = true.
Proof. simpl. apply orb_true_r. Qed.

Lemma command_getValue_found (spec : ArgumentSpec) key cmd pass w :
  cmdRegistry w !! key = Some cmd ->
  Legacy.getValue (Legacy.newCommandArgument spec) (Some key) pass w
    = (Ret (VCommand cmd), w).
Proof.
  intros Hk. unfold Legacy.getValue, Legacy.command_getValue. simpl.
  monad_unfold. rewrite Hk, orb_true_r. reflexivity.
Qed.

Lemma trim_empty_matchParts command :
  Js.trim command = "" -> Legacy.matchParts (Js.trim command) = None.
Proof. intros ->. reflexivity. Qed.

Lemma legacy_parse_blank command pass w :
  Js.trim command = "" ->
  Legacy.parse command pass w
    = (Throw (TypeError "Cannot read property 'length' of null"), w).
Proof. intros Ht. unfold Legacy.parse. rewrite Ht. reflexivity. Qed.

Lemma parser_parse_blank command pass w :
  Js.trim command = "" ->
  Parser.parse command pass w = (Ret None, w).
Proof. intros Ht. unfold Parser.parse. rewrite Ht. reflexivity. Qed.

(** The command token of [Parser.parse] is empty only for blank input. *)
Lemma parser_command_token_empty cmd :
  Js.take (match Js.indexOfSpace cmd with
           | Some i => i
           | None => String.length cmd
           end) cmd = "" ->
  cmd = "" \/ exists r, cmd = String " " r.
Proof.
  destruct cmd as [|c r]; [by left|]. simpl.
  destruct (nat_of_ascii c =? 32) eqn:Hc.
  - intros _. right. exists r. f_equal.
    apply Nat.eqb_eq in Hc. rewrite <- (ascii_nat_embedding c), Hc. reflexivity.
  - destruct (Js.indexOfSpace r); simpl; discriminate.
Qed.

(** C8, at the input where the code departs from it.  On the empty string
    [Legacy.parse] raises a TypeError: [match] finds nothing and returns
    [null], whose [length] is then read.  [Parser.parse] returns
    [undefined] there and leaves the world as it was: no handler, no
    message, no error. *)
Theorem legacy_parse_empty_string_throws pass w :
  Legacy.parse "" pass w
    = (Throw (TypeError "Cannot read property 'length' of null"), w)
  /\ Parser.parse "" pass w = (Ret None, w).
Proof. split; reflexivity. Qed.

(** ** The registry *)

Lemma newCommand_builds : builds Legacy.newCommand builtCommand.
Proof.
  intros s a w Ha. unfold Legacy.newCommand. monad_unfold. rewrite Ha. reflexivity.
Qed.

Lemma resolveCommand_builds : builds Parser.resolveCommand gatedCommand.
Proof.
  intros s a w Ha. unfold Parser.resolveCommand. monad_unfold.
  rewrite (newCommand_builds s a w Ha). reflexivity.
Qed.

Lemma sameRest_refl s : sameRest s s.
Proof. done. Qed.

Lemma sameRest_after s s0 aname name n :
  sameRest s s0 -> sameRest (specAfter s aname name n) s0.
Proof. intros Hs a' n' m'. rewrite <- (Hs a' n' m'). reflexivity. Qed.

Lemma registerAlias_eq resolve mk cmd name alias aname s s0 elements w :
  builds resolve mk ->
  specs w !! cmd = Some s ->
  sameRest s s0 ->
  arrays w !! alias = Some elements ->
  Legacy.registerAlias resolve cmd name alias aname w
    = (Ret tt, fileAlias mk cmd name s0 elements w aname).
Proof.
  intros Hb Hs Hr Ha. unfold Legacy.registerAlias. monad_unfold.
  unfold setSpecs, setArrays, setNextId, setRegistry. simpl.
  rewrite Hs. simpl. rewrite lookup_insert_eq. simpl.
  rewrite Ha. simpl. rewrite lookup_insert_eq. simpl.
  rewrite lookup_insert_eq. rewrite !insert_insert_eq.
  erewrite Hb by reflexivity. unfold setNextId. simpl.
  unfold fileAlias. rewrite <- (Hr aname name (nextId w)). reflexivity.
Qed.

Lemma forEachFrom_eq resolve mk cmd name alias s s0 elements n : forall k w,
  builds resolve mk ->
  specs w !! cmd = Some s ->
  sameRest s s0 ->
  arrays w !! alias = Some elements ->
  alias < nextId w ->
  k + n <= length elements ->
  Legacy.forEachFrom alias k n (Legacy.registerAlias resolve cmd name alias) w
    = (Ret tt, foldl (fileAlias mk cmd name s0 elements) w (take n (drop k elements))).
Proof.
  revert s. induction n as [|n IH]; intros s k w Hb Hs Hr Ha Hlt Hk.
  - reflexivity.
  - destruct (lookup_lt_is_Some_2 elements k) as [x Hx]; [lia|].
    rewrite (drop_S _ _ _ Hx). simpl.
    monad_unfold. rewrite Ha. simpl. rewrite Hx.
    erewrite registerAlias_eq by done.
    erewrite (IH (specAfter s0 x name (nextId w))); [done|done|..].
    + simpl. apply lookup_insert_eq.
    + apply sameRest_after, sameRest_refl.
    + simpl. rewrite lookup_insert_ne by lia. done.
    + simpl. lia.
    + lia.
Qed.

Section Filed.
Variable mk : CommandSpec -> nat -> nat -> Command.
Variables (cmd : nat) (name : string) (s0 : CommandSpec) (elements : list string).

Let filed := foldl (fileAlias mk cmd name s0 elements).






Lemma filed_registry_other l : forall w key,
  key ∉ l -> cmdRegistry (filed w l) !! key = cmdRegistry w !! key.
Proof.
  induction l as [|x l IH]; intros w key Hk; simpl; [done|].
  apply not_elem_of_cons in Hk as [Hne Hk].
  unfold filed in *. rewrite IH by done. simpl.
  by apply lookup_insert_ne.
Qed.

Lemma filed_registry_in l : forall w key,
  key ∈ l ->
  exists i n, cmdRegistry (filed w l) !! key
              = Some (mk (specAfter s0 key name n) i n).
Proof.
  induction l as [|x l IH]; intros w key Hk; [by apply elem_of_nil in Hk|].
  simpl. destruct (decide (key ∈ l)) as [Hin|Hnin].
  - by apply IH.
  - apply elem_of_cons in Hk as [->|Hk]; [|done].
    pose proof (filed_registry_other l (fileAlias mk cmd name s0 elements w x) x Hnin) as Ho.
    unfold filed in *. rewrite Ho. simpl. rewrite lookup_insert_eq. eauto.
Qed.


End Filed.

Lemma legacy_register_with cmd :
  Legacy.register cmd
    = registerWith Legacy.newCommand (Error "A command must have a name.") cmd.
Proof. reflexivity. Qed.

Lemma parser_registerSingle_with cmd :
  Parser.registerSingle cmd
    = registerWith Parser.resolveCommand
        (CommandError "Commands must have names." "MISSING_COMMAND_NAME") cmd.
Proof. reflexivity. Qed.

Lemma pushed_facts w spec name declared cmd :
  specs w !! cmd = Some spec ->
  declaredAliases w spec = Some declared ->
  heapFresh w ->
  let w1 := pushed w spec name declared in
  specs w1 = specs w
  /\ cmdRegistry w1 = cmdRegistry w
  /\ trace w1 = trace w
  /\ arrays w1 !! aliasRef w spec = Some (declared ++ [name])%list
  /\ aliasRef w spec < nextId w1
  /\ nextId w <= nextId w1
  /\ (forall a, a ≠ aliasRef w spec -> arrays w1 !! a = arrays w !! a).
Proof.
  intros Hs Hd Hf. unfold pushed, aliasRef, declaredAliases in *.
  destruct (spec_aliases spec) as [a|]; simpl.
  - repeat split; try done.
    + apply lookup_insert_eq.
    + apply Hf. by eexists.
    + intros b Hb. by apply lookup_insert_ne.
  - simplify_eq. repeat split; try done.
    + apply lookup_insert_eq.
    + lia.
    + lia.
    + intros b Hb. by apply lookup_insert_ne.
Qed.

Lemma registerWith_eq resolve mk noName cmd spec name declared w :
  builds resolve mk ->
  specs w !! cmd = Some spec ->
  Legacy.findName spec = Some name ->
  Js.truthy name = true ->
  declaredAliases w spec = Some declared ->
  heapFresh w ->
  registerWith resolve noName cmd w
    = (Ret (cmdRegistry (registered mk cmd name spec declared w)),
       registered mk cmd name spec declared w).
Proof.
  intros Hb Hs Hn Ht Hd Hf.
  destruct (pushed_facts w spec name declared cmd Hs Hd Hf)
    as (Hsp & _ & _ & Ha & Hlt & _ & _).
  unfold registerWith. unfold mbind at 1, M_bind, readSpec. rewrite Hs.
  unfold Legacy.findName in Hn. rewrite Hn, Ht. simpl.
  assert (Hpush :
    (alias ← match spec_aliases spec with
             | Some a => mret a
             | None => allocArray []
             end; push alias name;; mret alias) w
    = (Ret (aliasRef w spec), pushed w spec name declared)).
  { unfold pushed, aliasRef, declaredAliases in *. monad_unfold.
    destruct (spec_aliases spec) as [a|]; simpl.
    - by rewrite Hd.
    - rewrite lookup_insert_eq. simpl. simplify_eq.
      unfold setArrays, setNextId. simpl. by rewrite insert_insert_eq. }
  unfold mbind, M_bind in Hpush |- *.
  destruct (match spec_aliases spec with
            | Some a => mret a
            | None => allocArray []
            end w) as [[alias|e] w0] eqn:Halloc; [|done].
  destruct (push alias name w0) as [[[]|e] w1] eqn:Hpushed; [|done].
  unfold mret, M_ret in Hpush. simplify_eq.
  unfold Legacy.forEach. unfold mbind, M_bind, readArray. rewrite Ha.
  erewrite (forEachFrom_eq resolve mk cmd name _ spec spec (declared ++ [name])%list);
    [|done|by rewrite Hsp|apply sameRest_refl|done|done|simpl; lia].
  rewrite drop_0, firstn_all. reflexivity.
Qed.



Lemma elem_of_snoc_cons {A} (x y : A) (l : list A) :
  x ∈ (l ++ [y])%list <-> x ∈ y :: l.
Proof.
  rewrite elem_of_app, !elem_of_cons. pose proof (not_elem_of_nil x). tauto.
Qed.

Lemma truthy_nonempty s : Js.truthy s = true <-> s ≠ "".
Proof. destruct s; simpl; split; try done. Qed.

Lemma findName_specAfter s key name n :
  Legacy.findName (specAfter s key name n)
    = if Js.truthy key then Some key else spec_command s.
Proof. reflexivity. Qed.

Section Registered.
Variable mk : CommandSpec -> nat -> nat -> Command.
Hypothesis Hmk : namesAsCommand mk.
Variables (w : World) (cmd : nat) (spec : CommandSpec) (name : string)
  (declared : list string).
Hypothesis Hspec : specs w !! cmd = Some spec.
Hypothesis Hname : Legacy.findName spec = Some name.
Hypothesis Htruthy : Js.truthy name = true.
Hypothesis Hdeclared : declaredAliases w spec = Some declared.
Hypothesis Hfresh : heapFresh w.

Let W := registered mk cmd name spec declared w.

Lemma registered_lookup key :
  key ∈ name :: declared ->
  exists c, cmdRegistry W !! key = Some c
    /\ cmd_name c = (if Js.truthy key then Some key else spec_command spec)
    /\ cmd_originalName c = Some name.
Proof.
  intros Hk.
  destruct (filed_registry_in mk cmd name spec (declared ++ [name])
              (declared ++ [name]) (pushed w spec name declared) key)
    as (i & n & Hl).
  { by apply elem_of_snoc_cons. }
  exists (mk (specAfter spec key name n) i n). split; [exact Hl|].
  destruct (Hmk (specAfter spec key name n) i n) as (_ & -> & -> & _).
  split; [apply findName_specAfter|]. simpl. by rewrite Htruthy.
Qed.

Lemma registered_other key :
  key ∉ name :: declared ->
  cmdRegistry W !! key = cmdRegistry w !! key.
Proof.
  intros Hk. unfold W, registered.
  rewrite filed_registry_other by (by rewrite elem_of_snoc_cons).
  by destruct (pushed_facts w spec name declared cmd Hspec Hdeclared Hfresh)
    as (_ & -> & _).
Qed.





End Registered.


Lemma gatedCommand_names : namesAsCommand gatedCommand.
Proof. by intros s i a. Qed.





(** C7.  After a specification with canonical name [name] and aliases
    [declared] is registered, [deregister(name, true)] leaves no record
    under [name] nor under any of the aliases; the same holds in any world
    whose registry files the name and the aliases under that canonical
    name. *)
Theorem deregister_removes_name_and_aliases w cmd spec name declared :
  specs w !! cmd = Some spec ->
  Legacy.findName spec = Some name ->
  Js.truthy name = true ->
  declaredAliases w spec = Some declared ->
  heapFresh w ->
  (exists w1 w2,
     Parser.registerSingle cmd w = (Ret (cmdRegistry w1), w1)
     /\ Parser.deregister name true w1 = (Ret (cmdRegistry w2), w2)
     /\ forall key, key ∈ name :: declared -> cmdRegistry w2 !! key = None)
  /\ (forall v, filedUnder name declared v ->
        exists v',
          Parser.deregister name true v = (Ret (cmdRegistry v'), v')
          /\ forall key, key ∈ name :: declared -> cmdRegistry v' !! key = None).
Proof.
  intros Hs Hn Ht Hd Hf. split.
  - eexists (registered gatedCommand cmd name spec declared w), _.
    split; [|split].
    + rewrite parser_registerSingle_with.
      eapply registerWith_eq; eauto using resolveCommand_builds.
    + reflexivity.
    + intros key Hk. simpl.
      destruct (registered_lookup gatedCommand gatedCommand_names w cmd spec name
                  declared Ht key Hk) as (c & Hc & _ & Ho).
      apply map_lookup_filter_None. right. intros c' Hc'. simpl.
      rewrite Hc in Hc'. simplify_eq. rewrite Ho. by intros ?.
  - intros v Hfiled. eexists. split; [reflexivity|].
    intros key Hk. simpl. destruct (Hfiled key Hk) as (c & Hc & _ & Ho).
    apply map_lookup_filter_None. right. intros c' Hc'. simpl.
    rewrite Hc in Hc'. simplify_eq. rewrite Ho. by intros ?.
Qed.

Lemma deregister_leaves_no_record name w key c :
  cmdRegistry (Parser.deregister name true w).2 !! key = Some c ->
  cmd_originalName c ≠ Some name /\ cmdRegistry w !! key = Some c.
Proof.
  simpl. intros [Hc Hp]%map_lookup_filter_Some. done.
Qed.


(** ** The dispatcher *)

(** *** Validation does not depend on the heap *)

Lemma stable_ret v : stable (mret v).
Proof. by intros w w' _. Qed.

Lemma keeps_ret {A} (a : A) : keepsRegistry (mret a).
Proof. by intros w. Qed.

Lemma stable_invalid this pass code value :
  stable (Legacy.invalid this pass code value).
Proof.
  intros w w' _. destruct (localize pass) as [loc|] eqn:Hl.
  - by rewrite !(invalid_eq _ _ loc).
  - by rewrite !invalid_throw.
Qed.

Lemma keeps_invalid this pass code value :
  keepsRegistry (Legacy.invalid this pass code value).
Proof.
  intros w. destruct (localize pass) as [loc|] eqn:Hl.
  - by rewrite (invalid_eq _ _ loc).
  - by rewrite invalid_throw.
Qed.

Lemma stable_if (b : bool) (m1 m2 : M jsval) :
  stable m1 -> stable m2 -> stable (if b then m1 else m2).
Proof. by destruct b. Qed.

Lemma keeps_if {A} (b : bool) (m1 m2 : M A) :
  keepsRegistry m1 -> keepsRegistry m2 -> keepsRegistry (if b then m1 else m2).
Proof. by destruct b. Qed.

Lemma keeps_bind {A B} (m : M A) (k : A -> M B) :
  keepsRegistry m -> (forall a, keepsRegistry (k a)) -> keepsRegistry (m ≫= k).
Proof.
  intros Hm Hk w. unfold mbind, M_bind. specialize (Hm w).
  destruct (m w) as [[a|e] w1]; simpl in *; [|done].
  by rewrite Hk.
Qed.

Lemma stable_bind (m : M jsval) (k : jsval -> M jsval) :
  stable m -> keepsRegistry m ->
  (forall v v', eraseId v = eraseId v' ->
     forall w w', cmdRegistry w = cmdRegistry w' ->
       eraseOutcome (k v w).1 = eraseOutcome (k v' w').1) ->
  stable (m ≫= k).
Proof.
  intros Hm Hkeep Hk w w' Hreg. unfold mbind, M_bind.
  pose proof (Hm w w' Hreg) as Ho.
  pose proof (Hkeep w) as H1. pose proof (Hkeep w') as H2.
  destruct (m w) as [[v|e] w1], (m w') as [[v'|e'] w1']; simpl in *;
    simplify_eq; try done.
  apply Hk; [congruence|congruence].
Qed.

Lemma execInput_erased v v' : eraseId v = eraseId v' -> execInput v = execInput v'.
Proof.
  destruct v as [p|c|e], v' as [p'|c'|e']; simpl; intros Hv;
    try discriminate; try (by injection Hv as ->).
  injection Hv as Hm _ _. unfold errorToString. by rewrite Hm.
Qed.

Ltac stable_step :=
  first [ apply stable_ret | apply stable_invalid | apply stable_if
        | apply keeps_ret | apply keeps_invalid | apply keeps_if ].

Lemma stable_string this token pass :
  stable (Legacy.StringArgument_getValue this token pass).
Proof.
  unfold Legacy.StringArgument_getValue. destruct token; repeat stable_step.
Qed.

Lemma keeps_string this token pass :
  keepsRegistry (Legacy.StringArgument_getValue this token pass).
Proof.
  unfold Legacy.StringArgument_getValue. destruct token; repeat stable_step.
Qed.

Lemma getValue_keeps this token pass :
  keepsRegistry (Legacy.getValue this token pass).
Proof.
  unfold Legacy.getValue. destruct (arg_class this).
  - apply keeps_ret.
  - apply keeps_string.
  - unfold Legacy.UserArgument_getValue.
    apply keeps_bind; [apply keeps_string|]. intros v. repeat stable_step.
  - unfold Legacy.SubredditArgument_getValue.
    apply keeps_bind; [apply keeps_string|]. intros v. repeat stable_step.
  - unfold Legacy.command_getValue. destruct token; [|apply keeps_ret].
    apply keeps_bind; [done|]. intros reg.
    destruct (reg !! s); repeat stable_step.
  - unfold Legacy.custom_getValue. by destruct (arg_custom this).
  - unfold Legacy.duration_getValue. destruct token; [|apply keeps_ret].
    destruct (dur s); repeat stable_step.
  - unfold Legacy.integer_getValue. destruct token; [|apply keeps_ret].
    destruct (Js.parseInt s); repeat stable_step.
Qed.

Lemma getValue_stable this token pass :
  stable (Legacy.getValue this token pass).
Proof.
  unfold Legacy.getValue. destruct (arg_class this).
  - apply stable_ret.
  - apply stable_string.
  - unfold Legacy.UserArgument_getValue.
    apply stable_bind; [apply stable_string|apply keeps_string|].
    intros v v' Hv. rewrite (execInput_erased v v' Hv).
    refine (_ : stable _). repeat stable_step.
  - unfold Legacy.SubredditArgument_getValue.
    apply stable_bind; [apply stable_string|apply keeps_string|].
    intros v v' Hv. rewrite (execInput_erased v v' Hv).
    refine (_ : stable _). repeat stable_step.
  - unfold Legacy.command_getValue. destruct token; [|apply stable_ret].
    intros w w' Hreg. unfold mbind, M_bind, getRegistry. rewrite Hreg.
    destruct (cmdRegistry w' !! s) as [c|]; [|by apply stable_invalid].
    destruct (negb (arg_allowAlias this) && _); [by apply stable_invalid|done].
  - unfold Legacy.custom_getValue. by destruct (arg_custom this).
  - unfold Legacy.duration_getValue. destruct token; [|apply stable_ret].
    destruct (dur s); repeat stable_step.
  - unfold Legacy.integer_getValue. destruct token; [|apply stable_ret].
    destruct (Js.parseInt s); repeat stable_step.
Qed.

(** *** Validation returns *)

Lemma total_ret {A} (a : A) : total (mret a).
Proof. intros w. by eexists _, _. Qed.

Lemma total_if {A} (b : bool) (m1 m2 : M A) :
  total m1 -> total m2 -> total (if b then m1 else m2).
Proof. by destruct b. Qed.

Lemma total_bind {A B} (m : M A) (k : A -> M B) :
  total m -> (forall a, total (k a)) -> total (m ≫= k).
Proof.
  intros Hm Hk w. destruct (Hm w) as (a & w1 & Ha).
  destruct (Hk a w1) as (b & w2 & Hb).
  exists b, w2. unfold mbind, M_bind. by rewrite Ha.
Qed.

Lemma total_invalid this pass loc code value :
  localize pass = Some loc -> total (Legacy.invalid this pass code value).
Proof. intros Hl w. rewrite (invalid_eq _ _ loc) by done. by eexists _, _. Qed.

Lemma getValue_total this token pass loc :
  localize pass = Some loc ->
  (arg_class this = ClsCustom -> is_Some (arg_custom this)) ->
  total (Legacy.getValue this token pass).
Proof.
  intros Hl Hc.
  pose proof (total_invalid this pass loc) as Hinv.
  assert (total (Legacy.StringArgument_getValue this token pass)) as Hstr.
  { unfold Legacy.StringArgument_getValue.
    destruct token; repeat first [apply total_ret | apply total_if | by apply Hinv]. }
  unfold Legacy.getValue. destruct (arg_class this).
  - apply total_ret.
  - done.
  - unfold Legacy.UserArgument_getValue. apply total_bind; [done|]. intros v.
    repeat first [apply total_ret | apply total_if | by apply Hinv].
  - unfold Legacy.SubredditArgument_getValue. apply total_bind; [done|]. intros v.
    repeat first [apply total_ret | apply total_if | by apply Hinv].
  - unfold Legacy.command_getValue. destruct token; [|apply total_ret].
    apply total_bind; [intros w; by eexists _, _|]. intros reg.
    destruct (reg !! s);
      repeat first [apply total_ret | apply total_if | by apply Hinv].
  - destruct Hc as [f Hf]; [done|]. unfold Legacy.custom_getValue. rewrite Hf.
    intros w. by eexists _, _.
  - unfold Legacy.duration_getValue. destruct token; [|apply total_ret].
    destruct (dur s); [apply total_ret|by apply Hinv].
  - unfold Legacy.integer_getValue. destruct token; [|apply total_ret].
    destruct (Js.parseInt s);
      repeat first [apply total_ret | apply total_if | by apply Hinv].
Qed.

Lemma getWithDefault_total this token pass loc :
  localize pass = Some loc ->
  (arg_class this = ClsCustom -> is_Some (arg_custom this)) ->
  total (Legacy.getWithDefault this token pass).
Proof.
  intros Hl Hc. unfold Legacy.getWithDefault.
  apply total_bind; [by eapply getValue_total|]. intros v.
  apply total_if; [by eapply total_invalid|].
  destruct (arg_choices this); [|apply total_ret].
  apply total_if; [apply total_ret|by eapply total_invalid].
Qed.

Lemma getWithDefault_keeps this token pass :
  keepsRegistry (Legacy.getWithDefault this token pass).
Proof.
  unfold Legacy.getWithDefault.
  apply keeps_bind; [apply getValue_keeps|]. intros v.
  apply keeps_if; [apply keeps_invalid|].
  destruct (arg_choices this); repeat stable_step.
Qed.

Lemma isUndefined_erased v v' :
  eraseId v = eraseId v' -> isUndefined v = isUndefined v'.
Proof.
  destruct v as [p|c|e], v' as [p'|c'|e']; simpl; intros Hv;
    try discriminate; try done; by injection Hv as ->.
Qed.

Lemma getWithDefault_verdict this token pass loc w w' :
  localize pass = Some loc ->
  cmdRegistry w = cmdRegistry w' ->
  verdict (Legacy.getWithDefault this token pass w).1
    = verdict (Legacy.getWithDefault this token pass w').1.
Proof.
  intros Hl Hreg. unfold Legacy.getWithDefault, mbind, M_bind.
  pose proof (getValue_stable this token pass w w' Hreg) as Hv.
  destruct (Legacy.getValue this token pass w) as [[v|e] w1],
           (Legacy.getValue this token pass w') as [[v'|e'] w1'];
    simpl in Hv; try discriminate; [|done].
  injection Hv as Hv. rewrite (isUndefined_erased v v' Hv).
  destruct (arg_required this && isUndefined v').
  { by rewrite !(invalid_eq _ _ loc). }
  unfold Legacy.defaulter. destruct (negb (primTruthy (arg_default this))); simpl.
  - destruct (arg_choices this) as [choices|].
    + destruct v as [p|c|e], v' as [p'|c'|e']; simpl in Hv; try discriminate.
      * injection Hv as ->. destruct (includes choices _); [done|].
        by rewrite !(invalid_eq _ _ loc).
      * injection Hv as ->. destruct (includes choices _); [done|].
        by rewrite !(invalid_eq _ _ loc).
      * destruct (includes choices (VError e)), (includes choices (VError e'));
          by rewrite ?(invalid_eq _ _ loc).
    + destruct v as [p|c|e], v' as [p'|c'|e']; simpl in *; try discriminate; done.
  - assert (match v with
            | undefined | VError _ => VPrim (arg_default this)
            | _ => v
            end
            = match v' with
              | undefined | VError _ => VPrim (arg_default this)
              | _ => v'
              end) as ->.
    { destruct v as [[]|c|e], v' as [[]|c'|e']; simpl in *; try discriminate;
        try done; by injection Hv as ->. }
    destruct (arg_choices this) as [choices|]; [|done].
    destruct (includes choices _); [done|].
    by rewrite !(invalid_eq _ _ loc).
Qed.

Lemma get_eq this token pass w :
  send pass = true ->
  Legacy.get this token pass w =
    match Legacy.getWithDefault this token pass w with
    | (Ret (VError e), w1) =>
        (Ret {| success := false; value := undefined |},
         setTrace (Sent (err_message e) :: trace w1) w1)
    | (Ret v, w1) => (Ret {| success := true; value := v |}, w1)
    | (Throw e, w1) => (Throw e, w1)
    end.
Proof.
  intros Hs. unfold Legacy.get, mbind, M_bind.
  destruct (Legacy.getWithDefault this token pass w) as [[[p|c|e]|e] w1];
    try done. by rewrite Hs.
Qed.

Lemma accepts_verdict w this token pass :
  send pass = true ->
  accepts w this token pass
    = default false (verdict (Legacy.getWithDefault this token pass w).1).
Proof.
  intros Hs. unfold accepts. rewrite get_eq by done.
  by destruct (Legacy.getWithDefault this token pass w) as [[[p|c|e]|e] w1].
Qed.

Lemma accepts_stable w w' this token pass loc :
  localize pass = Some loc -> send pass = true ->
  cmdRegistry w = cmdRegistry w' ->
  accepts w this token pass = accepts w' this token pass.
Proof.
  intros Hl Hs Hreg. rewrite !accepts_verdict by done.
  by rewrite (getWithDefault_verdict this token pass loc w w').
Qed.

Lemma allAccepted_stable w w' arguments args pass loc : forall index,
  localize pass = Some loc -> send pass = true ->
  cmdRegistry w = cmdRegistry w' ->
  allAccepted w arguments index args pass
    = allAccepted w' arguments index args pass.
Proof.
  induction arguments as [|a rest IH]; intros index Hl Hs Hreg; [done|].
  simpl. by rewrite (accepts_stable w w' _ _ _ loc), IH.
Qed.

(** *** Validation invokes no handler *)

Lemma silent_ret {A} (a : A) : silent (mret a).
Proof. by intros w. Qed.

Lemma silent_invalid this pass code value :
  silent (Legacy.invalid this pass code value).
Proof.
  intros w. destruct (localize pass) as [loc|] eqn:Hl.
  - by rewrite (invalid_eq _ _ loc).
  - by rewrite invalid_throw.
Qed.

Lemma silent_if {A} (b : bool) (m1 m2 : M A) :
  silent m1 -> silent m2 -> silent (if b then m1 else m2).
Proof. by destruct b. Qed.

Lemma silent_bind {A B} (m : M A) (k : A -> M B) :
  silent m -> (forall a, silent (k a)) -> silent (m ≫= k).
Proof.
  intros Hm Hk w. unfold mbind, M_bind. specialize (Hm w).
  destruct (m w) as [[a|e] w1]; simpl in *; [|done].
  by rewrite Hk.
Qed.

Ltac silent_step :=
  first [ apply silent_ret | apply silent_invalid | apply silent_if ].

Lemma getValue_silent this token pass :
  silent (Legacy.getValue this token pass).
Proof.
  assert (silent (Legacy.StringArgument_getValue this token pass)) as Hstr.
  { unfold Legacy.StringArgument_getValue. destruct token; repeat silent_step. }
  unfold Legacy.getValue. destruct (arg_class this).
  - apply silent_ret.
  - done.
  - unfold Legacy.UserArgument_getValue.
    apply silent_bind; [done|]. intros v. repeat silent_step.
  - unfold Legacy.SubredditArgument_getValue.
    apply silent_bind; [done|]. intros v. repeat silent_step.
  - unfold Legacy.command_getValue. destruct token; [|apply silent_ret].
    apply silent_bind; [done|]. intros reg.
    destruct (reg !! s); repeat silent_step.
  - unfold Legacy.custom_getValue. by destruct (arg_custom this).
  - unfold Legacy.duration_getValue. destruct token; [|apply silent_ret].
    destruct (dur s); repeat silent_step.
  - unfold Legacy.integer_getValue. destruct token; [|apply silent_ret].
    destruct (Js.parseInt s); repeat silent_step.
Qed.

Lemma getWithDefault_silent this token pass :
  silent (Legacy.getWithDefault this token pass).
Proof.
  unfold Legacy.getWithDefault.
  apply silent_bind; [apply getValue_silent|]. intros v.
  apply silent_if; [apply silent_invalid|].
  destruct (arg_choices this); repeat silent_step.
Qed.

(** *** The pipeline *)

Lemma get_total this token pass loc w :
  localize pass = Some loc -> send pass = true ->
  (arg_class this = ClsCustom -> is_Some (arg_custom this)) ->
  exists got w',
    Legacy.get this token pass w = (Ret got, w')
    /\ success got = accepts w this token pass
    /\ cmdRegistry w' = cmdRegistry w
    /\ handlerCalls (trace w') = handlerCalls (trace w).
Proof.
  intros Hl Hs Hc. unfold accepts. rewrite get_eq by done.
  pose proof (getWithDefault_keeps this token pass w) as Hk.
  pose proof (getWithDefault_silent this token pass w) as Hq.
  destruct (getWithDefault_total this token pass loc Hl Hc w) as (v & w1 & Hv).
  rewrite Hv in *. simpl in Hk, Hq.
  destruct v as [p|c|e]; by eexists _, _.
Qed.

Lemma parser_validate_run arguments args pass loc : forall index acc w,
  localize pass = Some loc -> send pass = true ->
  customsCallable arguments ->
  exists argsObj w',
    Parser.validate arguments index args pass acc w
      = (Ret (argsObj, acc.2 && allAccepted w arguments index args pass), w')
    /\ cmdRegistry w' = cmdRegistry w
    /\ handlerCalls (trace w') = handlerCalls (trace w).
Proof.
  induction arguments as [|a rest IH]; intros index acc w Hl Hs Hc.
  - exists acc.1, w. simpl. rewrite andb_true_r. by destruct acc.
  - apply Forall_cons in Hc as [Ha Hrest].
    destruct (get_total a (args !! index) pass loc w Hl Hs Ha)
      as (got & w1 & Hget & Hok & Hreg1 & Hq1).
    destruct (IH (S index)
                (assign (arg_key a) (value got)
                   (assign (camelCase (arg_key a)) (value got) acc.1),
                 if negb (success got) then false else acc.2)
                w1 Hl Hs Hrest) as (argsObj & w' & Hrun & Hreg' & Hq').
    exists argsObj, w'. split; [|split; congruence].
    simpl. unfold mbind, M_bind. rewrite Hget, Hrun. simpl.
    rewrite (allAccepted_stable w1 w _ _ _ loc) by done.
    rewrite <- Hok. do 2 f_equal. f_equal.
    by destruct (success got), acc.2.
Qed.

Lemma legacy_validate_run arguments args pass loc : forall index acc w,
  localize pass = Some loc -> send pass = true ->
  customsCallable arguments ->
  exists argsObj w',
    Legacy.validate arguments index args pass acc w
      = (Ret (argsObj, acc.2 && allAccepted w arguments index args pass), w')
    /\ cmdRegistry w' = cmdRegistry w
    /\ handlerCalls (trace w') = handlerCalls (trace w).
Proof.
  induction arguments as [|a rest IH]; intros index acc w Hl Hs Hc.
  - exists acc.1, w. simpl. rewrite andb_true_r. by destruct acc.
  - apply Forall_cons in Hc as [Ha Hrest].
    destruct (get_total a (args !! index) pass loc w Hl Hs Ha)
      as (got & w1 & Hget & Hok & Hreg1 & Hq1).
    destruct (IH (S index)
                (assign (arg_key a) (value got) acc.1,
                 if negb (success got) then false else acc.2)
                w1 Hl Hs Hrest) as (argsObj & w' & Hrun & Hreg' & Hq').
    exists argsObj, w'. split; [|split; congruence].
    simpl. unfold mbind, M_bind. rewrite Hget, Hrun. simpl.
    rewrite (allAccepted_stable w1 w _ _ _ loc) by done.
    rewrite <- Hok. do 2 f_equal. f_equal.
    by destruct (success got), acc.2.
Qed.

Lemma permissionGate_run cmdSource argsObj w :
  exists w',
    Parser.permissionGate cmdSource argsObj w
      = (Ret (permitted (passed argsObj) cmdSource), w')
    /\ cmdRegistry w' = cmdRegistry w
    /\ handlerCalls (trace w') = handlerCalls (trace w).
Proof.
  unfold Parser.permissionGate, permitted.
  destruct (testPermission (passed argsObj)) as [test|]; [|by eexists].
  destruct (negb (cmd_permissionless cmdSource)); [|by eexists].
  destruct (test _); simpl; [by eexists|].
  destruct (localize (passed argsObj)); [|by eexists].
  destruct (send (passed argsObj)); by eexists.
Qed.

(** The handler runs exactly when the predicates accept and there is a
    handler. *)
Lemma checkAndRun_run cmdSource argsObj w :
  exists w',
    Legacy.checkAndRun cmdSource argsObj w = (Ret tt, w')
    /\ handlerCalls (trace w')
       = handlerCalls (trace w) + runsOf cmdSource argsObj.
Proof.
  unfold Legacy.checkAndRun, Legacy.run, runsOf, checksAccept.
  destruct (cmd_check cmdSource) as [|f|fs]; destruct (cmd_handler cmdSource);
    try destruct (predicate f argsObj);
    try destruct (List.forallb _ fs); eexists; (split; [reflexivity|]);
    simpl; lia.
Qed.

Lemma parser_parse_known command pass loc cmdSource w :
  localize pass = Some loc -> send pass = true ->
  customsCallable (cmd_arguments cmdSource) ->
  commandToken command ≠ "" ->
  cmdRegistry w !! commandToken command = Some cmdSource ->
  exists argsObj w',
    Parser.parse command pass w
      = (Ret (if permitted pass cmdSource
                 && allAccepted w (cmd_arguments cmdSource) 0
                      (argumentTokens command cmdSource) pass
              then Some argsObj else None), w')
    /\ handlerCalls (trace w')
       = handlerCalls (trace w)
         + (if permitted pass cmdSource
               && allAccepted w (cmd_arguments cmdSource) 0
                    (argumentTokens command cmdSource) pass
            then runsOf cmdSource argsObj else 0).
Proof.
  intros Hl Hs Hc Htok Hcmd. unfold Parser.parse.
  change (Js.take _ (Js.trim command)) with (commandToken command).
  apply truthy_nonempty in Htok. rewrite Htok.
  unfold mbind at 1, M_bind, getRegistry. rewrite Hcmd.
  destruct (permissionGate_run cmdSource {| passed := pass; assigned := ∅ |} w)
    as (w1 & Hgate & Hreg1 & Hq1).
  unfold mbind at 1, M_bind. rewrite Hgate. simpl passed.
  destruct (parser_validate_run (cmd_arguments cmdSource)
              (argumentTokens command cmdSource) pass loc 0
              ({| passed := pass; assigned := ∅ |}, permitted pass cmdSource)
              w1 Hl Hs Hc) as (argsObj & w2 & Hval & Hreg2 & Hq2).
  unfold argumentTokens, firstSpace in Hval.
  unfold mbind at 1, M_bind. rewrite Hval. simpl.
  rewrite (allAccepted_stable w1 w _ _ _ loc) by done.
  fold (firstSpace command). fold (argumentTokens command cmdSource).
  destruct (permitted pass cmdSource && _).
  - destruct (checkAndRun_run cmdSource argsObj w2) as (w3 & Hrun & Hq3).
    unfold mbind, M_bind. rewrite Hrun. exists argsObj, w3.
    split; [done|]. lia.
  - exists argsObj, w2. split; [done|]. lia.
Qed.

(** Without a command token, or with one the registry does not know,
    [Parser.parse] returns no object and changes nothing. *)
Lemma parser_parse_unknown command pass w :
  commandToken command = "" \/ cmdRegistry w !! commandToken command = None ->
  Parser.parse command pass w = (Ret None, w).
Proof.
  intros Hno. unfold Parser.parse.
  change (Js.take _ (Js.trim command)) with (commandToken command).
  destruct (Js.truthy (commandToken command)) eqn:Ht; [|done].
  destruct Hno as [Hempty|Hnone].
  - by rewrite Hempty in Ht.
  - unfold mbind, M_bind, getRegistry. by rewrite Hnone.
Qed.

Lemma legacy_parse_known command pass loc token args cmdSource w :
  localize pass = Some loc -> send pass = true ->
  customsCallable (cmd_arguments cmdSource) ->
  Legacy.matchParts (Js.trim command) = Some (token :: args) ->
  cmdRegistry w !! token = Some cmdSource ->
  exists argsObj w',
    Legacy.parse command pass w
      = (Ret (if allAccepted w (cmd_arguments cmdSource) 0 args pass
              then Some argsObj else None), w')
    /\ handlerCalls (trace w')
       = handlerCalls (trace w)
         + (if allAccepted w (cmd_arguments cmdSource) 0 args pass
            then runsOf cmdSource argsObj else 0).
Proof.
  intros Hl Hs Hc Hparts Hcmd. unfold Legacy.parse. rewrite Hparts. simpl.
  unfold mbind at 1, M_bind, getRegistry. rewrite Hcmd.
  destruct (legacy_validate_run (cmd_arguments cmdSource) args pass loc 0
              ({| passed := pass; assigned := ∅ |}, true) w Hl Hs Hc)
    as (argsObj & w2 & Hval & Hreg2 & Hq2).
  unfold mbind at 1, M_bind. rewrite Hval. simpl.
  destruct (allAccepted w _ _ _ _).
  - destruct (checkAndRun_run cmdSource argsObj w2) as (w3 & Hrun & Hq3).
    unfold mbind, M_bind. rewrite Hrun. exists argsObj, w3.
    split; [done|]. lia.
  - exists argsObj, w2. split; [done|]. lia.
Qed.

(** C1, as amended.  For a known command (a non-empty command token that
    the registry resolves), with a host that localizes and sends,
    [Parser.parse] returns, and it returns the assembled argument object
    exactly when the permission gate lets the command through and every
    argument accepts its token, whatever the predicates of [check] answer
    and whether or not the handler runs: with the object returned, the
    handler has run once if the predicates accept and there is a handler,
    and not at all otherwise.  When the gate rejects or one validation
    fails, [parse] returns no object and the handler has not run. *)
Theorem parse_returns_object_iff_valid command pass loc cmdSource w :
  localize pass = Some loc -> send pass = true ->
  customsCallable (cmd_arguments cmdSource) ->
  commandToken command ≠ "" ->
  cmdRegistry w !! commandToken command = Some cmdSource ->
  exists result w',
    Parser.parse command pass w = (Ret result, w')
    /\ (is_Some result <->
         permitted pass cmdSource = true
         /\ allAccepted w (cmd_arguments cmdSource) 0
              (argumentTokens command cmdSource) pass = true)
    /\ (forall argsObj, result = Some argsObj ->
          handlerCalls (trace w')
            = handlerCalls (trace w) + runsOf cmdSource argsObj)
    /\ (result = None -> handlerCalls (trace w') = handlerCalls (trace w)).
Proof.
  intros Hl Hs Hc Htok Hcmd.
  destruct (parser_parse_known command pass loc cmdSource w Hl Hs Hc Htok Hcmd)
    as (argsObj & w' & Hrun & Hcalls).
  eexists _, w'. split; [exact Hrun|].
  destruct (permitted pass cmdSource), (allAccepted _ _ _ _ _); simpl in *.
  - split; [split; eauto|]. split; [|done].
    intros o Ho. by injection Ho as <-.
  - split; [split; [by intros [? ?]|by intros [_ ?]]|].
    split; [done|]. intros _. lia.
  - split; [split; [by intros [? ?]|by intros [? _]]|].
    split; [done|]. intros _. lia.
  - split; [split; [by intros [? ?]|by intros [? _]]|].
    split; [done|]. intros _. lia.
Qed.

(** *** A required argument without a token *)

Lemma required_absent_token_fails this pass loc w :
  arg_required this = true ->
  arg_class this <> ClsUserArgument ->
  arg_class this <> ClsSubredditArgument ->
  (arg_class this = ClsCustom -> is_Some (arg_custom this)) ->
  localize pass = Some loc ->
  exists e w',
    Legacy.getWithDefault this None pass w = (Ret (VError e), w')
    /\ err_code e = "ARGUMENT_REQUIRED".
Proof.
  intros Hr Hu Hs Hc Hl.
  destruct (absent_token_other_classes this pass w Hu Hs Hc) as (w1 & Hv & _).
  unfold Legacy.getWithDefault, mbind, M_bind. rewrite Hv, Hr. simpl.
  rewrite (invalid_eq _ _ loc) by done. by eexists _, _.
Qed.

Lemma allAccepted_refused w arguments args pass : forall i index argument,
  arguments !! i = Some argument ->
  accepts w argument (args !! (index + i)) pass = false ->
  allAccepted w arguments index args pass = false.
Proof.
  induction arguments as [|a rest IH]; intros i index argument Hi Hno; [done|].
  simpl. destruct i as [|i]; simpl in Hi.
  - injection Hi as ->. rewrite Nat.add_0_r in Hno. by rewrite Hno.
  - rewrite (IH i (S index) argument Hi); [apply andb_false_r|].
    by replace (S index + i) with (index + S i) by lia.
Qed.

(** For the classes other than user and subreddit, a required argument
    without a token makes [Parser.parse] return no object and leaves the
    handler alone. *)
Lemma parser_required_argument_without_token
    command pass loc cmdSource w i argument :
  localize pass = Some loc -> send pass = true ->
  customsCallable (cmd_arguments cmdSource) ->
  commandToken command ≠ "" ->
  cmdRegistry w !! commandToken command = Some cmdSource ->
  cmd_arguments cmdSource !! i = Some argument ->
  arg_required argument = true ->
  arg_class argument <> ClsUserArgument ->
  arg_class argument <> ClsSubredditArgument ->
  argumentTokens command cmdSource !! i = None ->
  exists w',
    Parser.parse command pass w = (Ret None, w')
    /\ handlerCalls (trace w') = handlerCalls (trace w).
Proof.
  intros Hl Hs Hc Htok Hcmd Hi Hr Hu Hsub Hnone.
  assert (arg_class argument = ClsCustom -> is_Some (arg_custom argument)) as Hcust.
  { eapply Forall_forall in Hc; [exact Hc|]. by eapply list_elem_of_lookup_2. }
  assert (accepts w argument (argumentTokens command cmdSource !! (0 + i)) pass
          = false) as Hno.
  { simpl. rewrite Hnone, accepts_verdict by done.
    destruct (required_absent_token_fails argument pass loc w Hr Hu Hsub Hcust Hl)
      as (e & w1 & -> & _). reflexivity. }
  destruct (parser_parse_known command pass loc cmdSource w Hl Hs Hc Htok Hcmd)
    as (argsObj & w' & Hrun & Hcalls).
  rewrite (allAccepted_refused _ _ _ _ i 0 argument Hi Hno), andb_false_r in Hrun, Hcalls.
  exists w'. split; [done|lia].
Qed.

End Proofs.

(** ** Runs on concrete input *)

Section Runs.
Import Sample.

#[local] Existing Instance environment.

Lemma worldAB_valid arguments : heapValid (worldAB arguments).
Proof.
  split; [|split].
  - intros a [arr Ha]. unfold worldAB in Ha. cbn [arrays] in Ha.
    apply lookup_singleton_Some in Ha as [<- _]. simpl. lia.
  - intros a arr Ha. unfold worldAB in Ha. cbn [arrays] in Ha.
    apply lookup_singleton_Some in Ha as [_ <-].
    by repeat constructor.
  - intros c s Hs. unfold worldAB in Hs. cbn [specs] in Hs.
    apply lookup_singleton_Some in Hs as [_ <-]. split.
    + by exists "a".
    + intros a Ha. injection Ha as <-. by eexists.
Qed.


(** C1 as stated fails: the command is known, its required argument is
    attempted and refused (the message is sent), and both parsers return
    [undefined] instead of the assembled object. *)
Lemma parse_returns_nothing_after_failed_validation :
  cmdRegistry (greetWorld "generic") !! "greet" = Some (greet "generic")
  /\ Parser.parse "greet" host (greetWorld "generic")
     = (Ret None,
        setTrace [Sent (Some "argument_required")]
          (setNextId 3 (greetWorld "generic")))
  /\ Legacy.parse "greet" host (greetWorld "generic")
     = (Ret None,
        setTrace [Sent (Some "argument_required")]
          (setNextId 3 (greetWorld "generic"))).
Proof. split; [reflexivity|]. split; vm_compute; reflexivity. Qed.

Lemma parse_returns_object_iff_valid_witness :
  localize host = Some echo
  /\ send host = true
  /\ customsCallable (cmd_arguments (greet "generic"))
  /\ commandToken "greet bob" ≠ ""
  /\ cmdRegistry (greetWorld "generic") !! commandToken "greet bob"
     = Some (greet "generic")
  /\ exists result w',
       Parser.parse "greet bob" host (greetWorld "generic") = (Ret result, w')
       /\ (is_Some result <->
            permitted host (greet "generic") = true
            /\ allAccepted (greetWorld "generic")
                 (cmd_arguments (greet "generic")) 0
                 (argumentTokens "greet bob" (greet "generic")) host = true)
       /\ (forall argsObj, result = Some argsObj ->
             handlerCalls (trace w')
               = handlerCalls (trace (greetWorld "generic"))
                 + runsOf (greet "generic") argsObj)
       /\ (result = None ->
           handlerCalls (trace w') = handlerCalls (trace (greetWorld "generic"))).
Proof.
  assert (customsCallable (cmd_arguments (greet "generic"))) as Hc.
  { repeat constructor. intros Hcls. discriminate Hcls. }
  assert (commandToken "greet bob" ≠ "") as Ht.
  { vm_compute. discriminate. }
  repeat (split; [first [reflexivity | assumption]|]).
  exact (parse_returns_object_iff_valid "greet bob" host
           echo (greet "generic") (greetWorld "generic")
           eq_refl eq_refl Hc Ht eq_refl).
Defined.

(** C4, at the input where the code departs from it.  The command has a
    required argument of type user (for [Parser.parse]: subreddit) and the
    input has no token for it; validation does not fail, nothing is sent,
    the handler is invoked, and the argument reaches it as the string
    "undefined".  [required_absent_token_fails] and
    [parser_required_argument_without_token] above show the other classes
    failing with ARGUMENT_REQUIRED and the handler left alone. *)
Theorem required_user_argument_without_token_runs_handler :
  arg_required (Legacy.toArgument (Plain (requiredArgument "who" "user"))) = true
  /\ (exists argsObj,
        Legacy.parse "greet" host (greetWorld "user")
          = (Ret (Some argsObj), setTrace [Ran 7 argsObj] (greetWorld "user"))
        /\ assigned argsObj !! "who" = Some (VPrim (PStr "undefined")))
  /\ (exists argsObj,
        Parser.parse "greet" host (greetWorld "subreddit")
          = (Ret (Some argsObj), setTrace [Ran 7 argsObj] (greetWorld "subreddit"))
        /\ assigned argsObj !! "who" = Some (VPrim (PStr "undefined"))).
Proof.
  split; [reflexivity|].
  split; eexists; split; vm_compute; reflexivity.
Qed.

(** C6, at the input where the code departs from it.  A command argument
    specified with [allowAlias: false] is constructed with [allowAlias]
    true, and resolving the alias "b" of the command "a" returns the record
    filed under "b" instead of failing.
    [command_getValue_absent_key] above shows a token absent from the
    registry failing with COMMAND_ARGUMENT_NONEXISTENT. *)
Theorem allowAlias_false_still_returns_alias :
  as_allowAlias noAliasArgument = Some false
  /\ arg_allowAlias (Legacy.toArgument (Plain noAliasArgument)) = true
  /\ exists cmd,
       Legacy.getValue (Legacy.toArgument (Plain noAliasArgument)) (Some "b")
         host registeredAB = (Ret (VCommand cmd), registeredAB)
       /\ cmd_name cmd = Some "b"
       /\ cmd_originalName cmd = Some "a".
Proof.
  split; [reflexivity|]. split; [reflexivity|].
  eexists. split; [vm_compute; reflexivity|]. split; reflexivity.
Qed.

(** Why a valid specification has no empty alias: the constructor reads the
    name with [name || command], so the record filed under the empty string
    is not named by its key; its [originalName] is the canonical name all
    the same. *)
Lemma empty_alias_is_not_named_by_its_key :
  exists c,
    cmdRegistry (Legacy.register 1 worldBlank).2 !! "" = Some c
    /\ cmd_name c = None
    /\ cmd_originalName c = Some "a".
Proof. eexists. split; [vm_compute; reflexivity|]. split; reflexivity. Qed.



Lemma bounds_are_exclusive_witness :
  localize host = Some echo
  /\ primTruthy (as_default boundedArgument) = false
  /\ as_choices boundedArgument = None
  /\ (exists e w',
        Legacy.getWithDefault (Legacy.newStringArgument boundedArgument)
          (Some "abc") host emptyWorld = (Ret (VError e), w')
        /\ err_code e = "STRING_ARGUMENT_TOO_SHORT")
  /\ Legacy.getWithDefault (Legacy.newStringArgument boundedArgument)
       (Some "abcd") host emptyWorld = (Ret (VPrim (PStr "abcd")), emptyWorld)
  /\ (exists e w',
        Legacy.getWithDefault (Legacy.newIntegerArgument boundedArgument)
          (Some "10") host emptyWorld = (Ret (VError e), w')
        /\ err_code e = "INTEGER_ARGUMENT_TOO_HIGH")
  /\ Legacy.getWithDefault (Legacy.newIntegerArgument boundedArgument)
       (Some "9") host emptyWorld = (Ret (VPrim (PNum 9)), emptyWorld).
Proof.
  do 3 (split; [reflexivity|]).
  destruct (bounds_are_exclusive boundedArgument host echo
              emptyWorld eq_refl eq_refl eq_refl) as [Hstring Hinteger].
  destruct (Hstring eq_refl eq_refl eq_refl "abc") as [Hshort _].
  destruct (Hstring eq_refl eq_refl eq_refl "abcd") as [_ Hfits].
  destruct (Hinteger eq_refl eq_refl) as [Hhigh Hbelow].
  split; [exact (Hshort eq_refl)|]. split; [exact (Hfits eq_refl)|].
  split; [exact Hhigh|exact Hbelow].
Defined.

Lemma worldAB_fresh arguments : heapFresh (worldAB arguments).
Proof. apply worldAB_valid. Qed.

Lemma deregister_removes_name_and_aliases_witness :
  specs (worldAB []) !! 1 = Some (plainCommand "a" (Some 0) [])
  /\ Legacy.findName (plainCommand "a" (Some 0) []) = Some "a"
  /\ Js.truthy "a" = true
  /\ declaredAliases (worldAB []) (plainCommand "a" (Some 0) []) = Some ["b"]
  /\ heapFresh (worldAB [])
  /\ (exists w1 w2,
        Parser.registerSingle 1 (worldAB []) = (Ret (cmdRegistry w1), w1)
        /\ Parser.deregister "a" true w1 = (Ret (cmdRegistry w2), w2)
        /\ forall key, key ∈ ["a"; "b"] -> cmdRegistry w2 !! key = None)
  /\ (forall v, filedUnder "a" ["b"] v ->
        exists v',
          Parser.deregister "a" true v = (Ret (cmdRegistry v'), v')
          /\ forall key, key ∈ ["a"; "b"] -> cmdRegistry v' !! key = None).
Proof.
  do 4 (split; [reflexivity|]). split; [apply worldAB_fresh|].
  exact (deregister_removes_name_and_aliases (worldAB []) 1
           (plainCommand "a" (Some 0) []) "a" ["b"]
           eq_refl eq_refl eq_refl eq_refl (worldAB_fresh [])).
Defined.


Lemma choices_mask_parse_failure_witness :
  arg_choices levelArgument = Some [PNum 1; PNum 2]
  /\ primTruthy (arg_default levelArgument) = false
  /\ (forall id, PObj id ∈ [PNum 1; PNum 2] -> id < nextId emptyWorld)
  /\ Legacy.getValue levelArgument (Some "abc") host emptyWorld
     = (Ret (VError levelError), setNextId 1 emptyWorld)
  /\ err_code levelError = "INTEGER_ARGUMENT_INVALID"
  /\ exists e w',
       Legacy.getWithDefault levelArgument (Some "abc") host emptyWorld
         = (Ret (VError e), w')
       /\ err_code e = "ARGUMENT_UNAVAILABLE_CHOICE"
       /\ (send host = true ->
           exists w'',
             Legacy.get levelArgument (Some "abc") host emptyWorld
               = (Ret {| success := false; value := undefined |}, w'')
             /\ trace w'' = Sent (err_message e) :: trace (setNextId 1 emptyWorld)).
Proof.
  assert (forall id, PObj id ∈ [PNum 1; PNum 2] -> id < nextId emptyWorld) as Hold.
  { intros id Hin. apply elem_of_cons in Hin as [Hin|Hin]; [discriminate Hin|].
    apply list_elem_of_singleton in Hin. discriminate Hin. }
  do 2 (split; [reflexivity|]). split; [exact Hold|].
  do 2 (split; [reflexivity|]).
  exact (choices_mask_parse_failure levelArgument (Some "abc") host
           [PNum 1; PNum 2] levelError emptyWorld (setNextId 1 emptyWorld)
           eq_refl eq_refl Hold eq_refl).
Defined.

End Runs.

(** * Further properties *)

Ltac in_list :=
  repeat first [apply list_elem_of_here | apply list_elem_of_further].

Section More.
Context `{Environment}.

(** ** More on the argument types *)

(** X1.  [getWithDefault] with a truthy default that the choices allow (or
    no choices): when [getValue] returned an error, or returned [undefined]
    for an argument that is not required, the default is returned in its
    place, the state is the one [getValue] left and [get] succeeds with the
    default without sending anything. *)
Theorem default_replaces_absent_or_failed this token pass v w w1 :
  primTruthy (arg_default this) = true ->
  defaultAllowed this ->
  Legacy.getValue this token pass w = (Ret v, w1) ->
  isError v = true \/ (isUndefined v = true /\ arg_required this = false) ->
  Legacy.getWithDefault this token pass w = (Ret (VPrim (arg_default this)), w1)
  /\ Legacy.get this token pass w
     = (Ret {| success := true; value := VPrim (arg_default this) |}, w1).
Proof.
  intros Hd Hc Hg Hv.
  assert (Legacy.getWithDefault this token pass w
          = (Ret (VPrim (arg_default this)), w1)) as Hwd.
  { unfold Legacy.getWithDefault, mbind, M_bind. rewrite Hg.
    assert (arg_required this && isUndefined v = false) as ->.
    { destruct Hv as [Hv|[_ ->]]; [|done].
      destruct v; try discriminate. apply andb_false_r. }
    assert (Legacy.defaulter v (arg_default this) = VPrim (arg_default this)) as ->.
    { unfold Legacy.defaulter. rewrite Hd. simpl.
      destruct Hv as [Hv|[Hv _]]; destruct v as [[]| |]; try discriminate; done. }
    unfold defaultAllowed in Hc. destruct (arg_choices this); [by rewrite Hc|done]. }
  split; [done|]. unfold Legacy.get, mbind, M_bind. by rewrite Hwd.
Qed.

(** X2.  Without choices, a value [getValue] parsed is returned as it is:
    a default never replaces a value that is neither [undefined] nor an
    error, and a falsy default (0, the empty string, [false], [null]) is
    ignored, so that an optional argument without token stays
    [undefined]. *)
Theorem parsed_value_is_kept_and_falsy_default_ignored this token pass v w w1 :
  arg_choices this = None ->
  Legacy.getValue this token pass w = (Ret v, w1) ->
  isError v = false ->
  (isUndefined v = false \/
   (primTruthy (arg_default this) = false /\ arg_required this = false)) ->
  Legacy.getWithDefault this token pass w = (Ret v, w1)
  /\ Legacy.get this token pass w = (Ret {| success := true; value := v |}, w1).
Proof.
  intros Hc Hg He Hv.
  assert (Legacy.getWithDefault this token pass w = (Ret v, w1)) as Hwd.
  { unfold Legacy.getWithDefault, mbind, M_bind. rewrite Hg, Hc.
    assert (arg_required this && isUndefined v = false) as ->.
    { destruct Hv as [->|[_ ->]]; [apply andb_false_r|done]. }
    unfold Legacy.defaulter.
    destruct Hv as [Hv|[-> _]]; [|done].
    destruct (negb (primTruthy (arg_default this))); [done|].
    by destruct v as [[]| |]. }
  split; [done|]. unfold Legacy.get, mbind, M_bind. rewrite Hwd.
  by destruct v.
Qed.

(** X3.  A required argument without a token fails with ARGUMENT_REQUIRED
    whatever its default and its choices are (the classes user and
    subreddit apart): the test on [required] comes before [defaulter].
    [get] then reports failure with the value [undefined] and sends the
    message of the error. *)
Theorem required_wins_over_default this pass loc w :
  arg_required this = true ->
  arg_class this <> ClsUserArgument ->
  arg_class this <> ClsSubredditArgument ->
  (arg_class this = ClsCustom -> is_Some (arg_custom this)) ->
  localize pass = Some loc ->
  send pass = true ->
  exists e w1 w',
    Legacy.getWithDefault this None pass w = (Ret (VError e), w1)
    /\ err_code e = "ARGUMENT_REQUIRED"
    /\ Legacy.get this None pass w
       = (Ret {| success := false; value := undefined |}, w')
    /\ trace w' = Sent (err_message e) :: trace w1.
Proof.
  intros Hr Hu Hs Hc Hl Hsend.
  destruct (required_absent_token_fails this pass loc w Hr Hu Hs Hc Hl)
    as (e & w1 & Hwd & Hcode).
  exists e, w1. eexists. split; [done|]. split; [done|].
  unfold Legacy.get, mbind, M_bind. rewrite Hwd, Hsend. simpl. done.
Qed.

(** X4.  When an argument has choices, every value [getWithDefault]
    returns that is not an error is one of the choices; this holds for the
    default too. *)
Theorem accepted_value_is_a_choice this token pass choices v w w' :
  arg_choices this = Some choices ->
  Legacy.getWithDefault this token pass w = (Ret v, w') ->
  isError v = false ->
  includes choices v = true.
Proof.
  intros Hc. unfold Legacy.getWithDefault, mbind, M_bind.
  destruct (Legacy.getValue this token pass w) as [[v0|e0] w0]; [|done].
  destruct (arg_required this && isUndefined v0).
  { destruct (localize pass) as [loc|] eqn:Hl.
    - rewrite (invalid_eq _ _ loc) by done. intros Hr. by injection Hr as <- _.
    - by rewrite invalid_throw. }
  rewrite Hc. destruct (includes choices _) eqn:Hin.
  { intros Hr. by injection Hr as <- _. }
  destruct (localize pass) as [loc|] eqn:Hl.
  - rewrite (invalid_eq _ _ loc) by done. intros Hr. by injection Hr as <- _.
  - by rewrite invalid_throw.
Qed.

(** X5.  A string argument with both bounds set (and no pattern) accepts
    exactly the tokens whose length lies strictly between [minLength] and
    [maxLength]; the upper bound is tested first, so a length that breaks
    both bounds fails with STRING_ARGUMENT_TOO_LONG, and
    STRING_ARGUMENT_TOO_SHORT is left for the lengths below the upper
    bound. *)
Theorem string_accepts_strictly_between
    (spec : ArgumentSpec) lo hi token pass loc w :
  as_minLength spec = Some lo -> as_maxLength spec = Some hi ->
  as_matches spec = None ->
  (lo <> 0)%Z -> (hi <> 0)%Z ->
  localize pass = Some loc ->
  ((lo < Z.of_nat (String.length token) < hi)%Z ->
     Legacy.getValue (Legacy.newStringArgument spec) (Some token) pass w
       = (Ret (VPrim (PStr token)), w))
  /\ ((hi <= Z.of_nat (String.length token))%Z ->
      exists e w',
        Legacy.getValue (Legacy.newStringArgument spec) (Some token) pass w
          = (Ret (VError e), w')
        /\ err_code e = "STRING_ARGUMENT_TOO_LONG")
  /\ ((Z.of_nat (String.length token) < hi)%Z ->
      (Z.of_nat (String.length token) <= lo)%Z ->
      exists e w',
        Legacy.getValue (Legacy.newStringArgument spec) (Some token) pass w
          = (Ret (VError e), w')
        /\ err_code e = "STRING_ARGUMENT_TOO_SHORT").
Proof.
  intros Hmin Hmax Hm Hm0 HM0 Hl.
  set (len := Z.of_nat (String.length token)).
  unfold Legacy.getValue, Legacy.StringArgument_getValue. simpl.
  rewrite Hmin, Hmax, Hm. simpl.
  destruct (Z.eqb_spec lo 0) as [|_]; [done|].
  destruct (Z.eqb_spec hi 0) as [|_]; [done|]. simpl. fold len.
  split; [|split].
  - intros [H1 H2].
    destruct (Z.leb_spec hi len); [lia|]. destruct (Z.leb_spec len lo); [lia|]. done.
  - intros H1. destruct (Z.leb_spec hi len); [|lia].
    rewrite (invalid_eq _ _ loc) by done. by eexists _, _.
  - intros H1 H2. destruct (Z.leb_spec hi len); [lia|].
    destruct (Z.leb_spec len lo); [|lia].
    rewrite (invalid_eq _ _ loc) by done. by eexists _, _.
Qed.

(** X6.  A string argument never accepts the empty token, unless its
    [minLength] is negative: the default lower bound is 0 and the
    comparison is [<=]. *)
Theorem string_refuses_the_empty_token (spec : ArgumentSpec) pass loc w :
  (forall m, as_minLength spec = Some m -> (0 <= m)%Z) ->
  localize pass = Some loc ->
  exists e w',
    Legacy.getValue (Legacy.newStringArgument spec) (Some "") pass w
      = (Ret (VError e), w').
Proof.
  intros Hmin Hl.
  unfold Legacy.getValue, Legacy.StringArgument_getValue. simpl.
  destruct (negb _); [rewrite (invalid_eq _ _ loc) by done; by eexists _, _|].
  destruct (geBound _ _); [rewrite (invalid_eq _ _ loc) by done; by eexists _, _|].
  assert (leBound (Z.of_nat 0) (numberOr (as_minLength spec) (Finite 0)) = true) as ->.
  { unfold numberOr. destruct (as_minLength spec) as [m|]; [|done].
    specialize (Hmin m eq_refl). destruct (Z.eqb_spec m 0); [done|].
    simpl. apply Z.leb_le. lia. }
  rewrite (invalid_eq _ _ loc) by done. by eexists _, _.
Qed.



Lemma invalid_returns_error this pass code value w v w' :
  Legacy.invalid this pass code value w = (Ret v, w') -> isError v = true.
Proof.
  destruct (localize pass) as [loc|] eqn:Hl.
  - rewrite (invalid_eq _ _ loc) by done. intros Hr. by injection Hr as <- _.
  - by rewrite invalid_throw.
Qed.

(** X9.  Whatever the token, a value returned by [getValue] of a user
    argument that is not an error is a string of three to twenty word
    characters or hyphens, and one returned for a subreddit argument is a
    string of three to twenty word characters that starts with a letter or
    digit. *)
Theorem user_and_subreddit_values_are_names this token pass v w w' :
  arg_class this = ClsUserArgument \/ arg_class this = ClsSubredditArgument ->
  Legacy.getValue this token pass w = (Ret v, w') ->
  isError v = false ->
  exists s, v = VPrim (PStr s)
    /\ match arg_class this with
       | ClsUserArgument => userName s
       | _ => subredditName s
       end.
Proof.
  intros Hcls Hg Hv. unfold Legacy.getValue in Hg.
  destruct Hcls as [Hcls|Hcls]; rewrite Hcls in *; simpl.
  - unfold Legacy.UserArgument_getValue, mbind, M_bind in Hg.
    destruct (Legacy.StringArgument_getValue this token pass w) as [[str|e] w1];
      [|done].
    set (noU := Js.execAfterPrefix "u" (execInput str)) in *.
    destruct (Js.testUserName noU) eqn:Htest;
      [|apply invalid_returns_error in Hg; congruence].
    destruct (Nat.ltb_spec (String.length noU) 3);
      [apply invalid_returns_error in Hg; congruence|].
    destruct (Nat.ltb_spec 20 (String.length noU));
      [apply invalid_returns_error in Hg; congruence|].
    injection Hg as <- _. exists noU. split; [done|]. split; [done|lia].
  - unfold Legacy.SubredditArgument_getValue, mbind, M_bind in Hg.
    destruct (Legacy.StringArgument_getValue this token pass w) as [[str|e] w1];
      [|done].
    set (noR := Js.execAfterPrefix "r" (execInput str)) in *.
    destruct (Js.testSubredditName noR) eqn:Htest;
      [|apply invalid_returns_error in Hg; congruence].
    destruct (Nat.ltb_spec (String.length noR) 3);
      [apply invalid_returns_error in Hg; congruence|].
    destruct (Nat.ltb_spec 20 (String.length noR));
      [apply invalid_returns_error in Hg; congruence|].
    injection Hg as <- _. exists noR. split; [done|]. split; [done|lia].
Qed.

Lemma takeWhile_all (p q : ascii -> bool) s :
  (forall c, p c = true -> q c = true) ->
  Js.forallb p s = true -> Js.takeWhile q s = s.
Proof.
  intros Hpq. induction s as [|c r IH]; simpl; [done|].
  intros [Hc Hr]%andb_true_iff. rewrite (Hpq c Hc). by rewrite IH.
Qed.

Lemma word_is_no_terminator c :
  Js.isWord c || (nat_of_ascii c =? 45) = true ->
  negb (Js.isLineTerminator c) = true.
Proof. destruct c as [[] [] [] [] [] [] [] []]; vm_compute; done. Qed.

Lemma word_is_no_slash c :
  Js.isWord c || (nat_of_ascii c =? 45) = true -> c <> "/"%char.
Proof. destruct c as [[] [] [] [] [] [] [] []]; vm_compute; done. Qed.

Lemma isWord_or_hyphen c :
  Js.isWord c = true -> Js.isWord c || (nat_of_ascii c =? 45) = true.
Proof. by intros ->. Qed.

(** The words the two name tests accept are left alone by [exec]: no
    line terminator ends them and no slash follows their first
    character. *)
Lemma execAfterPrefix_plain p s :
  Js.forallb (fun c => Js.isWord c || (nat_of_ascii c =? 45)) s = true ->
  Js.execAfterPrefix p s = s.
Proof.
  intros Hs. unfold Js.execAfterPrefix.
  assert (match s with
          | String c (String "/" r) =>
              if Ascii.eqb (Js.upperChar c) (Js.upperChar p) then r else s
          | _ => s
          end = s) as ->.
  { destruct s as [|c1 [|c2 r]]; try done.
    simpl in Hs. apply andb_true_iff in Hs as [_ [H2 _]%andb_true_iff].
    apply word_is_no_slash in H2.
    destruct c2 as [[] [] [] [] [] [] [] []]; try done. }
  apply (takeWhile_all _ _ _ word_is_no_terminator Hs).
Qed.

Lemma execAfterPrefix_strip p c s :
  Ascii.eqb (Js.upperChar c) (Js.upperChar p) = true ->
  Js.forallb (fun c => Js.isWord c || (nat_of_ascii c =? 45)) s = true ->
  Js.execAfterPrefix p (String c (String "/" s)) = s.
Proof.
  intros Hc Hs. unfold Js.execAfterPrefix. rewrite Hc.
  apply (takeWhile_all _ _ _ word_is_no_terminator Hs).
Qed.

Lemma forallb_impl (p q : ascii -> bool) s :
  (forall c, p c = true -> q c = true) ->
  Js.forallb p s = true -> Js.forallb q s = true.
Proof.
  intros Hpq. induction s as [|c r IH]; simpl; [done|].
  intros [Hc Hr]%andb_true_iff. by rewrite (Hpq c Hc), IH.
Qed.

Lemma userName_words s :
  Js.testUserName s = true ->
  Js.forallb (fun c => Js.isWord c || (nat_of_ascii c =? 45)) s = true.
Proof. unfold Js.testUserName. by intros [_ ?]%andb_true_iff. Qed.

Lemma subredditName_words s :
  Js.testSubredditName s = true ->
  Js.forallb (fun c => Js.isWord c || (nat_of_ascii c =? 45)) s = true.
Proof.
  destruct s as [|c r]; simpl; [done|].
  intros [[Hc _]%andb_true_iff Hr]%andb_true_iff.
  apply andb_true_iff. split.
  - unfold Js.isWord. by rewrite Hc.
  - by apply (forallb_impl _ _ _ isWord_or_hyphen).
Qed.

(** The string rules at their defaults let every non-empty token through. *)
Lemma freeText_getValue (spec : ArgumentSpec) cls token pass w :
  freeText spec ->
  token <> "" ->
  Legacy.StringArgument_getValue
    (Legacy.withClass cls (Legacy.newStringArgument spec)) (Some token) pass w
    = (Ret (VPrim (PStr token)), w).
Proof.
  intros (Hmin & Hmax & Hm) Hne.
  unfold Legacy.StringArgument_getValue. simpl. rewrite Hmin, Hmax, Hm. simpl.
  destruct token; [done|]. simpl.
  destruct (Z.leb_spec (Z.pos (Pos.of_succ_nat (String.length token))) 0); [lia|done].
Qed.

(** X10.  With the string rules left at their defaults, a user argument
    returns the same name for the tokens [name], [u/name] and [U/name], and
    a subreddit argument for [name], [r/name] and [R/name]; the world is
    left as it was. *)
Theorem prefix_is_stripped_from_names (spec : ArgumentSpec) u r pass w :
  freeText spec ->
  userName u ->
  subredditName r ->
  Forall (fun token =>
            Legacy.getValue (Legacy.newUserArgument spec) (Some token) pass w
              = (Ret (VPrim (PStr u)), w))
         [u; "u/" ++ u; "U/" ++ u]
  /\ Forall (fun token =>
              Legacy.getValue (Legacy.newSubredditArgument spec) (Some token) pass w
                = (Ret (VPrim (PStr r)), w))
           [r; "r/" ++ r; "R/" ++ r].
Proof.
  intros Hfree [Hu Hulen] [Hr Hrlen].
  pose proof (userName_words u Hu) as Huw.
  pose proof (subredditName_words r Hr) as Hrw.
  assert (forall token noU,
    token <> "" -> Js.execAfterPrefix "u" token = noU -> userName noU ->
    Legacy.getValue (Legacy.newUserArgument spec) (Some token) pass w
      = (Ret (VPrim (PStr noU)), w)) as Huser.
  { intros token noU Hne Hexec [Htest Hlen].
    unfold Legacy.getValue, Legacy.newUserArgument. simpl.
    unfold Legacy.UserArgument_getValue, mbind, M_bind.
    rewrite freeText_getValue by done. simpl. rewrite Hexec, Htest.
    destruct (Nat.ltb_spec (String.length noU) 3); [lia|].
    destruct (Nat.ltb_spec 20 (String.length noU)); [lia|done]. }
  assert (forall token noR,
    token <> "" -> Js.execAfterPrefix "r" token = noR -> subredditName noR ->
    Legacy.getValue (Legacy.newSubredditArgument spec) (Some token) pass w
      = (Ret (VPrim (PStr noR)), w)) as Hsub.
  { intros token noR Hne Hexec [Htest Hlen].
    unfold Legacy.getValue, Legacy.newSubredditArgument. simpl.
    unfold Legacy.SubredditArgument_getValue, mbind, M_bind.
    rewrite freeText_getValue by done. simpl. rewrite Hexec, Htest.
    destruct (Nat.ltb_spec (String.length noR) 3); [lia|].
    destruct (Nat.ltb_spec 20 (String.length noR)); [lia|done]. }
  rewrite !Forall_cons, !Forall_nil. repeat split.
  - apply Huser; [by destruct u|by apply execAfterPrefix_plain|done].
  - apply Huser; [done|by apply (execAfterPrefix_strip "u" "u")|done].
  - apply Huser; [done|by apply (execAfterPrefix_strip "u" "U")|done].
  - apply Hsub; [by destruct r|by apply execAfterPrefix_plain|done].
  - apply Hsub; [done|by apply (execAfterPrefix_strip "r" "r")|done].
  - apply Hsub; [done|by apply (execAfterPrefix_strip "r" "R")|done].
Qed.

(** X11.  An error returned by [getValue] of a user or subreddit argument
    was made by that class and carries one of its three codes: the error of
    a failed string rule (pattern, length) is handed to [exec] as text and
    never returned. *)
Theorem string_rule_codes_never_leave_a_name_argument this token pass e w w' :
  arg_class this = ClsUserArgument \/ arg_class this = ClsSubredditArgument ->
  Legacy.getValue this token pass w = (Ret (VError e), w') ->
  err_sourceArg e = arg_class this
  /\ err_code e ∈ match arg_class this with
                  | ClsUserArgument =>
                      ["USER_ARGUMENT_TOO_SHORT"; "USER_ARGUMENT_TOO_LONG";
                       "USER_ARGUMENT_INVALID"]
                  | _ =>
                      ["SUBREDDIT_ARGUMENT_TOO_SHORT"; "SUBREDDIT_ARGUMENT_TOO_LONG";
                       "SUBREDDIT_ARGUMENT_INVALID"]
                  end.
Proof.
  intros Hcls Hg. unfold Legacy.getValue in Hg.
  assert (forall code w0,
    Legacy.invalid this pass code token w0 = (Ret (VError e), w') ->
    err_sourceArg e = arg_class this /\ err_code e = Js.toUpperCase code) as Hinv.
  { intros code w0 Hi. destruct (localize pass) as [loc|] eqn:Hl.
    - rewrite (invalid_eq _ _ loc) in Hi by done. by injection Hi as <- _.
    - by rewrite invalid_throw in Hi. }
  destruct Hcls as [Hcls|Hcls]; rewrite Hcls in *.
  - unfold Legacy.UserArgument_getValue, mbind, M_bind in Hg.
    destruct (Legacy.StringArgument_getValue this token pass w) as [[str|?] w1];
      [|done].
    destruct (Js.testUserName _);
      [destruct (_ <? 3); [|destruct (20 <? _); [|done]]|];
      apply Hinv in Hg as [-> ->]; (split; [done|]); simpl; in_list.
  - unfold Legacy.SubredditArgument_getValue, mbind, M_bind in Hg.
    destruct (Legacy.StringArgument_getValue this token pass w) as [[str|?] w1];
      [|done].
    destruct (Js.testSubredditName _);
      [destruct (_ <? 3); [|destruct (20 <? _); [|done]]|];
      apply Hinv in Hg as [-> ->]; (split; [done|]); simpl; in_list.
Qed.

(** X12.  A custom argument calls its function once with the token and
    discards the result: [getValue] returns [undefined].  A required custom
    argument therefore fails with ARGUMENT_REQUIRED for every token, and an
    optional one without choices yields its default when that is truthy and
    [undefined] otherwise. *)
Theorem custom_result_is_discarded this token pass loc f w :
  arg_class this = ClsCustom ->
  arg_custom this = Some f ->
  localize pass = Some loc ->
  Legacy.getValue this token pass w
    = (Ret undefined, setTrace (CalledCustom f token :: trace w) w)
  /\ (arg_required this = true ->
      Legacy.getWithDefault this token pass w
        = (Ret (VError (errorAt (nextId w) loc "argument_required" this token)),
           setNextId (S (nextId w)) (setTrace (CalledCustom f token :: trace w) w)))
  /\ (arg_required this = false -> arg_choices this = None ->
      Legacy.getWithDefault this token pass w
        = (Ret (if primTruthy (arg_default this) then VPrim (arg_default this)
                else undefined),
           setTrace (CalledCustom f token :: trace w) w)).
Proof.
  intros Hcls Hf Hl.
  assert (Legacy.getValue this token pass w
          = (Ret undefined, setTrace (CalledCustom f token :: trace w) w)) as Hg.
  { unfold Legacy.getValue, Legacy.custom_getValue. by rewrite Hcls, Hf. }
  split; [done|]. split.
  - intros Hr. unfold Legacy.getWithDefault, mbind, M_bind. rewrite Hg, Hr. simpl.
    by rewrite (invalid_eq _ _ loc).
  - intros Hr Hc. unfold Legacy.getWithDefault, mbind, M_bind.
    rewrite Hg, Hr, Hc. simpl. unfold Legacy.defaulter.
    by destruct (primTruthy (arg_default this)).
Qed.


(** ** More on the registry *)

(** X14.  A specification whose [name] and [command] are absent or empty
    is refused: [register] of the single-file parser throws an [Error],
    [registerSingle] a [CommandError] with the code MISSING_COMMAND_NAME,
    and so does [register] for an array that starts with it; nothing has
    been changed when the exception leaves. *)
Theorem register_refuses_a_nameless_specification w cmd spec rest :
  specs w !! cmd = Some spec ->
  nameless spec ->
  Legacy.register cmd w = (Throw (Error "A command must have a name."), w)
  /\ Parser.registerSingle cmd w
     = (Throw (CommandError "Commands must have names." "MISSING_COMMAND_NAME"), w)
  /\ Parser.register (inr (cmd :: rest)) w
     = (Throw (CommandError "Commands must have names." "MISSING_COMMAND_NAME"), w).
Proof.
  intros Hs Hno.
  assert (forall resolve noName,
    registerWith resolve noName cmd w = (Throw noName, w)) as Hgen.
  { intros resolve noName. unfold registerWith, mbind, M_bind, readSpec.
    rewrite Hs. unfold nameless, Legacy.findName in Hno.
    destruct (Js.or (spec_name spec) (spec_command spec)) as [name|]; [|done].
    by rewrite (Hno name eq_refl). }
  split; [by rewrite legacy_register_with|].
  assert (Parser.registerSingle cmd w
          = (Throw (CommandError "Commands must have names." "MISSING_COMMAND_NAME"),
             w)) as Hsingle.
  { by rewrite parser_registerSingle_with. }
  split; [done|]. simpl. unfold mbind, M_bind. by rewrite Hsingle.
Qed.






(** X17.  In a registry whose records carry their key as name,
    [deregister(name, false)] removes the record filed under [name] and no
    other; the aliases of the command stay registered. *)
Theorem deregister_without_alternatives_deletes_one_key name w :
  registryNamed (cmdRegistry w) ->
  Parser.deregister name false w
    = (Ret (delete name (cmdRegistry w)),
       setRegistry (delete name (cmdRegistry w)) w).
Proof.
  intros Hreg.
  assert (filter (fun entry : string * Command => cmd_name entry.2 ≠ Some name)
            (cmdRegistry w) = delete name (cmdRegistry w)) as Heq.
  { apply map_eq. intros key. destruct (decide (key = name)) as [->|Hne].
    - rewrite lookup_delete_eq. apply map_lookup_filter_None. right.
      intros c Hc. simpl. rewrite (Hreg name c Hc). by intros ?.
    - rewrite lookup_delete_ne by done.
      destruct (cmdRegistry w !! key) as [c|] eqn:Hc.
      + apply map_lookup_filter_Some. split; [done|]. simpl.
        rewrite (Hreg key c Hc). congruence.
      + apply map_lookup_filter_None. by left. }
  unfold Parser.deregister. monad_unfold. simpl. by rewrite Heq.
Qed.

Lemma setRegistry_same w : setRegistry (cmdRegistry w) w = w.
Proof. by destruct w. Qed.

(** X18.  [deregister(alias, true)] compares [originalName] with its
    argument: called with an alias of a command just registered (and no
    command of that canonical name), it removes nothing, neither the alias
    nor the command. *)
Theorem deregister_by_alias_removes_nothing w cmd spec name declared alias :
  specs w !! cmd = Some spec ->
  Legacy.findName spec = Some name ->
  Js.truthy name = true ->
  declaredAliases w spec = Some declared ->
  heapFresh w ->
  alias ≠ name ->
  (forall key c, cmdRegistry w !! key = Some c -> cmd_originalName c ≠ Some alias) ->
  exists w1,
    Parser.registerSingle cmd w = (Ret (cmdRegistry w1), w1)
    /\ Parser.deregister alias true w1 = (Ret (cmdRegistry w1), w1).
Proof.
  intros Hs Hn Ht Hd Hf Hne Hold.
  exists (registered gatedCommand cmd name spec declared w). split.
  - rewrite parser_registerSingle_with.
    by eapply registerWith_eq; eauto using resolveCommand_builds.
  - unfold Parser.deregister. monad_unfold. simpl.
    rewrite map_filter_id; [by rewrite setRegistry_same|].
    intros key c Hc. simpl.
    destruct (decide (key ∈ name :: declared)) as [Hin|Hnin].
    + destruct (registered_lookup gatedCommand gatedCommand_names w cmd spec name
                  declared Ht key Hin) as (c' & Hc' & _ & Ho).
      rewrite Hc in Hc'. simplify_eq. rewrite Ho. congruence.
    + erewrite registered_other in Hc by done. by eapply Hold.
Qed.

(** X19.  [deregister] returns the new registry, which is part of the old
    one, touches nothing else of the state, keeps records named by their
    key, and leaves no record whose [originalName] (with alternatives) or
    [name] (without) is the name given. *)
Theorem deregister_only_removes name includeAlternatives w :
  exists w',
    Parser.deregister name includeAlternatives w = (Ret (cmdRegistry w'), w')
    /\ cmdRegistry w' ⊆ cmdRegistry w
    /\ sameHeap w w'
    /\ (registryNamed (cmdRegistry w) -> registryNamed (cmdRegistry w'))
    /\ (forall key c, cmdRegistry w' !! key = Some c ->
          (if includeAlternatives then cmd_originalName c else cmd_name c)
            ≠ Some name).
Proof.
  destruct includeAlternatives; (eexists; split; [reflexivity|]); simpl.
  - split; [apply map_filter_subseteq|]. split; [done|]. split.
    + intros Hreg key c [Hc _]%map_lookup_filter_Some. by apply Hreg.
    + by intros key c [_ Hc]%map_lookup_filter_Some.
  - split; [apply map_filter_subseteq|]. split; [done|]. split.
    + intros Hreg key c [Hc _]%map_lookup_filter_Some. by apply Hreg.
    + by intros key c [_ Hc]%map_lookup_filter_Some.
Qed.

(** X20.  After [clear] the registry is empty and the rest of the state
    is as before: [parse] returns [undefined] for every command line and
    every host without sending or running anything, and [deregister]
    returns the empty registry. *)
Theorem nothing_is_known_after_clear w :
  exists w0,
    Parser.clear w = (Ret tt, w0)
    /\ sameHeap w w0
    /\ Parser.getCommandRegistry w0 = (Ret ∅, w0)
    /\ (forall command pass, Parser.parse command pass w0 = (Ret None, w0))
    /\ (forall name includeAlternatives,
          Parser.deregister name includeAlternatives w0 = (Ret ∅, w0)).
Proof.
  exists (setRegistry ∅ w). split; [done|]. split; [done|]. split; [done|]. split.
  - intros command pass. apply parser_parse_unknown. right. apply lookup_empty.
  - intros name [|]; unfold Parser.deregister; monad_unfold; simpl;
      by rewrite map_filter_empty.
Qed.

(** ** More on the dispatcher *)

Lemma adds_ret {A} P (a : A) : adds P (mret a).
Proof. intros w. by exists []. Qed.

Lemma adds_invalid P this pass code value :
  adds P (Legacy.invalid this pass code value).
Proof.
  intros w. exists []. split; [|done]. destruct (localize pass) as [loc|] eqn:Hl.
  - by rewrite (invalid_eq _ _ loc).
  - by rewrite invalid_throw.
Qed.

Lemma adds_if {A} P (b : bool) (m1 m2 : M A) :
  adds P m1 -> adds P m2 -> adds P (if b then m1 else m2).
Proof. by destruct b. Qed.

Lemma adds_bind {A B} P (m : M A) (k : A -> M B) :
  adds P m -> (forall a, adds P (k a)) -> adds P (m ≫= k).
Proof.
  intros Hm Hk w. unfold mbind, M_bind. destruct (Hm w) as (t & Ht & HP).
  destruct (m w) as [[a|e] w1]; simpl in *; [|by exists t].
  destruct (Hk a w1) as (t' & Ht' & HP'). exists (t' ++ t)%list.
  split; [by rewrite Ht', Ht, app_assoc|by apply Forall_app].
Qed.

Ltac adds_step :=
  first [ apply adds_ret | apply adds_invalid | apply adds_if ].

Lemma getValue_adds this token pass :
  adds isCustomCall (Legacy.getValue this token pass).
Proof.
  assert (adds isCustomCall (Legacy.StringArgument_getValue this token pass)) as Hstr.
  { unfold Legacy.StringArgument_getValue. destruct token; repeat adds_step. }
  unfold Legacy.getValue. destruct (arg_class this).
  - apply adds_ret.
  - done.
  - unfold Legacy.UserArgument_getValue.
    apply adds_bind; [done|]. intros v. repeat adds_step.
  - unfold Legacy.SubredditArgument_getValue.
    apply adds_bind; [done|]. intros v. repeat adds_step.
  - unfold Legacy.command_getValue. destruct token; [|apply adds_ret].
    apply adds_bind; [intros w; by exists []|]. intros reg.
    destruct (reg !! s); repeat adds_step.
  - unfold Legacy.custom_getValue. destruct (arg_custom this) as [f|].
    + intros w. exists [CalledCustom f token]. split; [done|].
      by apply Forall_singleton.
    + intros w. by exists [].
  - unfold Legacy.duration_getValue. destruct token; [|apply adds_ret].
    destruct (dur s); repeat adds_step.
  - unfold Legacy.integer_getValue. destruct token; [|apply adds_ret].
    destruct (Js.parseInt s); repeat adds_step.
Qed.

Lemma getWithDefault_adds this token pass :
  adds isCustomCall (Legacy.getWithDefault this token pass).
Proof.
  unfold Legacy.getWithDefault.
  apply adds_bind; [apply getValue_adds|]. intros v.
  apply adds_if; [apply adds_invalid|].
  destruct (arg_choices this); repeat adds_step.
Qed.

Lemma sentCalls_app t1 t2 : sentCalls (t1 ++ t2) = sentCalls t1 + sentCalls t2.
Proof.
  induction t1 as [|[] t1 IH]; simpl; [done|by rewrite IH|done|done].
Qed.

Lemma customCalls_quiet t :
  Forall isCustomCall t -> sentCalls t = 0 /\ Forall isNoRun t.
Proof.
  induction 1 as [|[] t Hx Ht [IH1 IH2]]; try done.
  split; [done|]. by apply Forall_cons.
Qed.

(** One argument: the events of [get] are calls of custom functions and,
    exactly when the token is refused, one message. *)
Lemma get_trace this token pass loc w :
  localize pass = Some loc -> send pass = true ->
  (arg_class this = ClsCustom -> is_Some (arg_custom this)) ->
  exists got w' t,
    Legacy.get this token pass w = (Ret got, w')
    /\ success got = accepts w this token pass
    /\ cmdRegistry w' = cmdRegistry w
    /\ trace w' = (t ++ trace w)%list
    /\ Forall isNoRun t
    /\ sentCalls t = (if accepts w this token pass then 0 else 1).
Proof.
  intros Hl Hs Hc. rewrite accepts_verdict, get_eq by done.
  pose proof (getWithDefault_keeps this token pass w) as Hk.
  destruct (getWithDefault_adds this token pass w) as (t & Ht & HP).
  destruct (getWithDefault_total this token pass loc Hl Hc w) as (v & w1 & Hv).
  rewrite Hv in *. simpl in Hk, Ht.
  destruct (customCalls_quiet t HP) as [Hq Hn].
  destruct v as [p|c|e].
  - by exists {| success := true; value := VPrim p |}, w1, t.
  - by exists {| success := true; value := VCommand c |}, w1, t.
  - eexists _, _, (Sent (err_message e) :: t). split; [done|]. simpl.
    rewrite Ht, Hq. repeat split; try done. by apply Forall_cons.
Qed.

Lemma refusals_stable w w' arguments args pass loc : forall index,
  localize pass = Some loc -> send pass = true ->
  cmdRegistry w = cmdRegistry w' ->
  refusals w arguments index args pass = refusals w' arguments index args pass.
Proof.
  induction arguments as [|a rest IH]; intros index Hl Hs Hreg; [done|].
  simpl. by rewrite (accepts_stable w w' _ _ _ loc), IH.
Qed.

Lemma parser_validate_trace arguments args pass loc : forall index acc w,
  localize pass = Some loc -> send pass = true ->
  customsCallable arguments ->
  exists argsObj w' t,
    Parser.validate arguments index args pass acc w
      = (Ret (argsObj, acc.2 && allAccepted w arguments index args pass), w')
    /\ trace w' = (t ++ trace w)%list
    /\ Forall isNoRun t
    /\ sentCalls t = refusals w arguments index args pass.
Proof.
  induction arguments as [|a rest IH]; intros index acc w Hl Hs Hc.
  - exists acc.1, w, []. simpl. rewrite andb_true_r. by destruct acc.
  - apply Forall_cons in Hc as [Ha Hrest].
    destruct (get_trace a (args !! index) pass loc w Hl Hs Ha)
      as (got & w1 & t1 & Hget & Hok & Hreg1 & Ht1 & Hn1 & Hq1).
    destruct (IH (S index)
                (assign (arg_key a) (value got)
                   (assign (camelCase (arg_key a)) (value got) acc.1),
                 if negb (success got) then false else acc.2)
                w1 Hl Hs Hrest) as (argsObj & w' & t & Hrun & Ht & Hn & Hq).
    exists argsObj, w', (t ++ t1)%list. split; [|split; [|split]].
    + simpl. unfold mbind, M_bind. rewrite Hget, Hrun. simpl.
      rewrite (allAccepted_stable w1 w _ _ _ loc) by done.
      rewrite <- Hok. do 2 f_equal. f_equal.
      by destruct (success got), acc.2.
    + by rewrite Ht, Ht1, app_assoc.
    + by apply Forall_app.
    + rewrite sentCalls_app, Hq, Hq1. simpl.
      rewrite (refusals_stable w1 w _ _ _ loc) by done. lia.
Qed.

Lemma legacy_validate_trace arguments args pass loc : forall index acc w,
  localize pass = Some loc -> send pass = true ->
  customsCallable arguments ->
  exists argsObj w' t,
    Legacy.validate arguments index args pass acc w
      = (Ret (argsObj, acc.2 && allAccepted w arguments index args pass), w')
    /\ trace w' = (t ++ trace w)%list
    /\ Forall isNoRun t
    /\ sentCalls t = refusals w arguments index args pass.
Proof.
  induction arguments as [|a rest IH]; intros index acc w Hl Hs Hc.
  - exists acc.1, w, []. simpl. rewrite andb_true_r. by destruct acc.
  - apply Forall_cons in Hc as [Ha Hrest].
    destruct (get_trace a (args !! index) pass loc w Hl Hs Ha)
      as (got & w1 & t1 & Hget & Hok & Hreg1 & Ht1 & Hn1 & Hq1).
    destruct (IH (S index)
                (assign (arg_key a) (value got) acc.1,
                 if negb (success got) then false else acc.2)
                w1 Hl Hs Hrest) as (argsObj & w' & t & Hrun & Ht & Hn & Hq).
    exists argsObj, w', (t ++ t1)%list. split; [|split; [|split]].
    + simpl. unfold mbind, M_bind. rewrite Hget, Hrun. simpl.
      rewrite (allAccepted_stable w1 w _ _ _ loc) by done.
      rewrite <- Hok. do 2 f_equal. f_equal.
      by destruct (success got), acc.2.
    + by rewrite Ht, Ht1, app_assoc.
    + by apply Forall_app.
    + rewrite sentCalls_app, Hq, Hq1. simpl.
      rewrite (refusals_stable w1 w _ _ _ loc) by done. lia.
Qed.

Lemma checkAndRun_sends_nothing cmdSource argsObj w :
  exists w', Legacy.checkAndRun cmdSource argsObj w = (Ret tt, w')
    /\ sentCalls (trace w') = sentCalls (trace w).
Proof.
  unfold Legacy.checkAndRun, Legacy.run.
  destruct (cmd_check cmdSource) as [|f|fs]; destruct (cmd_handler cmdSource);
    try destruct (predicate f argsObj);
    try destruct (List.forallb _ fs); by eexists.
Qed.

(** X21.  When the permission test rejects a known command, [parse] sends
    the localized [no_permission] notice first, goes on to validate every
    argument and to report each refusal, invokes no handler and returns
    [undefined]. *)
Theorem rejected_permission_stops_the_handler_only
    command pass loc cmdSource w :
  localize pass = Some loc -> send pass = true ->
  customsCallable (cmd_arguments cmdSource) ->
  commandToken command ≠ "" ->
  cmdRegistry w !! commandToken command = Some cmdSource ->
  permitted pass cmdSource = false ->
  exists w' t,
    Parser.parse command pass w = (Ret None, w')
    /\ trace w' = (t ++ Sent (loc "no_permission" None) :: trace w)%list
    /\ Forall isNoRun t
    /\ sentCalls t
       = refusals w (cmd_arguments cmdSource) 0 (argumentTokens command cmdSource) pass.
Proof.
  intros Hl Hs Hc Htok Hcmd Hperm. unfold Parser.parse.
  change (Js.take _ (Js.trim command)) with (commandToken command).
  apply truthy_nonempty in Htok. rewrite Htok.
  unfold mbind at 1, M_bind, getRegistry. rewrite Hcmd.
  assert (Parser.permissionGate cmdSource {| passed := pass; assigned := ∅ |} w
          = (Ret false, setTrace (Sent (loc "no_permission" None) :: trace w) w))
    as Hgate.
  { unfold permitted in Hperm. unfold Parser.permissionGate. simpl.
    destruct (testPermission pass) as [test|]; [|done].
    destruct (negb (cmd_permissionless cmdSource)); [|done].
    by rewrite Hperm, Hl, Hs. }
  unfold mbind at 1, M_bind. rewrite Hgate.
  destruct (parser_validate_trace (cmd_arguments cmdSource)
              (argumentTokens command cmdSource) pass loc 0
              ({| passed := pass; assigned := ∅ |}, false)
              (setTrace (Sent (loc "no_permission" None) :: trace w) w)
              Hl Hs Hc) as (argsObj & w2 & t & Hval & Ht & Hn & Hq).
  unfold argumentTokens, firstSpace in Hval.
  unfold mbind at 1, M_bind. rewrite Hval. simpl.
  exists w2, t. split; [done|]. split; [done|]. split; [done|].
  rewrite Hq. by apply (refusals_stable _ w _ _ _ loc).
Qed.

Lemma permissionGate_trace cmdSource pass loc assignedSoFar w :
  localize pass = Some loc -> send pass = true ->
  exists w',
    Parser.permissionGate cmdSource {| passed := pass; assigned := assignedSoFar |} w
      = (Ret (permitted pass cmdSource), w')
    /\ cmdRegistry w' = cmdRegistry w
    /\ sentCalls (trace w')
       = sentCalls (trace w) + (if permitted pass cmdSource then 0 else 1).
Proof.
  intros Hl Hs. unfold Parser.permissionGate, permitted. simpl. rewrite Hl, Hs.
  destruct (testPermission pass) as [test|]; [|eexists; by rewrite Nat.add_0_r].
  destruct (negb (cmd_permissionless cmdSource));
    [|eexists; by rewrite Nat.add_0_r].
  destruct (test _); simpl; eexists; (split; [reflexivity|]); simpl;
    (split; [done|lia]).
Qed.

(** X22.  For a known command and a host that localizes and sends, the
    number of messages [parse] sends is the number of arguments that refuse
    their token, plus one in the split-up parser when the permission test
    rejects the command; the handler and the check predicates send nothing
    through the parser. *)
Theorem every_refusal_is_reported_once command pass loc cmdSource args w :
  localize pass = Some loc -> send pass = true ->
  customsCallable (cmd_arguments cmdSource) ->
  commandToken command ≠ "" ->
  cmdRegistry w !! commandToken command = Some cmdSource ->
  Legacy.matchParts (Js.trim command) = Some (commandToken command :: args) ->
  (exists result w',
     Parser.parse command pass w = (Ret result, w')
     /\ sentCalls (trace w')
        = sentCalls (trace w)
          + (if permitted pass cmdSource then 0 else 1)
          + refusals w (cmd_arguments cmdSource) 0
              (argumentTokens command cmdSource) pass)
  /\ (exists result w',
        Legacy.parse command pass w = (Ret result, w')
        /\ sentCalls (trace w')
           = sentCalls (trace w)
             + refusals w (cmd_arguments cmdSource) 0 args pass).
Proof.
  intros Hl Hs Hc Htok Hcmd Hparts. split.
  - unfold Parser.parse.
    change (Js.take _ (Js.trim command)) with (commandToken command).
    apply truthy_nonempty in Htok. rewrite Htok.
    unfold mbind at 1, M_bind, getRegistry. rewrite Hcmd.
    destruct (permissionGate_trace cmdSource pass loc ∅ w Hl Hs)
      as (w1 & Hgate & Hreg1 & Hq1).
    unfold mbind at 1, M_bind. rewrite Hgate.
    destruct (parser_validate_trace (cmd_arguments cmdSource)
                (argumentTokens command cmdSource) pass loc 0
                ({| passed := pass; assigned := ∅ |}, permitted pass cmdSource)
                w1 Hl Hs Hc) as (argsObj & w2 & t & Hval & Ht & _ & Hq).
    unfold argumentTokens, firstSpace in Hval.
    unfold mbind at 1, M_bind. rewrite Hval. simpl.
    fold (firstSpace command). fold (argumentTokens command cmdSource).
    rewrite (refusals_stable w1 w _ _ _ loc) in Hq by done.
    assert (sentCalls (trace w2)
            = sentCalls (trace w)
              + (if permitted pass cmdSource then 0 else 1)
              + refusals w (cmd_arguments cmdSource) 0
                  (argumentTokens command cmdSource) pass) as Hcount.
    { rewrite Ht, sentCalls_app. lia. }
    destruct (permitted pass cmdSource && _).
    + destruct (checkAndRun_sends_nothing cmdSource argsObj w2) as (w3 & Hrun & Hq3).
      unfold mbind, M_bind. rewrite Hrun. eexists _, w3. split; [done|]. lia.
    + by eexists _, w2.
  - unfold Legacy.parse. rewrite Hparts. simpl.
    unfold mbind at 1, M_bind, getRegistry. rewrite Hcmd.
    destruct (legacy_validate_trace (cmd_arguments cmdSource) args pass loc 0
                ({| passed := pass; assigned := ∅ |}, true) w Hl Hs Hc)
      as (argsObj & w2 & t & Hval & Ht & _ & Hq).
    unfold mbind at 1, M_bind. rewrite Hval. simpl.
    assert (sentCalls (trace w2)
            = sentCalls (trace w)
              + refusals w (cmd_arguments cmdSource) 0 args pass) as Hcount.
    { rewrite Ht, sentCalls_app. lia. }
    destruct (allAccepted w _ _ _ _).
    + destruct (checkAndRun_sends_nothing cmdSource argsObj w2) as (w3 & Hrun & Hq3).
      unfold mbind, M_bind. rewrite Hrun. eexists _, w3. split; [done|]. lia.
    + by eexists _, w2.
Qed.








Lemma get_value_is_no_error this token pass w got w' :
  Legacy.get this token pass w = (Ret got, w') -> isError (value got) = false.
Proof.
  unfold Legacy.get, mbind, M_bind.
  destruct (Legacy.getWithDefault this token pass w) as [[[p|c|e]|e] w1].
  - by intros [= <- _].
  - by intros [= <- _].
  - unfold emit. destruct (send pass); [by intros [= <- _]|done].
  - done.
Qed.

Lemma parser_validate_object args pass :
  forall arguments index acc w obj ok w',
  Parser.validate arguments index args pass acc w = (Ret (obj, ok), w') ->
  passed obj = passed acc.1
  /\ (holdsNoError acc.1 -> holdsNoError obj)
  /\ (forall k, is_Some (assigned obj !! k)
         <-> is_Some (assigned acc.1 !! k) \/ keyed arguments k).
Proof.
  induction arguments as [|a rest IH]; intros index acc w obj ok w' Hrun.
  - simpl in Hrun. injection Hrun as Hacc _. subst acc. simpl.
    split; [done|]. split; [done|].
    intros k. split; [by left|]. intros [Hk|(a & Ha & _)]; [done|].
    by apply elem_of_nil in Ha.
  - simpl in Hrun. unfold mbind, M_bind in Hrun.
    destruct (Legacy.get a (args !! index) pass w) as [[got|e] w1] eqn:Hget;
      [|done].
    apply get_value_is_no_error in Hget.
    apply IH in Hrun as (Hp & Hne & Hkeys). simpl in *.
    split; [done|]. split.
    + intros Hacc. apply Hne. intros k v. unfold assign. simpl.
      destruct (decide (arg_key a = k)) as [<-|Hk1].
      { rewrite lookup_insert_eq. by intros [= <-]. }
      rewrite lookup_insert_ne by done.
      destruct (decide (camelCase (arg_key a) = k)) as [<-|Hk2].
      { rewrite lookup_insert_eq. by intros [= <-]. }
      rewrite lookup_insert_ne by done. apply Hacc.
    + intros k. rewrite Hkeys. unfold keyed.
      destruct (decide (arg_key a = k)) as [<-|Hk1].
      { rewrite lookup_insert_eq. split; intros _.
        - right. exists a. split; [left|by left].
        - by left. }
      rewrite lookup_insert_ne by done.
      destruct (decide (camelCase (arg_key a) = k)) as [<-|Hk2].
      { rewrite lookup_insert_eq. split; intros _.
        - right. exists a. split; [left|by right].
        - by left. }
      rewrite lookup_insert_ne by done. split.
      * intros [Hk|(b & Hb & Hkb)]; [by left|].
        right. exists b. split; [by right|done].
      * intros [Hk|(b & Hb & Hkb)]; [by left|].
        apply elem_of_cons in Hb as [->|Hb].
        -- destruct Hkb; congruence.
        -- right. by exists b.
Qed.

(** X24.  The object [parse] returns is the host's [pass] with one
    property for the key of each argument and one for its camel-cased form,
    and no other property added; none of the values is an error. *)
Theorem returned_object_holds_each_key_and_no_error
    command pass cmdSource argsObj w w' :
  cmdRegistry w !! commandToken command = Some cmdSource ->
  Parser.parse command pass w = (Ret (Some argsObj), w') ->
  passed argsObj = pass
  /\ holdsNoError argsObj
  /\ holdsTheKeys (cmd_arguments cmdSource) argsObj.
Proof.
  intros Hcmd. unfold Parser.parse.
  change (Js.take _ (Js.trim command)) with (commandToken command).
  destruct (Js.truthy (commandToken command)); [|done].
  unfold mbind at 1, M_bind, getRegistry. rewrite Hcmd.
  destruct (permissionGate_run cmdSource {| passed := pass; assigned := ∅ |} w)
    as (w1 & Hgate & _).
  unfold mbind at 1, M_bind. rewrite Hgate.
  unfold mbind at 1, M_bind.
  destruct (Parser.validate _ _ _ _ _ w1) as [[[obj ok]|e] w2] eqn:Hval; [|done].
  apply parser_validate_object in Hval as (Hp & Hne & Hkeys). simpl in *.
  destruct ok; [|done]. unfold mbind, M_bind.
  destruct (Legacy.checkAndRun cmdSource obj w2) as [[[]|e] w3]; [|done].
  intros [= <- _]. split; [done|]. split.
  - apply Hne. intros k v Hk. simpl in Hk. by rewrite lookup_empty in Hk.
  - intros k. rewrite Hkeys, lookup_empty. split; [|by right].
    intros [[? ?]|?]; done.
Qed.

(** X25.  When the host has no [localize] or no [send], a required first
    argument that is given no token makes [parse] raise a [TypeError]
    instead of returning: the failure cannot be reported.  Nothing has been
    sent and no handler has run. *)
Theorem parse_raises_when_the_host_cannot_report
    command pass cmdSource argument rest w :
  commandToken command ≠ "" ->
  cmdRegistry w !! commandToken command = Some cmdSource ->
  cmd_arguments cmdSource = argument :: rest ->
  arg_required argument = true ->
  arg_class argument ≠ ClsUserArgument ->
  arg_class argument ≠ ClsSubredditArgument ->
  (arg_class argument = ClsCustom -> is_Some (arg_custom argument)) ->
  argumentTokens command cmdSource !! 0 = None ->
  localize pass = None \/ send pass = false ->
  exists w' t,
    Parser.parse command pass w
      = (Throw (TypeError match localize pass with
                          | Some _ => "args.send is not a function"
                          | None => "args.localize is not a function"
                          end), w')
    /\ trace w' = (t ++ trace w)%list
    /\ Forall isCustomCall t.
Proof.
  intros Htok Hcmd Hargs Hr Hu Hsub Hcust Hnone Hhost. unfold Parser.parse.
  change (Js.take _ (Js.trim command)) with (commandToken command).
  apply truthy_nonempty in Htok. rewrite Htok.
  unfold mbind at 1, M_bind, getRegistry. rewrite Hcmd.
  fold (firstSpace command). fold (argumentTokens command cmdSource).
  assert (exists permitted,
    Parser.permissionGate cmdSource {| passed := pass; assigned := ∅ |} w
      = (Ret permitted, w)) as [ok Hgate].
  { unfold Parser.permissionGate. simpl.
    destruct (testPermission pass) as [test|]; [|by eexists].
    destruct (negb (cmd_permissionless cmdSource)); [|by eexists].
    destruct (negb (test _)); [|by eexists].
    destruct Hhost as [->| ->]; [by eexists|].
    destruct (localize pass); by eexists. }
  unfold mbind at 1, M_bind. rewrite Hgate, Hargs. simpl. rewrite Hnone.
  destruct (absent_token_other_classes argument pass w Hu Hsub Hcust)
    as (w1 & Hv & _).
  destruct (getValue_adds argument None pass w) as (t & Ht & HP).
  rewrite Hv in Ht. simpl in Ht.
  unfold Legacy.get, Legacy.getWithDefault, mbind, M_bind. rewrite Hv, Hr. simpl.
  destruct (localize pass) as [loc|] eqn:Hl.
  - destruct Hhost as [?|Hsend]; [done|].
    rewrite (invalid_eq _ _ loc), Hsend by done. by eexists _, t.
  - rewrite invalid_throw by done. by eexists _, t.
Qed.


End More.

(** ** The tokenizer and the usage string *)

Section Tokens.
Context `{Environment}.

Lemma extend_nonempty cur c : forall t, Legacy.extend cur c = Some t -> t ≠ "".
Proof.
  intros t [= <-]. destruct cur as [[|]|]; done.
Qed.

Lemma scan_nonempty s : forall cur inQuote,
  (forall t, cur = Some t -> t ≠ "") ->
  Forall (fun t => t ≠ "") (Legacy.scan s cur inQuote).
Proof.
  induction s as [|c r IH]; intros cur q Hcur; simpl.
  - destruct cur as [t|]; simpl; [|done]. apply Forall_singleton. by apply Hcur.
  - assert (Forall (fun t => t ≠ "") (Legacy.flush cur)) as Hflush.
    { destruct cur as [t|]; simpl; [|done]. apply Forall_singleton. by apply Hcur. }
    destruct q; [apply IH, extend_nonempty|].
    destruct (Js.isQuote c).
    + destruct (Js.existsb Js.isQuote r); [apply IH, extend_nonempty|].
      apply Forall_app. split; [done|]. by apply IH.
    + destruct (Js.isSpace c); [|apply IH, extend_nonempty].
      apply Forall_app. split; [done|]. by apply IH.
Qed.

(** X26.  When the pattern of [parse] matches at all, it yields one or
    more tokens and none of them is empty: the test [parts.length > 0]
    holds whenever it is reached. *)
Theorem tokens_are_never_empty cmd parts :
  Legacy.matchParts cmd = Some parts ->
  (0 <? length parts) = true /\ Forall (fun t => t ≠ "") parts.
Proof.
  unfold Legacy.matchParts. intros Hparts.
  pose proof (scan_nonempty cmd None false) as Hne.
  destruct (Legacy.scan cmd None false) as [|t ts]; [done|].
  injection Hparts as <-. split; [done|]. by apply Hne.
Qed.

Lemma append_cons c (a b : string) : String c a ++ b = String c (a ++ b).
Proof. reflexivity. Qed.

Lemma append_nil (b : string) : "" ++ b = b.
Proof. reflexivity. Qed.

Lemma append_assoc (a b c : string) : (a ++ b) ++ c = a ++ (b ++ c).
Proof.
  induction a as [|x a IH]; [done|]. by rewrite !append_cons, IH.
Qed.

Lemma append_empty (a : string) : a ++ "" = a.
Proof.
  induction a as [|x a IH]; [done|]. by rewrite append_cons, IH.
Qed.

Lemma scan_bare w : forall rest t,
  Js.forallb isBare w = true ->
  Legacy.scan (w ++ rest) (Some t) false = Legacy.scan rest (Some (t ++ w)) false.
Proof.
  induction w as [|c w IH]; intros rest t Hw.
  - by rewrite append_empty, append_nil.
  - simpl in Hw. apply andb_true_iff in Hw as [Hc Hw].
    unfold isBare in Hc. apply andb_true_iff in Hc as [Hs Hq].
    apply negb_true_iff in Hs, Hq. rewrite append_cons. simpl. rewrite Hq, Hs.
    unfold Legacy.extend. simpl. rewrite IH by done.
    by rewrite append_assoc, append_cons, append_nil.
Qed.

Lemma scan_in_quote body : forall rest t,
  Js.forallb (fun c => negb (Js.isQuote c)) body = true ->
  Legacy.scan (body ++ String quote rest) (Some t) true
    = Legacy.scan rest (Some (t ++ body ++ String quote "")) false.
Proof.
  induction body as [|c body IH]; intros rest t Hb.
  - done.
  - simpl in Hb. apply andb_true_iff in Hb as [Hc Hb].
    rewrite !append_cons. simpl. rewrite Hc.
    unfold Legacy.extend. simpl. rewrite IH by done.
    by rewrite append_assoc, append_cons, append_nil.
Qed.

Lemma existsb_quote_after body rest :
  Js.existsb Js.isQuote (body ++ String quote rest) = true.
Proof.
  induction body as [|c body IH]; [done|].
  rewrite append_cons. simpl. rewrite IH. apply orb_true_r.
Qed.

(** A token is read in one piece, whatever follows it. *)
Lemma scan_token t rest :
  lineToken t ->
  Legacy.scan (t ++ rest) None false = Legacy.scan rest (Some t) false.
Proof.
  intros [[Hne Hbare]|(body & Hbody & ->)].
  - destruct t as [|c w]; [done|]. simpl in Hbare.
    apply andb_true_iff in Hbare as [Hc Hw].
    unfold isBare in Hc. apply andb_true_iff in Hc as [Hs Hq].
    apply negb_true_iff in Hs, Hq. rewrite append_cons. simpl. rewrite Hq, Hs.
    unfold Legacy.extend. simpl. by rewrite scan_bare.
  - rewrite append_cons, append_assoc, append_cons, append_nil.
    change (Legacy.scan (String quote (body ++ String quote rest)) None false)
      with (if Js.existsb Js.isQuote (body ++ String quote rest)
            then Legacy.scan (body ++ String quote rest)
                   (Legacy.extend None quote) true
            else (Legacy.flush None
                  ++ Legacy.scan (body ++ String quote rest) None false)%list).
    rewrite existsb_quote_after. unfold Legacy.extend. simpl.
    by rewrite scan_in_quote.
Qed.

(** Tokens joined by single spaces are read back one by one. *)
Lemma scan_joined ws :
  Forall lineToken ws ->
  Legacy.scan (String.concat " " ws) None false = ws.
Proof.
  induction 1 as [|t ws Ht Hws IH]; [done|].
  destruct ws as [|t2 ws].
  - simpl. rewrite <- (append_empty t) at 1. by rewrite scan_token.
  - change (String.concat " " (t :: t2 :: ws))
      with (t ++ String " " (String.concat " " (t2 :: ws))).
    rewrite scan_token by done.
    set (rest := String.concat " " (t2 :: ws)) in *.
    simpl. by rewrite IH.
Qed.

Lemma trimEnd_empty_spaces s :
  Js.trimEnd s = "" -> Js.forallb Js.isSpace s = true.
Proof.
  induction s as [|c r IH]; simpl; [done|].
  destruct (Js.isSpace c); simpl; [|done].
  destruct (Js.trimEnd r); [by intros _; apply IH|done].
Qed.

Lemma space_is_no_quote c : Js.isSpace c = true -> Js.isQuote c = false.
Proof. destruct c as [[] [] [] [] [] [] [] []]; vm_compute; done. Qed.

Lemma spaces_hold_no_quote s :
  Js.forallb Js.isSpace s = true -> Js.existsb Js.isQuote s = false.
Proof.
  induction s as [|c r IH]; simpl; [done|].
  intros [Hc Hr]%andb_true_iff. by rewrite (space_is_no_quote c Hc), IH.
Qed.

Lemma scan_spaces s :
  Js.forallb Js.isSpace s = true -> Legacy.scan s None false = [].
Proof.
  induction s as [|c r IH]; simpl; [done|].
  intros [Hc Hr]%andb_true_iff. by rewrite (space_is_no_quote c Hc), Hc, IH.
Qed.

Lemma trimEnd_keeps_quotes s :
  Js.existsb Js.isQuote (Js.trimEnd s) = Js.existsb Js.isQuote s.
Proof.
  induction s as [|c r IH]; simpl; [done|].
  destruct (Js.isSpace c && Js.isEmpty (Js.trimEnd r)) eqn:Hc; simpl.
  - apply andb_true_iff in Hc as [Hc Hr].
    rewrite (space_is_no_quote c Hc). simpl. symmetry.
    apply spaces_hold_no_quote, trimEnd_empty_spaces.
    by destruct (Js.trimEnd r).
  - by rewrite IH.
Qed.

Lemma scan_trimEnd s : forall cur inQuote,
  (inQuote = true -> Js.existsb Js.isQuote s = true) ->
  Legacy.scan (Js.trimEnd s) cur inQuote = Legacy.scan s cur inQuote.
Proof.
  induction s as [|c r IH]; intros cur q Hq; simpl; [done|].
  destruct (Js.isSpace c && Js.isEmpty (Js.trimEnd r)) eqn:Hc.
  - apply andb_true_iff in Hc as [Hc Hr].
    assert (Js.forallb Js.isSpace r = true) as Hsp.
    { apply trimEnd_empty_spaces. by destruct (Js.trimEnd r). }
    destruct q.
    + specialize (Hq eq_refl). simpl in Hq.
      by rewrite (space_is_no_quote c Hc), (spaces_hold_no_quote r Hsp) in Hq.
    + rewrite (space_is_no_quote c Hc), Hc, (scan_spaces r Hsp).
      simpl. by rewrite app_nil_r.
  - simpl. destruct q.
    + apply IH. intros Hin. specialize (Hq eq_refl). simpl in Hq.
      apply negb_true_iff in Hin. by rewrite Hin in Hq.
    + destruct (Js.isQuote c).
      * rewrite trimEnd_keeps_quotes.
        destruct (Js.existsb Js.isQuote r) eqn:Hex; [by apply IH|].
        by rewrite IH.
      * destruct (Js.isSpace c); by rewrite IH.
Qed.

Lemma scan_trimStart s :
  Legacy.scan (Js.trimStart s) None false = Legacy.scan s None false.
Proof.
  induction s as [|c r IH]; simpl; [done|].
  destruct (Js.isSpace c) eqn:Hc; [|by simpl; rewrite Hc].
  by rewrite (space_is_no_quote c Hc).
Qed.

Lemma scan_trim s :
  Legacy.scan (Js.trim s) None false = Legacy.scan s None false.
Proof. unfold Js.trim. by rewrite scan_trimEnd, scan_trimStart. Qed.

(** X27.  Tokens (runs of characters that are neither white space nor a
    double quote, and double-quoted spans, which may hold white space)
    joined by single spaces are read back one by one by the pattern of
    [parse], also through the trimming [parse] applies first; a quoted span
    keeps its quotes. *)
Theorem tokens_joined_by_spaces_are_read_back ws :
  Forall lineToken ws ->
  ws ≠ [] ->
  Legacy.scan (String.concat " " ws) None false = ws
  /\ Legacy.matchParts (Js.trim (String.concat " " ws)) = Some ws.
Proof.
  intros Hws Hne. split; [by apply scan_joined|].
  unfold Legacy.matchParts. rewrite scan_trim, scan_joined by done.
  by destruct ws.
Qed.

(** X28.  The tokens of a line are those of the trimmed line: white space
    around the line adds no token and changes none. *)
Theorem tokens_ignore_surrounding_space s :
  Legacy.scan (Js.trim s) None false = Legacy.scan s None false
  /\ Legacy.matchParts (Js.trim s) = Legacy.matchParts s.
Proof.
  split; [apply scan_trim|]. unfold Legacy.matchParts. by rewrite scan_trim.
Qed.

Lemma wrap_is_bare key :
  Js.forallb isBare key = true -> lineToken ("<" ++ key ++ ">").
Proof.
  intros Hk. left. split; [done|]. rewrite append_cons, append_nil.
  change (Js.forallb isBare (key ++ ">") = true).
  induction key as [|c key IH]; [done|].
  simpl in Hk. apply andb_true_iff in Hk as [Hc Hk].
  rewrite append_cons. simpl. by rewrite Hc, IH.
Qed.

(** X29.  The usage string of a command, made of its name and of its
    argument keys in angle brackets, is read back by [parse] as the name
    followed by one token for each argument, when the name and the keys
    hold neither white space nor double quotes. *)
Theorem usage_is_read_back_by_the_tokenizer (this : Command) name :
  cmd_name this = Some name ->
  bareWord name ->
  Forall (fun arg => Js.forallb isBare (arg_key arg) = true) (cmd_arguments this) ->
  Legacy.matchParts (Js.trim (usage this))
    = Some (name :: (wrap <$> cmd_arguments this)).
Proof.
  intros Hn Hname Hkeys.
  unfold Legacy.matchParts. rewrite scan_trim. unfold usage. rewrite Hn.
  assert (Forall lineToken (name :: (wrap <$> cmd_arguments this))) as Htok.
  { apply Forall_cons. split; [by left|].
    apply Forall_fmap. eapply Forall_impl; [exact Hkeys|].
    intros arg. apply wrap_is_bare. }
  destruct (cmd_arguments this) as [|a l].
  - simpl. rewrite scan_token by (by left). reflexivity.
  - change (from_option id "undefined" (Some name) ++ " "
            ++ String.concat " " (wrap <$> a :: l))
      with (String.concat " " (name :: (wrap <$> a :: l))).
    by rewrite (scan_joined _ Htok).
Qed.

Lemma trimEnd_idem s : Js.trimEnd (Js.trimEnd s) = Js.trimEnd s.
Proof.
  induction s as [|c r IH]; simpl; [done|].
  destruct (Js.isSpace c && Js.isEmpty (Js.trimEnd r)) eqn:Hc; [done|].
  simpl. by rewrite IH, Hc.
Qed.

Lemma trimStart_trimEnd s :
  Js.trimStart (Js.trimEnd (Js.trimStart s)) = Js.trimEnd (Js.trimStart s).
Proof.
  induction s as [|c r IH]; simpl; [done|].
  destruct (Js.isSpace c) eqn:Hc; [done|].
  simpl. rewrite Hc. simpl. by rewrite Hc.
Qed.

Lemma trim_idem s : Js.trim (Js.trim s) = Js.trim s.
Proof.
  unfold Js.trim. by rewrite trimStart_trimEnd, trimEnd_idem.
Qed.

(** X30.  Both parsers read the trimmed line only: trimming is
    idempotent, so a line and its trimmed form are parsed alike and have
    the same command token. *)
Theorem parse_reads_the_trimmed_line command pass w :
  Parser.parse (Js.trim command) pass w = Parser.parse command pass w
  /\ Legacy.parse (Js.trim command) pass w = Legacy.parse command pass w
  /\ commandToken (Js.trim command) = commandToken command.
Proof.
  unfold Parser.parse, Legacy.parse, commandToken, firstSpace.
  by rewrite trim_idem.
Qed.

End Tokens.

(** ** More runs on concrete input *)

Section MoreRuns.
Import Sample Cases.

#[local] Existing Instance environment.

Lemma default_replaces_absent_or_failed_witness :
  primTruthy (arg_default (Legacy.newIntegerArgument defaultedArgument)) = true
  /\ defaultAllowed (Legacy.newIntegerArgument defaultedArgument)
  /\ Legacy.getValue (Legacy.newIntegerArgument defaultedArgument) (Some "abc")
       host emptyWorld
     = (Ret (VError defaultedError), setNextId 1 emptyWorld)
  /\ (isError (VError defaultedError) = true
      \/ (isUndefined (VError defaultedError) = true
          /\ arg_required (Legacy.newIntegerArgument defaultedArgument) = false))
  /\ Legacy.getWithDefault (Legacy.newIntegerArgument defaultedArgument)
       (Some "abc") host emptyWorld
     = (Ret (VPrim (PNum 5)), setNextId 1 emptyWorld)
  /\ Legacy.get (Legacy.newIntegerArgument defaultedArgument) (Some "abc")
       host emptyWorld
     = (Ret {| success := true; value := VPrim (PNum 5) |}, setNextId 1 emptyWorld).
Proof.
  split; [reflexivity|]. split; [exact I|]. split; [reflexivity|].
  split; [left; reflexivity|].
  exact (default_replaces_absent_or_failed
           (Legacy.newIntegerArgument defaultedArgument) (Some "abc") host
           (VError defaultedError) emptyWorld (setNextId 1 emptyWorld)
           eq_refl I eq_refl (or_introl eq_refl)).
Defined.

Lemma parsed_value_is_kept_and_falsy_default_ignored_witness :
  arg_choices (Legacy.newIntegerArgument boundedArgument) = None
  /\ Legacy.getValue (Legacy.newIntegerArgument boundedArgument) (Some "9")
       host emptyWorld
     = (Ret (VPrim (PNum 9)), emptyWorld)
  /\ isError (VPrim (PNum 9)) = false
  /\ (isUndefined (VPrim (PNum 9)) = false
      \/ (primTruthy (arg_default (Legacy.newIntegerArgument boundedArgument))
            = false
          /\ arg_required (Legacy.newIntegerArgument boundedArgument) = false))
  /\ Legacy.getWithDefault (Legacy.newIntegerArgument boundedArgument) (Some "9")
       host emptyWorld
     = (Ret (VPrim (PNum 9)), emptyWorld)
  /\ Legacy.get (Legacy.newIntegerArgument boundedArgument) (Some "9")
       host emptyWorld
     = (Ret {| success := true; value := VPrim (PNum 9) |}, emptyWorld).
Proof.
  do 3 (split; [reflexivity|]). split; [left; reflexivity|].
  exact (parsed_value_is_kept_and_falsy_default_ignored
           (Legacy.newIntegerArgument boundedArgument) (Some "9") host
           (VPrim (PNum 9)) emptyWorld emptyWorld
           eq_refl eq_refl eq_refl (or_introl eq_refl)).
Defined.

Lemma required_wins_over_default_witness :
  arg_required (Legacy.newArgument (requiredArgument "who" "generic")) = true
  /\ arg_class (Legacy.newArgument (requiredArgument "who" "generic"))
       <> ClsUserArgument
  /\ arg_class (Legacy.newArgument (requiredArgument "who" "generic"))
       <> ClsSubredditArgument
  /\ (arg_class (Legacy.newArgument (requiredArgument "who" "generic")) = ClsCustom
      -> is_Some (arg_custom (Legacy.newArgument (requiredArgument "who" "generic"))))
  /\ localize host = Some echo
  /\ send host = true
  /\ exists e w1 w',
       Legacy.getWithDefault (Legacy.newArgument (requiredArgument "who" "generic"))
         None host emptyWorld = (Ret (VError e), w1)
       /\ err_code e = "ARGUMENT_REQUIRED"
       /\ Legacy.get (Legacy.newArgument (requiredArgument "who" "generic"))
            None host emptyWorld
          = (Ret {| success := false; value := undefined |}, w')
       /\ trace w' = Sent (err_message e) :: trace w1.
Proof.
  assert (arg_class (Legacy.newArgument (requiredArgument "who" "generic"))
          <> ClsUserArgument) as Hu.
  { intros Hcls. discriminate Hcls. }
  assert (arg_class (Legacy.newArgument (requiredArgument "who" "generic"))
          <> ClsSubredditArgument) as Hs.
  { intros Hcls. discriminate Hcls. }
  assert (arg_class (Legacy.newArgument (requiredArgument "who" "generic"))
            = ClsCustom
          -> is_Some (arg_custom
                        (Legacy.newArgument (requiredArgument "who" "generic"))))
    as Hc.
  { intros Hcls. discriminate Hcls. }
  split; [reflexivity|]. split; [exact Hu|]. split; [exact Hs|].
  split; [exact Hc|]. do 2 (split; [reflexivity|]).
  exact (required_wins_over_default
           (Legacy.newArgument (requiredArgument "who" "generic")) host echo
           emptyWorld eq_refl Hu Hs Hc eq_refl eq_refl).
Defined.

Lemma accepted_value_is_a_choice_witness :
  arg_choices levelArgument = Some [PNum 1; PNum 2]
  /\ Legacy.getWithDefault levelArgument (Some "2") host emptyWorld
     = (Ret (VPrim (PNum 2)), emptyWorld)
  /\ isError (VPrim (PNum 2)) = false
  /\ includes [PNum 1; PNum 2] (VPrim (PNum 2)) = true.
Proof.
  do 3 (split; [reflexivity|]).
  exact (accepted_value_is_a_choice levelArgument (Some "2") host
           [PNum 1; PNum 2] (VPrim (PNum 2)) emptyWorld emptyWorld
           eq_refl eq_refl eq_refl).
Defined.

Lemma string_accepts_strictly_between_witness :
  as_minLength rangeArgument = Some 3%Z
  /\ as_maxLength rangeArgument = Some 6%Z
  /\ as_matches rangeArgument = None
  /\ (3 <> 0)%Z /\ (6 <> 0)%Z
  /\ localize host = Some echo
  /\ Legacy.getValue (Legacy.newStringArgument rangeArgument) (Some "abcd")
       host emptyWorld
     = (Ret (VPrim (PStr "abcd")), emptyWorld)
  /\ (exists e w',
        Legacy.getValue (Legacy.newStringArgument rangeArgument) (Some "abcdef")
          host emptyWorld = (Ret (VError e), w')
        /\ err_code e = "STRING_ARGUMENT_TOO_LONG")
  /\ (exists e w',
        Legacy.getValue (Legacy.newStringArgument rangeArgument) (Some "abc")
          host emptyWorld = (Ret (VError e), w')
        /\ err_code e = "STRING_ARGUMENT_TOO_SHORT").
Proof.
  assert (3 <> 0)%Z as H3 by lia. assert (6 <> 0)%Z as H6 by lia.
  do 3 (split; [reflexivity|]). split; [exact H3|]. split; [exact H6|].
  split; [reflexivity|].
  destruct (string_accepts_strictly_between rangeArgument 3 6 "abcd" host echo
              emptyWorld eq_refl eq_refl eq_refl H3 H6 eq_refl) as (Hfits & _ & _).
  destruct (string_accepts_strictly_between rangeArgument 3 6 "abcdef" host echo
              emptyWorld eq_refl eq_refl eq_refl H3 H6 eq_refl) as (_ & Hlong & _).
  destruct (string_accepts_strictly_between rangeArgument 3 6 "abc" host echo
              emptyWorld eq_refl eq_refl eq_refl H3 H6 eq_refl) as (_ & _ & Hshort).
  split; [apply Hfits; simpl; lia|].
  split; [apply Hlong; simpl; lia|apply Hshort; simpl; lia].
Defined.

Lemma string_refuses_the_empty_token_witness :
  (forall m, as_minLength boundedArgument = Some m -> (0 <= m)%Z)
  /\ localize host = Some echo
  /\ exists e w',
       Legacy.getValue (Legacy.newStringArgument boundedArgument) (Some "")
         host emptyWorld = (Ret (VError e), w').
Proof.
  assert (forall m, as_minLength boundedArgument = Some m -> (0 <= m)%Z) as Hmin.
  { intros m Hm. injection Hm as <-. lia. }
  split; [exact Hmin|]. split; [reflexivity|].
  exact (string_refuses_the_empty_token boundedArgument host echo emptyWorld
           Hmin eq_refl).
Defined.



Lemma user_and_subreddit_values_are_names_witness :
  (arg_class whoArgument = ClsUserArgument
   \/ arg_class whoArgument = ClsSubredditArgument)
  /\ Legacy.getValue whoArgument (Some "u/alice") host emptyWorld
     = (Ret (VPrim (PStr "alice")), emptyWorld)
  /\ isError (VPrim (PStr "alice")) = false
  /\ exists s, VPrim (PStr "alice") = VPrim (PStr s) /\ userName s.
Proof.
  split; [left; reflexivity|]. do 2 (split; [reflexivity|]).
  exact (user_and_subreddit_values_are_names whoArgument (Some "u/alice") host
           (VPrim (PStr "alice")) emptyWorld emptyWorld
           (or_introl eq_refl) eq_refl eq_refl).
Defined.

Lemma prefix_is_stripped_from_names_witness :
  freeText (requiredArgument "who" "user")
  /\ userName "alice"
  /\ subredditName "rocq"
  /\ Forall (fun token =>
               Legacy.getValue
                 (Legacy.newUserArgument (requiredArgument "who" "user"))
                 (Some token) host emptyWorld
               = (Ret (VPrim (PStr "alice")), emptyWorld))
            ["alice"; "u/" ++ "alice"; "U/" ++ "alice"]
  /\ Forall (fun token =>
               Legacy.getValue
                 (Legacy.newSubredditArgument (requiredArgument "who" "user"))
                 (Some token) host emptyWorld
               = (Ret (VPrim (PStr "rocq")), emptyWorld))
            ["rocq"; "r/" ++ "rocq"; "R/" ++ "rocq"].
Proof.
  assert (freeText (requiredArgument "who" "user")) as Hfree.
  { repeat split. }
  assert (userName "alice") as Hu.
  { split; [reflexivity|]. simpl. lia. }
  assert (subredditName "rocq") as Hr.
  { split; [reflexivity|]. simpl. lia. }
  split; [exact Hfree|]. split; [exact Hu|]. split; [exact Hr|].
  exact (prefix_is_stripped_from_names (requiredArgument "who" "user")
           "alice" "rocq" host emptyWorld Hfree Hu Hr).
Defined.

Lemma string_rule_codes_never_leave_a_name_argument_witness :
  (arg_class whoArgument = ClsUserArgument
   \/ arg_class whoArgument = ClsSubredditArgument)
  /\ Legacy.getValue whoArgument (Some "a!") host emptyWorld
     = (Ret (VError whoError), setNextId 1 emptyWorld)
  /\ err_sourceArg whoError = arg_class whoArgument
  /\ err_code whoError
       ∈ ["USER_ARGUMENT_TOO_SHORT"; "USER_ARGUMENT_TOO_LONG";
          "USER_ARGUMENT_INVALID"].
Proof.
  split; [left; reflexivity|]. split; [reflexivity|].
  exact (string_rule_codes_never_leave_a_name_argument whoArgument (Some "a!")
           host whoError emptyWorld (setNextId 1 emptyWorld)
           (or_introl eq_refl) eq_refl).
Defined.

Lemma custom_result_is_discarded_witness :
  arg_class (Legacy.newCustomArgument customArgument) = ClsCustom
  /\ arg_custom (Legacy.newCustomArgument customArgument) = Some 3
  /\ localize host = Some echo
  /\ Legacy.getValue (Legacy.newCustomArgument customArgument) (Some "x")
       host emptyWorld
     = (Ret undefined, setTrace [CalledCustom 3 (Some "x")] emptyWorld)
  /\ exists e w',
       Legacy.getWithDefault (Legacy.newCustomArgument customArgument) (Some "x")
         host emptyWorld = (Ret (VError e), w')
       /\ err_code e = "ARGUMENT_REQUIRED".
Proof.
  do 3 (split; [reflexivity|]).
  destruct (custom_result_is_discarded (Legacy.newCustomArgument customArgument)
              (Some "x") host echo 3 emptyWorld eq_refl eq_refl eq_refl)
    as (Hvalue & Hrequired & _).
  split; [exact Hvalue|].
  eexists _, _. split; [exact (Hrequired eq_refl)|reflexivity].
Defined.

Lemma register_refuses_a_nameless_specification_witness :
  specs worldNameless !! 1 = Some namelessCommand
  /\ nameless namelessCommand
  /\ Legacy.register 1 worldNameless
     = (Throw (Error "A command must have a name."), worldNameless)
  /\ Parser.registerSingle 1 worldNameless
     = (Throw (CommandError "Commands must have names." "MISSING_COMMAND_NAME"),
        worldNameless)
  /\ Parser.register (inr [1; 1]) worldNameless
     = (Throw (CommandError "Commands must have names." "MISSING_COMMAND_NAME"),
        worldNameless).
Proof.
  assert (nameless namelessCommand) as Hno.
  { intros name Hname. injection Hname as <-. reflexivity. }
  split; [reflexivity|]. split; [exact Hno|].
  exact (register_refuses_a_nameless_specification worldNameless 1
           namelessCommand [1] eq_refl Hno).
Defined.



Lemma greetWorld_named type : registryNamed (cmdRegistry (greetWorld type)).
Proof.
  intros key c Hc. unfold greetWorld in Hc. cbn [cmdRegistry] in Hc.
  apply lookup_singleton_Some in Hc as [<- <-]. reflexivity.
Qed.

Lemma deregister_without_alternatives_deletes_one_key_witness :
  registryNamed (cmdRegistry (greetWorld "generic"))
  /\ Parser.deregister "greet" false (greetWorld "generic")
     = (Ret (delete "greet" (cmdRegistry (greetWorld "generic"))),
        setRegistry (delete "greet" (cmdRegistry (greetWorld "generic")))
          (greetWorld "generic")).
Proof.
  split; [apply greetWorld_named|].
  exact (deregister_without_alternatives_deletes_one_key "greet"
           (greetWorld "generic") (greetWorld_named "generic")).
Defined.

Lemma deregister_by_alias_removes_nothing_witness :
  specs (worldAB []) !! 1 = Some (plainCommand "a" (Some 0) [])
  /\ Legacy.findName (plainCommand "a" (Some 0) []) = Some "a"
  /\ Js.truthy "a" = true
  /\ declaredAliases (worldAB []) (plainCommand "a" (Some 0) []) = Some ["b"]
  /\ heapFresh (worldAB [])
  /\ "b" ≠ "a"
  /\ (forall key c, cmdRegistry (worldAB []) !! key = Some c ->
        cmd_originalName c ≠ Some "b")
  /\ exists w1,
       Parser.registerSingle 1 (worldAB []) = (Ret (cmdRegistry w1), w1)
       /\ Parser.deregister "b" true w1 = (Ret (cmdRegistry w1), w1).
Proof.
  assert ("b" ≠ "a") as Hne.
  { intros Heq. discriminate Heq. }
  assert (forall key c, cmdRegistry (worldAB []) !! key = Some c ->
            cmd_originalName c ≠ Some "b") as Hold.
  { intros key c Hc. unfold worldAB in Hc. cbn [cmdRegistry] in Hc.
    rewrite lookup_empty in Hc. discriminate Hc. }
  do 4 (split; [reflexivity|]). split; [apply worldAB_fresh|].
  split; [exact Hne|]. split; [exact Hold|].
  exact (deregister_by_alias_removes_nothing (worldAB []) 1
           (plainCommand "a" (Some 0) []) "a" ["b"] "b"
           eq_refl eq_refl eq_refl eq_refl (worldAB_fresh []) Hne Hold).
Defined.

Lemma greet_callable : customsCallable (cmd_arguments (greet "generic")).
Proof. apply Forall_singleton. intros Hcls. discriminate Hcls. Qed.

Lemma rejected_permission_stops_the_handler_only_witness :
  localize guardedHost = Some echo
  /\ send guardedHost = true
  /\ customsCallable (cmd_arguments (greet "generic"))
  /\ commandToken "greet" ≠ ""
  /\ cmdRegistry (greetWorld "generic") !! commandToken "greet"
     = Some (greet "generic")
  /\ permitted guardedHost (greet "generic") = false
  /\ exists w' t,
       Parser.parse "greet" guardedHost (greetWorld "generic") = (Ret None, w')
       /\ trace w'
          = (t ++ Sent (echo "no_permission" None) :: trace (greetWorld "generic"))%list
       /\ Forall isNoRun t
       /\ sentCalls t
          = refusals (greetWorld "generic") (cmd_arguments (greet "generic")) 0
              (argumentTokens "greet" (greet "generic")) guardedHost.
Proof.
  assert (commandToken "greet" ≠ "") as Ht.
  { intros Heq. discriminate Heq. }
  do 2 (split; [reflexivity|]). split; [apply greet_callable|].
  split; [exact Ht|]. do 2 (split; [reflexivity|]).
  exact (rejected_permission_stops_the_handler_only "greet" guardedHost echo
           (greet "generic") (greetWorld "generic")
           eq_refl eq_refl greet_callable Ht eq_refl eq_refl).
Defined.

Lemma every_refusal_is_reported_once_witness :
  localize host = Some echo
  /\ send host = true
  /\ customsCallable (cmd_arguments (greet "generic"))
  /\ commandToken "greet bob" ≠ ""
  /\ cmdRegistry (greetWorld "generic") !! commandToken "greet bob"
     = Some (greet "generic")
  /\ Legacy.matchParts (Js.trim "greet bob")
     = Some (commandToken "greet bob" :: ["bob"])
  /\ (exists result w',
        Parser.parse "greet bob" host (greetWorld "generic") = (Ret result, w')
        /\ sentCalls (trace w')
           = sentCalls (trace (greetWorld "generic"))
             + (if permitted host (greet "generic") then 0 else 1)
             + refusals (greetWorld "generic") (cmd_arguments (greet "generic")) 0
                 (argumentTokens "greet bob" (greet "generic")) host)
  /\ (exists result w',
        Legacy.parse "greet bob" host (greetWorld "generic") = (Ret result, w')
        /\ sentCalls (trace w')
           = sentCalls (trace (greetWorld "generic"))
             + refusals (greetWorld "generic") (cmd_arguments (greet "generic")) 0
                 ["bob"] host).
Proof.
  assert (commandToken "greet bob" ≠ "") as Ht.
  { intros Heq. discriminate Heq. }
  do 2 (split; [reflexivity|]). split; [apply greet_callable|].
  split; [exact Ht|]. do 2 (split; [reflexivity|]).
  exact (every_refusal_is_reported_once "greet bob" host echo
           (greet "generic") ["bob"] (greetWorld "generic")
           eq_refl eq_refl greet_callable Ht eq_refl eq_refl).
Defined.


Lemma returned_object_holds_each_key_and_no_error_witness :
  cmdRegistry (greetWorld "generic") !! commandToken "greet bob"
    = Some (greet "generic")
  /\ Parser.parse "greet bob" host (greetWorld "generic")
     = (Ret (Some bobObject), setTrace [Ran 7 bobObject] (greetWorld "generic"))
  /\ passed bobObject = host
  /\ holdsNoError bobObject
  /\ holdsTheKeys (cmd_arguments (greet "generic")) bobObject.
Proof.
  assert (Parser.parse "greet bob" host (greetWorld "generic")
          = (Ret (Some bobObject),
             setTrace [Ran 7 bobObject] (greetWorld "generic"))) as Hrun.
  { vm_compute. reflexivity. }
  split; [reflexivity|]. split; [exact Hrun|].
  exact (returned_object_holds_each_key_and_no_error "greet bob" host
           (greet "generic") bobObject (greetWorld "generic")
           (setTrace [Ran 7 bobObject] (greetWorld "generic")) eq_refl Hrun).
Defined.

Lemma parse_raises_when_the_host_cannot_report_witness :
  commandToken "greet" ≠ ""
  /\ cmdRegistry (greetWorld "generic") !! commandToken "greet"
     = Some (greet "generic")
  /\ cmd_arguments (greet "generic")
     = [Legacy.toArgument (Plain (requiredArgument "who" "generic"))]
  /\ arg_required (Legacy.toArgument (Plain (requiredArgument "who" "generic")))
     = true
  /\ arg_class (Legacy.toArgument (Plain (requiredArgument "who" "generic")))
       ≠ ClsUserArgument
  /\ arg_class (Legacy.toArgument (Plain (requiredArgument "who" "generic")))
       ≠ ClsSubredditArgument
  /\ (arg_class (Legacy.toArgument (Plain (requiredArgument "who" "generic")))
        = ClsCustom
      -> is_Some (arg_custom
                    (Legacy.toArgument (Plain (requiredArgument "who" "generic")))))
  /\ argumentTokens "greet" (greet "generic") !! 0 = None
  /\ (localize muteHost = None \/ send muteHost = false)
  /\ exists w' t,
       Parser.parse "greet" muteHost (greetWorld "generic")
         = (Throw (TypeError "args.localize is not a function"), w')
       /\ trace w' = (t ++ trace (greetWorld "generic"))%list
       /\ Forall isCustomCall t.
Proof.
  assert (commandToken "greet" ≠ "") as Ht.
  { intros Heq. discriminate Heq. }
  assert (arg_class (Legacy.toArgument (Plain (requiredArgument "who" "generic")))
          ≠ ClsUserArgument) as Hu.
  { intros Hcls. discriminate Hcls. }
  assert (arg_class (Legacy.toArgument (Plain (requiredArgument "who" "generic")))
          ≠ ClsSubredditArgument) as Hs.
  { intros Hcls. discriminate Hcls. }
  assert (arg_class (Legacy.toArgument (Plain (requiredArgument "who" "generic")))
            = ClsCustom
          -> is_Some (arg_custom
                        (Legacy.toArgument
                           (Plain (requiredArgument "who" "generic"))))) as Hc.
  { intros Hcls. discriminate Hcls. }
  split; [exact Ht|]. do 3 (split; [reflexivity|]).
  split; [exact Hu|]. split; [exact Hs|]. split; [exact Hc|].
  split; [reflexivity|]. split; [left; reflexivity|].
  exact (parse_raises_when_the_host_cannot_report "greet" muteHost
           (greet "generic")
           (Legacy.toArgument (Plain (requiredArgument "who" "generic"))) []
           (greetWorld "generic") Ht eq_refl eq_refl eq_refl Hu Hs Hc eq_refl
           (or_introl eq_refl)).
Defined.

Lemma tokens_are_never_empty_witness :
  Legacy.matchParts "greet bob" = Some ["greet"; "bob"]
  /\ (0 <? length ["greet"; "bob"]) = true
  /\ Forall (fun t => t ≠ "") ["greet"; "bob"].
Proof.
  split; [reflexivity|].
  exact (tokens_are_never_empty "greet bob" ["greet"; "bob"] eq_refl).
Defined.

Lemma tokens_joined_by_spaces_are_read_back_witness :
  Forall lineToken ["greet"; String quote ("big world" ++ String quote "")]
  /\ ["greet"; String quote ("big world" ++ String quote "")] ≠ []
  /\ Legacy.scan
       (String.concat " " ["greet"; String quote ("big world" ++ String quote "")])
       None false
     = ["greet"; String quote ("big world" ++ String quote "")]
  /\ Legacy.matchParts
       (Js.trim
          (String.concat " "
             ["greet"; String quote ("big world" ++ String quote "")]))
     = Some ["greet"; String quote ("big world" ++ String quote "")].
Proof.
  assert (Forall lineToken
            ["greet"; String quote ("big world" ++ String quote "")]) as Hws.
  { constructor; [|constructor; [|constructor]].
    - left. split; [intros Heq; discriminate Heq|reflexivity].
    - right. exists "big world". split; reflexivity. }
  assert (["greet"; String quote ("big world" ++ String quote "")] ≠ []) as Hne.
  { intros Heq. discriminate Heq. }
  split; [exact Hws|]. split; [exact Hne|].
  exact (tokens_joined_by_spaces_are_read_back
           ["greet"; String quote ("big world" ++ String quote "")] Hws Hne).
Defined.

Lemma usage_is_read_back_by_the_tokenizer_witness :
  cmd_name (greet "generic") = Some "greet"
  /\ bareWord "greet"
  /\ Forall (fun arg => Js.forallb isBare (arg_key arg) = true)
       (cmd_arguments (greet "generic"))
  /\ Legacy.matchParts (Js.trim (usage (greet "generic")))
     = Some ("greet" :: (wrap <$> cmd_arguments (greet "generic"))).
Proof.
  assert (bareWord "greet") as Hname.
  { split; [intros Heq; discriminate Heq|reflexivity]. }
  assert (Forall (fun arg => Js.forallb isBare (arg_key arg) = true)
            (cmd_arguments (greet "generic"))) as Hkeys.
  { constructor; [reflexivity|constructor]. }
  split; [reflexivity|]. split; [exact Hname|]. split; [exact Hkeys|].
  exact (usage_is_read_back_by_the_tokenizer (greet "generic") "greet"
           eq_refl Hname Hkeys).
Defined.

End MoreRuns.
